(** * Oplog application on a secondary, database naming and the handle sweeper

    A shallow embedding of
    - [DatabaseImpl::validateDBName] (mongo/db/catalog/database_impl.cpp),
    - the WiredTiger data-handle sweeper (wiredtiger/src/conn/conn_sweep.c),
    - the transaction assembler
      (mongo/db/repl/transaction_oplog_application.cpp),
    - the batcher, the writer partitioner, [multiApply] and the pipeline
      driver of mongo/db/repl/sync_tail.cpp, run against the coordinator
      interface implemented by mongo/db/repl/replication_coordinator_mock.cpp.

    Sequential code becomes functions; aborting assertions ([invariant],
    [fassert]), thrown exceptions and blocking waits become constructors of
    [Result]. *)

From Stdlib Require Import ZArith NArith Ascii String List Bool Lia.
From stdpp Require Import gmap strings list fin_maps.
Import ListNotations.

(** ** Status and error codes (mongo/base) *)

Inductive ErrorCodes : Type :=
| OK
| BadValue
| FailedToParse
| OplogOutOfOrder
| CannotApplyOplogWhilePrimary
| IncompleteTransactionHistory
| InternalError.

#[global] Instance ErrorCodes_eq_dec : EqDecision ErrorCodes.
Proof. solve_decision. Defined.

Record Status : Type := mkStatus { code : ErrorCodes; reason : string }.

#[global] Instance Status_eq_dec : EqDecision Status.
Proof. solve_decision. Defined.

Definition Status_OK : Status := mkStatus OK "".

Definition isOK (s : Status) : bool :=
  match code s with OK => true | _ => false end.

(** How a call ends.  [Ret] is a normal return; [Fatal] is [fassert],
    [fassertFailedNoTrace] and friends (the process aborts with the given
    message id); [InvariantFailure] is a failed [invariant]; [Throw] is an
    exception ([uassert]); [Undefined] is C++ undefined behaviour (reading an
    empty [boost::optional], dividing by zero); [Blocked] is a wait on a
    fail point that nobody turns off; [OutOfFuel] belongs to the model only. *)
Inductive Result (A : Type) : Type :=
| Ret (a : A)
| Fatal (msgid : Z) (st : option Status)
| InvariantFailure (what : string)
| Throw (st : Status)
| Undefined (what : string)
| Blocked (what : string)
| OutOfFuel.
Arguments Ret {A} a.
Arguments Fatal {A} msgid st.
Arguments InvariantFailure {A} what.
Arguments Throw {A} st.
Arguments Undefined {A} what.
Arguments Blocked {A} what.
Arguments OutOfFuel {A}.

Definition bindR {A B : Type} (m : Result A) (k : A -> Result B) : Result B :=
  match m with
  | Ret a => k a
  | Fatal i s => Fatal i s
  | InvariantFailure w => InvariantFailure w
  | Throw s => Throw s
  | Undefined w => Undefined w
  | Blocked w => Blocked w
  | OutOfFuel => OutOfFuel
  end.

#[global] Instance Result_ret : MRet Result := fun A a => Ret a.
#[global] Instance Result_bind : MBind Result := fun A B k m => bindR m k.

(** [invariant(cond)] *)
Definition invariant (cond : bool) (what : string) : Result unit :=
  if cond then Ret tt else InvariantFailure what.

Lemma bindR_Ret_inv {A B} (m : Result A) (k : A -> Result B) b :
  bindR m k = Ret b -> exists a, m = Ret a /\ k a = Ret b.
Proof. destruct m; simpl; intros H; try discriminate. eauto. Qed.

(** ** Database names (mongo/db/catalog/database_impl.cpp) *)

Module Catalog.

(** [StringData::find(char)]: the position of the first occurrence, [None]
    for [std::string::npos]. *)
Fixpoint find (s : string) (c : ascii) : option nat :=
  match s with
  | EmptyString => None
  | String a s' => if Ascii.eqb a c then Some 0 else option_map S (find s' c)
  end.

(** [::tolower] in the C locale. *)
Definition tolower (c : ascii) : ascii :=
  let n := nat_of_ascii c in
  if (65 <=? n)%nat && (n <=? 90)%nat then ascii_of_nat (n + 32) else c.

Fixpoint transform_tolower (s : string) : string :=
  match s with
  | EmptyString => EmptyString
  | String a s' => String (tolower a) (transform_tolower s')
  end.

Definition windowsReservedNames : list string :=
  ["con"; "prn"; "aux"; "nul"; "com1"; "com2"; "com3"; "com4"; "com5"; "com6"; "com7";
   "com8"; "com9"; "lpt1"; "lpt2"; "lpt3"; "lpt4"; "lpt5"; "lpt6"; "lpt7"; "lpt8"; "lpt9"]%string.

Definition dquote : string := String (ascii_of_nat 34) EmptyString.

Definition validateDBNameForWindows (dbname : string) : Status :=
  let lower := transform_tolower dbname in
  if negb (Nat.eqb (count_occ string_dec windowsReservedNames lower) 0)
  then mkStatus BadValue
         (String.append "db name " (String.append dquote (String.append dbname
            (String.append dquote " is a reserved name"))))
  else Status_OK.

Definition isSome {A : Type} (o : option A) : bool :=
  match o with Some _ => true | None => false end.

(** [win32] stands for the [_WIN32] preprocessor symbol. *)
Definition validateDBName (win32 : bool) (dbname : string) : Status :=
  if (String.length dbname <=? 0)%nat then mkStatus BadValue "db name is empty"
  else if (64 <=? String.length dbname)%nat then mkStatus BadValue "db name is too long"
  else if isSome (find dbname "."%char) then mkStatus BadValue "db name cannot contain a ."
  else if isSome (find dbname " "%char) then mkStatus BadValue "db name cannot contain a space"
  else if win32 then validateDBNameForWindows dbname
  else Status_OK.

(** The rejected names, in the words of the specification. *)
Definition contains (s : string) (c : ascii) : Prop := In c (list_ascii_of_string s).

Definition rejectedName (win32 : bool) (dbname : string) : Prop :=
  dbname = EmptyString
  \/ (64 <= String.length dbname)%nat
  \/ contains dbname "."%char
  \/ contains dbname " "%char
  \/ (win32 = true /\ In (transform_tolower dbname) windowsReservedNames).

(** *** Properties of [validateDBName] *)

Lemma find_isSome_contains (s : string) (c : ascii) :
  isSome (find s c) = true <-> contains s c.
Proof.
  unfold contains. induction s as [|a s IH]; simpl.
  - split; [discriminate | tauto].
  - destruct (Ascii.eqb a c) eqn:E.
    + apply Ascii.eqb_eq in E. simpl. split; auto.
    + apply Ascii.eqb_neq in E. destruct (find s c); simpl in *.
      * split; [intros _; right; apply IH; reflexivity | reflexivity].
      * split; [discriminate | intros [H | H]; [contradiction | apply IH, H]].
Qed.

Lemma validateDBNameForWindows_OK (dbname : string) :
  validateDBNameForWindows dbname = Status_OK
  <-> ~ In (transform_tolower dbname) windowsReservedNames.
Proof.
  unfold validateDBNameForWindows.
  pose proof (count_occ_not_In string_dec windowsReservedNames (transform_tolower dbname))
    as [Hto Hfrom].
  destruct (Nat.eqb_spec (count_occ string_dec windowsReservedNames (transform_tolower dbname)) 0)
    as [E | E]; cbn [negb].
  - split; [intros _; exact (Hfrom E) | reflexivity].
  - split; [discriminate | intros HnIn; elim E; exact (Hto HnIn)].
Qed.

Lemma validateDBNameForWindows_reserved (dbname : string) :
  In (transform_tolower dbname) windowsReservedNames ->
  code (validateDBNameForWindows dbname) = BadValue.
Proof.
  intros HIn. unfold validateDBNameForWindows.
  pose proof (count_occ_not_In string_dec windowsReservedNames (transform_tolower dbname))
    as [Hto Hfrom].
  destruct (Nat.eqb_spec (count_occ string_dec windowsReservedNames (transform_tolower dbname)) 0)
    as [E | E]; cbn [negb].
  - elim (Hfrom E). exact HIn.
  - reflexivity.
Qed.

(** C10. [validateDBName] returns [Status::OK] for a name exactly when the
    name is none of: empty, 64 characters or longer, containing a dot,
    containing a space, or (on a Windows build only) a reserved device name
    once lower-cased; every rejected name gets a [BadValue] status. *)
Theorem validateDBName_rejects_exactly (win32 : bool) (dbname : string) :
  (validateDBName win32 dbname = Status_OK <-> ~ rejectedName win32 dbname)
  /\ (rejectedName win32 dbname -> code (validateDBName win32 dbname) = BadValue).
Proof.
  unfold validateDBName, rejectedName.
  destruct (Nat.leb_spec (String.length dbname) 0) as [Hlen0 | Hlen0].
  { assert (dbname = EmptyString) as -> by (destruct dbname; simpl in *; [reflexivity | lia]).
    split; [split; [discriminate | tauto] | reflexivity]. }
  destruct (Nat.leb_spec 64 (String.length dbname)) as [Hlen | Hlen].
  { split; [split; [discriminate | tauto] | reflexivity]. }
  pose proof (find_isSome_contains dbname "."%char) as Hdot.
  destruct (isSome (find dbname "."%char)).
  { split; [split; [discriminate | intros H; exfalso; apply H; tauto] | reflexivity]. }
  pose proof (find_isSome_contains dbname " "%char) as Hsp.
  destruct (isSome (find dbname " "%char)).
  { split; [split; [discriminate | intros H; exfalso; apply H; tauto] | reflexivity]. }
  assert (Hne : dbname <> EmptyString) by (intros ->; simpl in Hlen0; lia).
  assert (Hnd : ~ contains dbname "."%char) by (intros H; apply Hdot in H; discriminate).
  assert (Hns : ~ contains dbname " "%char) by (intros H; apply Hsp in H; discriminate).
  destruct win32.
  - rewrite validateDBNameForWindows_OK. split.
    + split.
      * intros HnIn [H | [H | [H | [H | [_ H]]]]]; try contradiction; lia.
      * intros H HIn. apply H. do 4 right. split; [reflexivity | exact HIn].
    + intros [H | [H | [H | [H | [_ H]]]]]; try contradiction; try lia.
      apply validateDBNameForWindows_reserved, H.
  - split.
    + split; [| reflexivity].
      intros _ [H | [H | [H | [H | [H _]]]]]; try contradiction; try lia; discriminate.
    + intros [H | [H | [H | [H | [H _]]]]]; try contradiction; try lia; discriminate.
Qed.

Example validateDBName_accepts_test : validateDBName false "test" = Status_OK.
Proof. reflexivity. Qed.

Example validateDBName_windows_CON : code (validateDBName true "CON") = BadValue.
Proof. reflexivity. Qed.

Example validateDBName_posix_CON : validateDBName false "CON" = Status_OK.
Proof. reflexivity. Qed.

(** *** Names for temporary collections *)

Definition charsToChooseFrom : string :=
  "0123456789ABCDEFGHIJKLMNOPQRSTUVWXYZabcdefghijklmnopqrstuvwxyz".

Definition size_t (n : Z) : Z := (n mod 2 ^ 64)%Z.

(** [std::count(model.begin(), model.end(), c)] *)
Fixpoint count (s : string) (c : ascii) : Z :=
  match s with
  | EmptyString => 0%Z
  | String a s' => ((if Ascii.eqb a c then 1 else 0) + count s' c)%Z
  end.

(** [StatusWith<NamespaceString>], as [makeUniqueCollectionNamespace] fills
    it: the namespace [<db>.<collectionName>], the status
    [ErrorCodes::FailedToParse], or the status [ErrorCodes::NamespaceExists]
    (whose message tells the number of attempts). *)
Inductive UniqueNamespace : Type :=
| UniqueNamespace_OK (db collectionName : string)
| UniqueNamespace_FailedToParse
| UniqueNamespace_NamespaceExists (numGenerationAttempts : Z).

Section UniqueCollectionNamespace.

Local Open Scope Z_scope.

(** What lies outside the files embedded here: the pseudo-random number
    generator (platform/random.h), seeded from the clock, whose
    [nextInt32(max)] returns a number and the generator afterwards;
    [NamespaceString::MaxNsCollectionLen]; and the catalog, asked whether a
    collection is registered under [<db>.<collectionName>]. *)
Variable PseudoRandom : Type.
Variable PseudoRandom_new : Z -> PseudoRandom.
Variable nextInt32 : PseudoRandom -> Z -> Z * PseudoRandom.
Variable MaxNsCollectionLen : Z.
Variable getCollection : string -> string -> bool.

(** The part of [DatabaseImpl] that the function reads and writes. *)
Record DatabaseImpl : Type := mkDatabaseImpl {
  _name : string;
  _uniqueCollectionNamespacePseudoRandom : option PseudoRandom }.

(** The lambda [replacePercentSign]; an index past the end of
    [charsToChooseFrom] is undefined. *)
Definition replacePercentSign (c : ascii) (prng : PseudoRandom)
  : Result (ascii * PseudoRandom) :=
  if negb (Ascii.eqb c "%") then Ret (c, prng)
  else
    let '(i, prng') := nextInt32 prng (Z.of_nat (String.length charsToChooseFrom)) in
    match (if 0 <=? i then String.get (Z.to_nat i) charsToChooseFrom else None) with
    | Some replacement => Ret (replacement, prng')
    | None => Undefined "charsToChooseFrom[i]"
    end.

(** [std::transform] with [replacePercentSign], first character first. *)
Fixpoint transform (s : string) (prng : PseudoRandom) : Result (string * PseudoRandom) :=
  match s with
  | EmptyString => Ret (EmptyString, prng)
  | String c s' =>
      '(c', prng1) ← replacePercentSign c prng;
      '(s'', prng2) ← transform s' prng1;
      Ret (String c' s'', prng2)
  end.

(** [for (i = 0; i < numGenerationAttempts; ++i)]: the first name
    generated under which no collection is registered. *)
Fixpoint generate (attempts : nat) (db model : string) (prng : PseudoRandom)
  : Result (option string * PseudoRandom) :=
  match attempts with
  | O => Ret (None, prng)
  | S attempts' =>
      '(collectionName, prng') ← transform model prng;
      if negb (getCollection db collectionName) then Ret (Some collectionName, prng')
      else generate attempts' db model prng'
  end.

(** The model once truncated. *)
Definition truncatedModel (this : DatabaseImpl) (collectionNameModel : string) : string :=
  let maxModelLength := size_t (MaxNsCollectionLen - (Z.of_nat (String.length (_name this)) + 1)) in
  String.substring 0 (Z.to_nat maxModelLength) collectionNameModel.

(** [isDbLockedForMode_X] is what the lock state answers, [now] the clock
    reading that seeds the generator the first time. *)
Definition makeUniqueCollectionNamespace (isDbLockedForMode_X : bool) (now : Z)
  (this : DatabaseImpl) (collectionNameModel : string)
  : Result (UniqueNamespace * DatabaseImpl) :=
  _ ← invariant isDbLockedForMode_X "opCtx->lockState()->isDbLockedForMode(name(), MODE_X)";
  let model := truncatedModel this collectionNameModel in
  let numPercentSign := count model "%" in
  if numPercentSign =? 0 then Ret (UniqueNamespace_FailedToParse, this)
  else
    let prng :=
      match _uniqueCollectionNamespacePseudoRandom this with
      | Some prng => prng
      | None => PseudoRandom_new now
      end in
    _ ← invariant (10 + 26 * 2 =? Z.of_nat (String.length charsToChooseFrom))
          "(10U + 26U * 2) == charsToChooseFrom.size()";
    let numGenerationAttempts :=
      size_t (numPercentSign * Z.of_nat (String.length charsToChooseFrom) * 100) in
    '(found, prng') ← generate (Z.to_nat numGenerationAttempts) (_name this) model prng;
    let this' := mkDatabaseImpl (_name this) (Some prng') in
    match found with
    | Some collectionName => Ret (UniqueNamespace_OK (_name this) collectionName, this')
    | None => Ret (UniqueNamespace_NamespaceExists numGenerationAttempts, this')
    end.

(** **** Properties of the generated names *)

(** [name] is [model] with each percent sign replaced by one of the
    characters to choose from. *)
Fixpoint fills (model name : string) : Prop :=
  match model, name with
  | EmptyString, EmptyString => True
  | String c model', String d name' =>
      (if Ascii.eqb c "%" then contains charsToChooseFrom d else d = c) /\ fills model' name'
  | _, _ => False
  end.

Lemma get_contains (s : string) : forall (n : nat) (c : ascii),
  String.get n s = Some c -> contains s c.
Proof.
  unfold contains. induction s as [|a s IH]; intros n c; simpl; [discriminate |].
  destruct n as [|n]; [intros H; inversion H; auto | intros H; right; eapply IH; eauto].
Qed.

Lemma replacePercentSign_fills (c d : ascii) (prng prng' : PseudoRandom) :
  replacePercentSign c prng = Ret (d, prng') ->
  if Ascii.eqb c "%" then contains charsToChooseFrom d else d = c.
Proof.
  unfold replacePercentSign. destruct (Ascii.eqb c "%"); cbn [negb].
  - destruct (nextInt32 prng _) as [i g].
    destruct (0 <=? i); [| intros H; discriminate H].
    destruct (String.get (Z.to_nat i) charsToChooseFrom) as [r |] eqn:Hget;
      [| intros H; discriminate H].
    intros H; inversion H; subst. eapply get_contains, Hget.
  - intros H; inversion H; reflexivity.
Qed.

Lemma transform_fills (s : string) : forall (prng : PseudoRandom) s' prng',
  transform s prng = Ret (s', prng') -> fills s s'.
Proof.
  induction s as [|c s IH]; intros prng s' prng'; simpl.
  - intros H; inversion H; exact I.
  - intros H. apply bindR_Ret_inv in H as ([d g1] & Hc & H).
    apply bindR_Ret_inv in H as ([s2 g2] & Hs & H). inversion H; subst.
    split; [eapply replacePercentSign_fills, Hc | eapply IH, Hs].
Qed.

Lemma generate_sound (attempts : nat) (db model : string) :
  forall (prng : PseudoRandom) collectionName prng',
    generate attempts db model prng = Ret (Some collectionName, prng') ->
    fills model collectionName /\ getCollection db collectionName = false.
Proof.
  induction attempts as [|n IH]; intros prng collectionName prng'; simpl; [discriminate |].
  intros H. apply bindR_Ret_inv in H as ([s g] & Hs & H).
  destruct (getCollection db s) eqn:Hexists; simpl in H.
  - eapply IH, H.
  - inversion H; subst. split; [eapply transform_fills, Hs | exact Hexists].
Qed.

Lemma count_zero (s : string) (c : ascii) : count s c = 0 <-> ~ contains s c.
Proof.
  unfold contains. induction s as [|a s IH]; simpl; [tauto |].
  assert (Hpos : 0 <= count s c).
  { clear IH. induction s as [|b s IHs]; simpl; [lia |]. destruct (Ascii.eqb b c); lia. }
  destruct (Ascii.eqb_spec a c) as [-> | Hne].
  - split; [lia | intros H; exfalso; apply H; auto].
  - rewrite Z.add_0_l, IH. split; [intros H [? | ?]; [contradiction | auto] | tauto].
Qed.

Lemma percent_not_to_choose_from : ~ contains charsToChooseFrom "%".
Proof. apply count_zero. reflexivity. Qed.

Lemma fills_no_percent (model : string) : forall name : string,
  fills model name -> ~ contains name "%" /\ String.length name = String.length model.
Proof.
  unfold contains. induction model as [|c m IH]; intros [|d n]; simpl; try tauto.
  intros [Hd Hrest]. apply IH in Hrest as [Hno Hlen]. split; [| congruence].
  intros [-> | Hin]; [| contradiction].
  destruct (Ascii.eqb_spec c "%") as [-> | Hne].
  - apply percent_not_to_choose_from. exact Hd.
  - congruence.
Qed.

(** X23.  When [makeUniqueCollectionNamespace] returns a namespace, the
    namespace is in this database, no collection is registered under it,
    and its collection name is the model, truncated to the length that
    leaves room for the database name, with each percent sign replaced by
    a digit or a letter of the Latin alphabet: it has the length of the
    truncated model, agrees with it wherever the model has no percent sign,
    and has no percent sign left.  It returns [FailedToParse], and leaves
    the generator alone, exactly when the truncated model has no percent
    sign; and it gives up with [NamespaceExists] only after 6200 attempts
    for each percent sign of the truncated model. *)
Theorem unique_namespace_is_fresh_and_fills_the_model
    (isDbLockedForMode_X : bool) (now : Z) (this this' : DatabaseImpl)
    (collectionNameModel : string) (result : UniqueNamespace) :
  makeUniqueCollectionNamespace isDbLockedForMode_X now this collectionNameModel
  = Ret (result, this') ->
  let model := truncatedModel this collectionNameModel in
  match result with
  | UniqueNamespace_OK db collectionName =>
      db = _name this
      /\ getCollection db collectionName = false
      /\ fills model collectionName
      /\ ~ contains collectionName "%"
      /\ String.length collectionName = String.length model
  | UniqueNamespace_FailedToParse => ~ contains model "%" /\ this' = this
  | UniqueNamespace_NamespaceExists numGenerationAttempts =>
      contains model "%" /\ numGenerationAttempts = size_t (count model "%" * 6200)
  end.
Proof.
  intros H model. unfold makeUniqueCollectionNamespace in H. fold model in H.
  apply bindR_Ret_inv in H as (u & _ & H).
  destruct (Z.eqb_spec (count model "%") 0) as [Hzero | Hsome].
  - inversion H; subst. split; [apply count_zero; exact Hzero | reflexivity].
  - apply bindR_Ret_inv in H as (u2 & _ & H).
    apply bindR_Ret_inv in H as ([found g] & Hgen & H).
    destruct found as [collectionName |]; inversion H; subst.
    + apply generate_sound in Hgen as [Hfills Hfresh].
      destruct (fills_no_percent _ _ Hfills) as [Hno Hlen]. auto.
    + split.
      * destruct (in_dec ascii_dec "%"%char (list_ascii_of_string model)) as [Hc | Hc];
          [exact Hc |]. apply count_zero in Hc. contradiction.
      * f_equal. change (Z.of_nat (String.length charsToChooseFrom)) with 62. lia.
Qed.

End UniqueCollectionNamespace.

(** A generator that counts, and a catalog in which [test.tmp0] is the one
    collection registered. *)
Definition counting (prng max : Z) : Z * Z := ((prng mod max)%Z, (prng + 1)%Z).

Definition onlyTmp0 (db collectionName : string) : bool := String.eqb collectionName "tmp0".

Definition testDatabase : DatabaseImpl Z := mkDatabaseImpl Z "test" None.

Example unique_namespace_after_a_conflict :
  makeUniqueCollectionNamespace Z (fun seed => seed) counting 120 onlyTmp0 true 0 testDatabase
    "tmp%"
  = Ret (UniqueNamespace_OK "test" "tmp1", mkDatabaseImpl Z "test" (Some 2%Z)).
Proof. vm_compute. reflexivity. Qed.

Example unique_namespace_without_percent_sign :
  makeUniqueCollectionNamespace Z (fun seed => seed) counting 120 onlyTmp0 true 0 testDatabase
    "tmp"
  = Ret (UniqueNamespace_FailedToParse, testDatabase).
Proof. vm_compute. reflexivity. Qed.

Lemma unique_namespace_is_fresh_and_fills_the_model_witness :
  makeUniqueCollectionNamespace Z (fun seed => seed) counting 120 onlyTmp0 true 0 testDatabase
    "tmp%"
  = Ret (UniqueNamespace_OK "test" "tmp1", mkDatabaseImpl Z "test" (Some 2%Z))
  /\ "test" = _name Z testDatabase
  /\ onlyTmp0 "test" "tmp1" = false
  /\ fills (truncatedModel Z 120 testDatabase "tmp%") "tmp1"
  /\ ~ contains "tmp1" "%"
  /\ String.length "tmp1" = String.length (truncatedModel Z 120 testDatabase "tmp%").
Proof.
  split; [exact unique_namespace_after_a_conflict |].
  exact (unique_namespace_is_fresh_and_fills_the_model Z (fun seed => seed) counting 120
           onlyTmp0 true 0 testDatabase _ "tmp%" _ unique_namespace_after_a_conflict).
Defined.

End Catalog.

(** ** The data-handle sweeper (wiredtiger/src/conn/conn_sweep.c) *)

Module Sweep.

Local Open Scope Z_scope.

Definition EBUSY : Z := 16.

(** Modelled from the spec: the handle flags OPEN, EXCLUSIVE and DEAD of a
    sweepable handle, and the metadata marker; dhandle.h, which assigns the
    bits, lies outside the files embedded here. *)
Definition WT_DHANDLE_DEAD : Z := 0x01.
Definition WT_DHANDLE_EXCLUSIVE : Z := 0x08.
Definition WT_DHANDLE_IS_METADATA : Z := 0x10.
Definition WT_DHANDLE_OPEN : Z := 0x40.

Definition FLD_ISSET (field mask : Z) : bool := negb (Z.land field mask =? 0).

(** Modelled from the spec: the handle's read/write lock, as the sweeper sees
    it.  [LockedByOther] is any hold (shared or exclusive) by another
    thread; the sweeper itself only ever try-acquires the write lock. *)
Inductive WT_RWLOCK : Type :=
| Unlocked
| LockedByOther
| WriteLockedBySweep.

#[global] Instance WT_RWLOCK_eq_dec : EqDecision WT_RWLOCK.
Proof. solve_decision. Defined.

Inductive WT_DHANDLE_TYPE : Type :=
| WT_DHANDLE_TYPE_BTREE
| WT_DHANDLE_TYPE_TABLE.

#[global] Instance WT_DHANDLE_TYPE_eq_dec : EqDecision WT_DHANDLE_TYPE.
Proof. solve_decision. Defined.

Record WT_BTREE : Type := mkBtree {
  modified : bool;
  rec_max_txn : Z;
  rec_max_timestamp : Z }.

Record WT_DATA_HANDLE : Type := mkDhandle {
  name : string;
  rwlock : WT_RWLOCK;
  timeofdeath : Z;       (* uint64_t *)
  session_inuse : Z;     (* int32_t *)
  session_ref : Z;       (* uint32_t *)
  type : WT_DHANDLE_TYPE;
  handle : WT_BTREE;     (* read only when [type] is BTREE *)
  flags : Z }.

Definition F_ISSET (dhandle : WT_DATA_HANDLE) (mask : Z) : bool :=
  FLD_ISSET (flags dhandle) mask.

Definition WT_IS_METADATA (dhandle : WT_DATA_HANDLE) : bool :=
  F_ISSET dhandle WT_DHANDLE_IS_METADATA.

Definition WT_DHANDLE_CAN_DISCARD (dhandle : WT_DATA_HANDLE) : bool :=
  negb (F_ISSET dhandle (Z.lor WT_DHANDLE_EXCLUSIVE WT_DHANDLE_OPEN))
  && (session_inuse dhandle =? 0) && (session_ref dhandle =? 0).

Definition set_timeofdeath (t : Z) (h : WT_DATA_HANDLE) : WT_DATA_HANDLE :=
  mkDhandle (name h) (rwlock h) t (session_inuse h) (session_ref h) (type h) (handle h) (flags h).

Definition set_rwlock (l : WT_RWLOCK) (h : WT_DATA_HANDLE) : WT_DATA_HANDLE :=
  mkDhandle (name h) l (timeofdeath h) (session_inuse h) (session_ref h) (type h) (handle h)
    (flags h).

(** Modelled from the spec: [__wt_try_writelock] is the non-blocking
    try-acquire of the handle's write lock, failing with [EBUSY] on
    contention; [__wt_writeunlock] releases it. *)
Definition __wt_try_writelock (h : WT_DATA_HANDLE) : Z * WT_DATA_HANDLE :=
  match rwlock h with
  | Unlocked => (0, set_rwlock WriteLockedBySweep h)
  | _ => (EBUSY, h)
  end.

Definition __wt_writeunlock (h : WT_DATA_HANDLE) : WT_DATA_HANDLE := set_rwlock Unlocked h.

Inductive Stat : Type :=
| dh_sweep_tod | dh_sweep_close | dh_sweep_ref | dh_sweep_remove | dh_sweeps.

(** What a sweep did, in order: statistics increments, every call of
    [__wt_conn_dhandle_close] and of [__wt_conn_dhandle_discard_single] with
    the handle as it was at the call and the value returned. *)
Inductive Event : Type :=
| EvStat (s : Stat)
| EvClose (mark_dead : bool) (dhandle : WT_DATA_HANDLE) (ret : Z)
| EvDiscardSingle (dhandle : WT_DATA_HANDLE) (ret : Z).

Record WT_CONNECTION_IMPL : Type := mkConn {
  dhqh : list WT_DATA_HANDLE;
  open_btree_count : Z;
  sweep_idle_time : Z;
  sweep_interval : Z;
  sweep_handles_min : Z }.

Definition uint64_sub (a b : Z) : Z := (a - b) mod 2 ^ 64.

(** [WT_RET_BUSY_OK]: the error that ends the enclosing loop, if any. *)
Definition busy_ok (ret : Z) : bool := (ret =? 0) || (ret =? EBUSY).

Section Sweeper.

(** Functions of the storage engine the sweeper calls and whose code is
    elsewhere.  [__wt_conn_dhandle_close final mark_dead count h] returns the
    error code, the handle afterwards and the connection's open-btree count
    afterwards; [__wt_conn_dhandle_discard_single final mark_dead h] returns
    the error code, and on [0] the handle has left the list. *)
Variable __wt_txn_visible_all : Z -> Z -> bool.
Variable __wt_conn_dhandle_close : bool -> bool -> Z -> WT_DATA_HANDLE -> Z * WT_DATA_HANDLE * Z.
Variable __wt_conn_dhandle_discard_single : bool -> bool -> WT_DATA_HANDLE -> Z.

Definition __sweep_mark_one (now : Z) (dhandle : WT_DATA_HANDLE)
  : WT_DATA_HANDLE * list Event :=
  if WT_IS_METADATA dhandle then (dhandle, [])
  else
    let dhandle := if 1 <? session_inuse dhandle then set_timeofdeath 0 dhandle else dhandle in
    if F_ISSET dhandle WT_DHANDLE_EXCLUSIVE
       || (0 <? session_inuse dhandle)
       || negb (timeofdeath dhandle =? 0)
    then (dhandle, [])
    else (set_timeofdeath now dhandle, [EvStat dh_sweep_tod]).

Fixpoint __sweep_mark (now : Z) (q : list WT_DATA_HANDLE)
  : list WT_DATA_HANDLE * list Event :=
  match q with
  | [] => ([], [])
  | dhandle :: rest =>
      let '(dhandle', ev) := __sweep_mark_one now dhandle in
      let '(rest', evs) := __sweep_mark now rest in
      (dhandle' :: rest', ev ++ evs)
  end.

Definition __sweep_expire_one (count : Z) (dhandle : WT_DATA_HANDLE)
  : Z * WT_DATA_HANDLE * Z * list Event :=
  let btree := match type dhandle with
               | WT_DHANDLE_TYPE_BTREE => Some (handle dhandle)
               | _ => None
               end in
  let '(lret, locked) := __wt_try_writelock dhandle in
  if negb (lret =? 0) then (lret, dhandle, count, [])
  else
    let dirty := match btree with
                 | Some b => modified b
                             || negb (__wt_txn_visible_all (rec_max_txn b) (rec_max_timestamp b))
                 | None => false
                 end in
    if dirty then (0, __wt_writeunlock locked, count, [])
    else
      let '(ret, closed, count') := __wt_conn_dhandle_close false true count locked in
      (ret, __wt_writeunlock closed, count', [EvClose true locked ret]).

Definition expire_skips (c : WT_CONNECTION_IMPL) (now : Z) (dhandle : WT_DATA_HANDLE) : bool :=
  WT_IS_METADATA dhandle
  || negb (F_ISSET dhandle WT_DHANDLE_OPEN)
  || negb (session_inuse dhandle =? 0)
  || (timeofdeath dhandle =? 0)
  || (uint64_sub now (timeofdeath dhandle) <=? sweep_idle_time c).


(** The table lock taken around a TABLE handle, like the handle-list lock
    of the remove phase, is a blocking lock that the sweeper always obtains;
    it leaves no trace in the state. *)
Fixpoint __sweep_expire (c : WT_CONNECTION_IMPL) (now : Z) (count : Z)
  (q : list WT_DATA_HANDLE) : Z * list WT_DATA_HANDLE * Z * list Event :=
  match q with
  | [] => (0, [], count, [])
  | dhandle :: rest =>
      if count <? sweep_handles_min c then (0, q, count, [])
      else if expire_skips c now dhandle then
        let '(ret, rest', count', tr) := __sweep_expire c now count rest in
        (ret, dhandle :: rest', count', tr)
      else
        let '(ret, dhandle', count', tr) := __sweep_expire_one count dhandle in
        if busy_ok ret then
          let '(ret2, rest', count'', tr2) := __sweep_expire c now count' rest in
          (ret2, dhandle' :: rest', count'', tr ++ tr2)
        else (ret, dhandle' :: rest, count', tr)
  end.

Fixpoint __sweep_discard_trees (count : Z) (dead_handles : Z) (q : list WT_DATA_HANDLE)
  : Z * list WT_DATA_HANDLE * Z * Z * list Event :=
  match q with
  | [] => (0, [], count, dead_handles, [])
  | dhandle :: rest =>
      let dead_handles :=
        if WT_DHANDLE_CAN_DISCARD dhandle then dead_handles + 1 else dead_handles in
      if negb (F_ISSET dhandle WT_DHANDLE_OPEN) || negb (F_ISSET dhandle WT_DHANDLE_DEAD) then
        let '(ret, rest', count', dead', tr) := __sweep_discard_trees count dead_handles rest in
        (ret, dhandle :: rest', count', dead', tr)
      else
        let '(ret, dhandle', count') := __wt_conn_dhandle_close false false count dhandle in
        let dead_handles := if ret =? 0 then dead_handles + 1 else dead_handles in
        let tr := [EvClose false dhandle ret;
                   EvStat (if ret =? 0 then dh_sweep_close else dh_sweep_ref)] in
        if busy_ok ret then
          let '(ret2, rest', count'', dead', tr2) :=
            __sweep_discard_trees count' dead_handles rest in
          (ret2, dhandle' :: rest', count'', dead', tr ++ tr2)
        else (ret, dhandle' :: rest, count', dead_handles, tr)
  end.

(** Returns the error code and what is left of the handle: [None] once it
    has been discarded. *)
Definition __sweep_remove_one (dhandle : WT_DATA_HANDLE)
  : Z * option WT_DATA_HANDLE * list Event :=
  let '(lret, locked) := __wt_try_writelock dhandle in
  if negb (lret =? 0) then (lret, Some dhandle, [])
  else if negb (WT_DHANDLE_CAN_DISCARD locked) then (EBUSY, Some (__wt_writeunlock locked), [])
  else
    let ret := __wt_conn_dhandle_discard_single false true locked in
    if negb (ret =? 0) then (ret, Some (__wt_writeunlock locked), [EvDiscardSingle locked ret])
    else (ret, None, [EvDiscardSingle locked ret]).

Definition cons_opt {A : Type} (o : option A) (l : list A) : list A :=
  match o with Some a => a :: l | None => l end.

(** [ret] is the function's local error code, carried from one handle to the
    next. *)
Fixpoint __sweep_remove_handles_loop (ret : Z) (q : list WT_DATA_HANDLE)
  : Z * list WT_DATA_HANDLE * list Event :=
  match q with
  | [] => (if ret =? EBUSY then 0 else ret, [], [])
  | dhandle :: rest =>
      if WT_IS_METADATA dhandle || negb (WT_DHANDLE_CAN_DISCARD dhandle) then
        let '(ret', rest', tr) := __sweep_remove_handles_loop ret rest in
        (ret', dhandle :: rest', tr)
      else
        let '(ret1, remaining, tr) := __sweep_remove_one dhandle in
        let tr := tr ++ [EvStat (if ret1 =? 0 then dh_sweep_remove else dh_sweep_ref)] in
        if busy_ok ret1 then
          let '(ret2, rest', tr2) := __sweep_remove_handles_loop ret1 rest in
          (ret2, cons_opt remaining rest', tr ++ tr2)
        else (ret1, cons_opt remaining rest, tr)
  end.

Definition __sweep_remove_handles (q : list WT_DATA_HANDLE)
  : Z * list WT_DATA_HANDLE * list Event :=
  __sweep_remove_handles_loop 0 q.

Definition with_handles (c : WT_CONNECTION_IMPL) (q : list WT_DATA_HANDLE) (count : Z)
  : WT_CONNECTION_IMPL :=
  mkConn q count (sweep_idle_time c) (sweep_interval c) (sweep_handles_min c).

(** One sweep of the data handles by [__sweep_server]: the body of its loop
    from the point where the sweep interval has elapsed.  A non-zero error
    code is the one handed to [WT_PANIC_MSG]. *)
Definition __sweep_server_sweep (c : WT_CONNECTION_IMPL) (now : Z)
  : Z * WT_CONNECTION_IMPL * list Event :=
  let tr0 := [EvStat dh_sweeps] in
  let '(q1, tr1) :=
    if negb (sweep_idle_time c =? 0) then __sweep_mark now (dhqh c) else (dhqh c, []) in
  let '(ret2, q2, count2, tr2) :=
    if negb (sweep_idle_time c =? 0) && (sweep_handles_min c <=? open_btree_count c)
    then __sweep_expire c now (open_btree_count c) q1
    else (0, q1, open_btree_count c, []) in
  if negb (ret2 =? 0) then (ret2, with_handles c q2 count2, tr0 ++ tr1 ++ tr2)
  else
    let '(ret3, q3, count3, dead_handles, tr3) := __sweep_discard_trees count2 0 q2 in
    if negb (ret3 =? 0) then (ret3, with_handles c q3 count3, tr0 ++ tr1 ++ tr2 ++ tr3)
    else if 0 <? dead_handles then
      let '(ret4, q4, tr4) := __sweep_remove_handles q3 in
      (ret4, with_handles c q4 count3, tr0 ++ tr1 ++ tr2 ++ tr3 ++ tr4)
    else (0, with_handles c q3 count3, tr0 ++ tr1 ++ tr2 ++ tr3).


(** *** What the sweeper does to a handle, and when *)









Lemma __wt_try_writelock_ok (h locked : WT_DATA_HANDLE) :
  __wt_try_writelock h = (0, locked) ->
  rwlock h = Unlocked /\ locked = set_rwlock WriteLockedBySweep h.
Proof.
  unfold __wt_try_writelock. destruct (rwlock h); intros H; inversion H; auto.
Qed.















(** *** What a sweep reports, and what it leaves alone *)

Definition event_ret (ev : Event) : option Z :=
  match ev with
  | EvStat _ => None
  | EvClose _ _ ret => Some ret
  | EvDiscardSingle _ ret => Some ret
  end.

(** Some call recorded in the trace returned [ret]. *)
Definition failed_call (ret : Z) (tr : list Event) : Prop :=
  exists ev, In ev tr /\ event_ret ev = Some ret.

(** The error code of a phase: success, or an error other than [EBUSY] that
    a close or a discard of the phase returned. *)
Definition phase_error (ret : Z) (tr : list Event) : Prop :=
  ret = 0 \/ (busy_ok ret = false /\ failed_call ret tr).

(** The close that marks a handle dead. *)
Definition marks_dead (ev : Event) : bool :=
  match ev with
  | EvClose true _ _ => true
  | _ => false
  end.

Definition stamps (ev : Event) : bool :=
  match ev with
  | EvStat dh_sweep_tod => true
  | _ => false
  end.

Definition discards (ev : Event) : bool :=
  match ev with
  | EvDiscardSingle _ _ => true
  | _ => false
  end.

Lemma failed_call_app (ret : Z) (tr1 tr2 : list Event) :
  failed_call ret tr1 \/ failed_call ret tr2 -> failed_call ret (tr1 ++ tr2).
Proof.
  intros [(ev & Hin & Hev) | (ev & Hin & Hev)]; exists ev; split; auto;
    apply in_or_app; auto.
Qed.

Lemma phase_error_app (ret : Z) (tr1 tr2 : list Event) :
  phase_error ret tr1 \/ phase_error ret tr2 -> phase_error ret (tr1 ++ tr2).
Proof.
  unfold phase_error. intros [[H | [Hb Hf]] | [H | [Hb Hf]]]; auto;
    right; split; auto using failed_call_app.
Qed.

Lemma busy_ok_EBUSY : busy_ok EBUSY = true.
Proof. reflexivity. Qed.

Lemma __wt_try_writelock_ret (h : WT_DATA_HANDLE) :
  busy_ok (fst (__wt_try_writelock h)) = true.
Proof. unfold __wt_try_writelock. destruct (rwlock h); reflexivity. Qed.

Lemma __sweep_expire_one_ret (count : Z) (h h' : WT_DATA_HANDLE) ret count' tr :
  __sweep_expire_one count h = (ret, h', count', tr) ->
  busy_ok ret = true \/ failed_call ret tr.
Proof.
  unfold __sweep_expire_one.
  pose proof (__wt_try_writelock_ret h) as Hlock.
  destruct (__wt_try_writelock h) as [lret locked]. simpl in Hlock.
  destruct (negb (lret =? 0)).
  { intros H; inversion H; subst. auto. }
  match goal with |- context [if ?d then _ else _] => destruct d end.
  { intros H; inversion H; subst. auto. }
  destruct (__wt_conn_dhandle_close false true count locked) as [[r closed] c2].
  intros H; inversion H; subst. right.
  exists (EvClose true locked ret). split; [left; reflexivity | reflexivity].
Qed.

Lemma __sweep_expire_ret c now (q : list WT_DATA_HANDLE) :
  forall count ret q' count' tr,
  __sweep_expire c now count q = (ret, q', count', tr) -> phase_error ret tr.
Proof.
  induction q as [|h q IH]; intros count ret q' count' tr; simpl.
  { intros H; inversion H; subst. left. reflexivity. }
  destruct (count <? sweep_handles_min c).
  { intros H; inversion H; subst. left. reflexivity. }
  destruct (expire_skips c now h).
  - destruct (__sweep_expire c now count q) as [[[r1 q1] c1] t1] eqn:Hrec.
    intros H; inversion H; subst. eapply IH, Hrec.
  - destruct (__sweep_expire_one count h) as [[[r1 h1] c1] t1] eqn:Hone.
    apply __sweep_expire_one_ret in Hone.
    destruct (busy_ok r1) eqn:Hbusy.
    + destruct (__sweep_expire c now c1 q) as [[[r2 q2] c2] t2] eqn:Hrec.
      intros H; inversion H; subst. apply phase_error_app. right. eapply IH, Hrec.
    + intros H; inversion H; subst. right.
      destruct Hone as [Hok | Hfail]; [congruence | auto].
Qed.

Lemma __sweep_discard_trees_ret (q : list WT_DATA_HANDLE) :
  forall count dead ret q' count' dead' tr,
  __sweep_discard_trees count dead q = (ret, q', count', dead', tr) -> phase_error ret tr.
Proof.
  induction q as [|h q IH]; intros count dead ret q' count' dead' tr; simpl.
  { intros H; inversion H; subst. left. reflexivity. }
  destruct (negb (F_ISSET h WT_DHANDLE_OPEN) || negb (F_ISSET h WT_DHANDLE_DEAD)).
  - destruct (__sweep_discard_trees count _ q) as [[[[r1 q1] c1] d1] t1] eqn:Hrec.
    intros H; inversion H; subst. eapply IH, Hrec.
  - destruct (__wt_conn_dhandle_close false false count h) as [[r1 h1] c1].
    destruct (busy_ok r1) eqn:Hbusy.
    + destruct (__sweep_discard_trees c1 _ q) as [[[[r2 q2] c2] d2] t2] eqn:Hrec.
      intros H; inversion H; subst.
      apply (phase_error_app _ [_; _]). right. eapply IH, Hrec.
    + intros H; inversion H; subst. right. split; [exact Hbusy |].
      exists (EvClose false h ret). split; [left; reflexivity | reflexivity].
Qed.

Lemma __sweep_remove_one_ret (h : WT_DATA_HANDLE) ret remaining tr :
  __sweep_remove_one h = (ret, remaining, tr) ->
  busy_ok ret = true \/ failed_call ret tr.
Proof.
  unfold __sweep_remove_one.
  pose proof (__wt_try_writelock_ret h) as Hlock.
  destruct (__wt_try_writelock h) as [lret locked]. simpl in Hlock.
  destruct (negb (lret =? 0)).
  { intros H; inversion H; subst. auto. }
  destruct (negb (WT_DHANDLE_CAN_DISCARD locked)).
  { intros H; inversion H; subst. auto. }
  destruct (negb (__wt_conn_dhandle_discard_single false true locked =? 0));
    intros H; inversion H; subst; right;
    exists (EvDiscardSingle locked (__wt_conn_dhandle_discard_single false true locked));
    (split; [left; reflexivity | reflexivity]).
Qed.

Lemma __sweep_remove_handles_loop_ret (q : list WT_DATA_HANDLE) :
  forall ret0 ret q' tr,
  busy_ok ret0 = true ->
  __sweep_remove_handles_loop ret0 q = (ret, q', tr) -> phase_error ret tr.
Proof.
  induction q as [|h q IH]; intros ret0 ret q' tr Hret0; simpl.
  { intros H; inversion H; subst. left.
    unfold busy_ok in Hret0. apply orb_true_iff in Hret0 as [H0 | H0].
    - apply Z.eqb_eq in H0. subst. reflexivity.
    - rewrite H0. reflexivity. }
  destruct (WT_IS_METADATA h || negb (WT_DHANDLE_CAN_DISCARD h)).
  - destruct (__sweep_remove_handles_loop ret0 q) as [[r1 q1] t1] eqn:Hrec.
    intros H; inversion H; subst. eapply IH; eauto.
  - destruct (__sweep_remove_one h) as [[r1 rem] t1] eqn:Hone.
    apply __sweep_remove_one_ret in Hone.
    destruct (busy_ok r1) eqn:Hbusy.
    + destruct (__sweep_remove_handles_loop r1 q) as [[r2 q2] t2] eqn:Hrec.
      intros H; inversion H; subst. apply phase_error_app. right. eapply IH; eauto.
    + intros H; inversion H; subst. right. split; [exact Hbusy |].
      destruct Hone as [Hok | Hfail]; [congruence |].
      apply failed_call_app. auto.
Qed.

(** X1.  The error code with which a sweep ends is never [EBUSY]: a busy
    handle is skipped and retried by a later sweep.  When a sweep does end
    with an error, that error is the value some call of
    [__wt_conn_dhandle_close] or [__wt_conn_dhandle_discard_single] made
    during the sweep returned. *)
Theorem sweep_fails_only_on_a_failed_close_or_discard (c : WT_CONNECTION_IMPL) (now : Z) :
  let '(ret, _, tr) := __sweep_server_sweep c now in
  ret <> EBUSY /\ (ret <> 0 -> failed_call ret tr).
Proof.
  assert (Hphase : forall ret tr, phase_error ret tr ->
                     ret <> EBUSY /\ (ret <> 0 -> failed_call ret tr)).
  { intros ret tr [-> | [Hb Hf]]; [split; [discriminate | congruence] |].
    split; [| auto]. intros ->. discriminate. }
  unfold __sweep_server_sweep.
  destruct (if negb (sweep_idle_time c =? 0) then __sweep_mark now (dhqh c) else (dhqh c, []))
    as [q1 tr1].
  assert (Hexp : forall ret2 q2 count2 tr2,
             (if negb (sweep_idle_time c =? 0) && (sweep_handles_min c <=? open_btree_count c)
              then __sweep_expire c now (open_btree_count c) q1
              else (0, q1, open_btree_count c, [])) = (ret2, q2, count2, tr2) ->
             phase_error ret2 tr2).
  { intros ret2 q2 count2 tr2.
    destruct (negb (sweep_idle_time c =? 0) && (sweep_handles_min c <=? open_btree_count c)).
    - apply __sweep_expire_ret.
    - intros H; inversion H; subst. left. reflexivity. }
  destruct (if negb (sweep_idle_time c =? 0) && (sweep_handles_min c <=? open_btree_count c)
            then _ else _) as [[[ret2 q2] count2] tr2].
  specialize (Hexp _ _ _ _ eq_refl).
  destruct (negb (ret2 =? 0)).
  { apply Hphase. apply (phase_error_app _ [_]). right. apply phase_error_app. auto. }
  destruct (__sweep_discard_trees count2 0 q2) as [[[[ret3 q3] count3] dead] tr3] eqn:Hdis.
  apply __sweep_discard_trees_ret in Hdis.
  destruct (negb (ret3 =? 0)).
  { apply Hphase. apply (phase_error_app _ [_]). right. apply phase_error_app. right.
    apply phase_error_app. auto. }
  destruct (0 <? dead).
  - destruct (__sweep_remove_handles q3) as [[ret4 q4] tr4] eqn:Hrem.
    apply __sweep_remove_handles_loop_ret in Hrem; [| reflexivity].
    apply Hphase. apply (phase_error_app _ [_]). right. apply phase_error_app. right.
    apply phase_error_app. right. apply phase_error_app. auto.
  - split; [discriminate | congruence].
Qed.

(** The events of each phase. *)
Definition mark_phase_event (ev : Event) : Prop := ev = EvStat dh_sweep_tod.

Definition expire_phase_event (c : WT_CONNECTION_IMPL) (now : Z) (ev : Event) : Prop :=
  match ev with
  | EvClose true h _ => expire_skips c now h = false
  | _ => False
  end.

Definition discard_phase_event (ev : Event) : Prop :=
  marks_dead ev = false /\ stamps ev = false /\ discards ev = false.

Definition remove_phase_event (ev : Event) : Prop :=
  match ev with
  | EvStat s => s <> dh_sweep_tod
  | EvClose _ _ _ => False
  | EvDiscardSingle h _ => WT_IS_METADATA h = false
  end.

Lemma __sweep_mark_phase (now : Z) (q : list WT_DATA_HANDLE) :
  Forall mark_phase_event (snd (__sweep_mark now q)).
Proof.
  induction q as [|h q IH]; [constructor |]. simpl.
  assert (Hone : Forall mark_phase_event (snd (__sweep_mark_one now h))).
  { unfold __sweep_mark_one. destruct (WT_IS_METADATA h); [constructor |].
    match goal with |- context [if ?c then (_, []) else _] => destruct c end;
      repeat constructor. }
  destruct (__sweep_mark_one now h) as [h' ev].
  destruct (__sweep_mark now q) as [q' evs]. simpl in *.
  apply Forall_app; auto.
Qed.

Lemma __sweep_expire_one_phase c now (count : Z) (h h' : WT_DATA_HANDLE) ret count' tr :
  expire_skips c now h = false ->
  __sweep_expire_one count h = (ret, h', count', tr) ->
  Forall (expire_phase_event c now) tr.
Proof.
  intros Hskip. unfold __sweep_expire_one.
  destruct (__wt_try_writelock h) as [lret locked] eqn:Hlock.
  destruct (Z.eqb_spec lret 0) as [-> | Hne]; simpl.
  2: { intros H; inversion H; subst. constructor. }
  apply __wt_try_writelock_ok in Hlock as [_ ->].
  match goal with |- context [if ?d then _ else _] => destruct d end.
  { intros H; inversion H; subst. constructor. }
  destruct (__wt_conn_dhandle_close false true count _) as [[r closed] c2].
  intros H; inversion H; subst. constructor; [exact Hskip | constructor].
Qed.

Lemma __sweep_expire_phase c now (q : list WT_DATA_HANDLE) :
  forall count ret q' count' tr,
  __sweep_expire c now count q = (ret, q', count', tr) ->
  Forall (expire_phase_event c now) tr.
Proof.
  induction q as [|h q IH]; intros count ret q' count' tr; simpl.
  { intros H; inversion H; subst. constructor. }
  destruct (count <? sweep_handles_min c).
  { intros H; inversion H; subst. constructor. }
  destruct (expire_skips c now h) eqn:Hskip.
  - destruct (__sweep_expire c now count q) as [[[r1 q1] c1] t1] eqn:Hrec.
    intros H; inversion H; subst. eapply IH, Hrec.
  - destruct (__sweep_expire_one count h) as [[[r1 h1] c1] t1] eqn:Hone.
    pose proof (__sweep_expire_one_phase _ _ _ _ _ _ _ _ Hskip Hone) as Hev.
    destruct (busy_ok r1).
    + destruct (__sweep_expire c now c1 q) as [[[r2 q2] c2] t2] eqn:Hrec.
      intros H; inversion H; subst. apply Forall_app. split; [exact Hev | eapply IH, Hrec].
    + intros H; inversion H; subst. exact Hev.
Qed.

Lemma __sweep_discard_trees_phase (q : list WT_DATA_HANDLE) :
  forall count dead ret q' count' dead' tr,
  __sweep_discard_trees count dead q = (ret, q', count', dead', tr) ->
  Forall discard_phase_event tr.
Proof.
  assert (Hstat : forall r : Z,
             discard_phase_event (EvStat (if r =? 0 then dh_sweep_close else dh_sweep_ref))).
  { intros r. destruct (r =? 0); repeat split. }
  induction q as [|h q IH]; intros count dead ret q' count' dead' tr; simpl.
  { intros H; inversion H; subst. constructor. }
  destruct (negb (F_ISSET h WT_DHANDLE_OPEN) || negb (F_ISSET h WT_DHANDLE_DEAD)).
  - destruct (__sweep_discard_trees count _ q) as [[[[r1 q1] c1] d1] t1] eqn:Hrec.
    intros H; inversion H; subst. eapply IH, Hrec.
  - destruct (__wt_conn_dhandle_close false false count h) as [[r1 h1] c1].
    destruct (busy_ok r1).
    + destruct (__sweep_discard_trees c1 _ q) as [[[[r2 q2] c2] d2] t2] eqn:Hrec.
      intros H; inversion H; subst.
      constructor; [repeat split |]. constructor; [apply Hstat | eapply IH, Hrec].
    + intros H; inversion H; subst.
      constructor; [repeat split |]. constructor; [apply Hstat | constructor].
Qed.

Lemma __sweep_remove_one_phase (h : WT_DATA_HANDLE) ret remaining tr :
  WT_IS_METADATA h = false ->
  __sweep_remove_one h = (ret, remaining, tr) ->
  Forall remove_phase_event tr.
Proof.
  intros Hmeta. unfold __sweep_remove_one.
  destruct (__wt_try_writelock h) as [lret locked] eqn:Hlock.
  destruct (Z.eqb_spec lret 0) as [-> | Hne]; simpl.
  2: { intros H; inversion H; subst. constructor. }
  apply __wt_try_writelock_ok in Hlock as [_ ->].
  destruct (negb (WT_DHANDLE_CAN_DISCARD _)).
  { intros H; inversion H; subst. constructor. }
  destruct (negb (_ =? 0)); intros H; inversion H; subst;
    (constructor; [exact Hmeta | constructor]).
Qed.

Lemma __sweep_remove_handles_loop_phase (q : list WT_DATA_HANDLE) :
  forall ret0 ret q' tr,
  __sweep_remove_handles_loop ret0 q = (ret, q', tr) ->
  Forall remove_phase_event tr.
Proof.
  assert (Hstat : forall r : Z,
             remove_phase_event (EvStat (if r =? 0 then dh_sweep_remove else dh_sweep_ref))).
  { intros r. destruct (r =? 0); simpl; discriminate. }
  induction q as [|h q IH]; intros ret0 ret q' tr; simpl.
  { intros H; inversion H; subst. constructor. }
  destruct (WT_IS_METADATA h || negb (WT_DHANDLE_CAN_DISCARD h)) eqn:Hskip.
  - destruct (__sweep_remove_handles_loop ret0 q) as [[r1 q1] t1] eqn:Hrec.
    intros H; inversion H; subst. eapply IH, Hrec.
  - apply orb_false_iff in Hskip as [Hmeta _].
    destruct (__sweep_remove_one h) as [[r1 rem] t1] eqn:Hone.
    pose proof (__sweep_remove_one_phase _ _ _ _ Hmeta Hone) as Hev.
    assert (Hev' : Forall remove_phase_event
                     (t1 ++ [EvStat (if r1 =? 0 then dh_sweep_remove else dh_sweep_ref)])).
    { apply Forall_app. split; [exact Hev |]. constructor; [apply Hstat | constructor]. }
    destruct (busy_ok r1).
    + destruct (__sweep_remove_handles_loop r1 q) as [[r2 q2] t2] eqn:Hrec.
      intros H; inversion H; subst. apply Forall_app. split; [exact Hev' | eapply IH, Hrec].
    + intros H; inversion H; subst. exact Hev'.
Qed.

(** The trace of a sweep, phase by phase; the mark phase runs only with a
    non-zero idle time, the expire phase only when, besides, the connection
    has at least the configured minimum of open trees. *)
Lemma __sweep_server_sweep_phases (c : WT_CONNECTION_IMPL) (now : Z) ret c' tr :
  __sweep_server_sweep c now = (ret, c', tr) ->
  exists tr1 tr2 tr3 tr4,
    tr = EvStat dh_sweeps :: tr1 ++ tr2 ++ tr3 ++ tr4
    /\ Forall mark_phase_event tr1
    /\ (tr1 <> [] -> sweep_idle_time c <> 0)
    /\ Forall (expire_phase_event c now) tr2
    /\ (tr2 <> [] -> sweep_idle_time c <> 0 /\ sweep_handles_min c <= open_btree_count c)
    /\ Forall discard_phase_event tr3
    /\ Forall remove_phase_event tr4.
Proof.
  unfold __sweep_server_sweep.
  assert (Hmark : forall q1 tr1,
             (if negb (sweep_idle_time c =? 0) then __sweep_mark now (dhqh c)
              else (dhqh c, [])) = (q1, tr1) ->
             Forall mark_phase_event tr1 /\ (tr1 <> [] -> sweep_idle_time c <> 0)).
  { intros q1 tr1. destruct (Z.eqb_spec (sweep_idle_time c) 0) as [E | E]; simpl.
    - intros H; inversion H; subst. split; [constructor | congruence].
    - intros H. pose proof (__sweep_mark_phase now (dhqh c)) as Hp.
      rewrite H in Hp. auto. }
  destruct (if negb (sweep_idle_time c =? 0) then __sweep_mark now (dhqh c) else (dhqh c, []))
    as [q1 tr1].
  destruct (Hmark _ _ eq_refl) as [Hm1 Hm2]. clear Hmark.
  assert (Hexp : forall ret2 q2 count2 tr2,
             (if negb (sweep_idle_time c =? 0) && (sweep_handles_min c <=? open_btree_count c)
              then __sweep_expire c now (open_btree_count c) q1
              else (0, q1, open_btree_count c, [])) = (ret2, q2, count2, tr2) ->
             Forall (expire_phase_event c now) tr2
             /\ (tr2 <> [] ->
                 sweep_idle_time c <> 0 /\ sweep_handles_min c <= open_btree_count c)).
  { intros ret2 q2 count2 tr2.
    destruct (Z.eqb_spec (sweep_idle_time c) 0) as [E | E]; simpl.
    { intros H; inversion H; subst. split; [constructor | congruence]. }
    destruct (Z.leb_spec (sweep_handles_min c) (open_btree_count c)) as [L | L].
    - intros H. split; [eapply __sweep_expire_phase, H | auto].
    - intros H; inversion H; subst. split; [constructor | congruence]. }
  destruct (if negb (sweep_idle_time c =? 0) && (sweep_handles_min c <=? open_btree_count c)
            then _ else _) as [[[ret2 q2] count2] tr2].
  destruct (Hexp _ _ _ _ eq_refl) as [He1 He2]. clear Hexp.
  destruct (negb (ret2 =? 0)).
  { intros H; inversion H; subst. exists tr1, tr2, [], [].
    rewrite !app_nil_r. repeat split; auto; apply He2; assumption. }
  destruct (__sweep_discard_trees count2 0 q2) as [[[[ret3 q3] count3] dead] tr3] eqn:Hdis.
  apply __sweep_discard_trees_phase in Hdis.
  destruct (negb (ret3 =? 0)).
  { intros H; inversion H; subst. exists tr1, tr2, tr3, [].
    rewrite !app_nil_r. repeat split; auto; apply He2; assumption. }
  destruct (0 <? dead).
  - destruct (__sweep_remove_handles q3) as [[ret4 q4] tr4] eqn:Hrem.
    apply __sweep_remove_handles_loop_phase in Hrem.
    intros H; inversion H; subst. exists tr1, tr2, tr3, tr4.
    repeat split; auto; apply He2; assumption.
  - intros H; inversion H; subst. exists tr1, tr2, tr3, [].
    rewrite !app_nil_r. repeat split; auto; apply He2; assumption.
Qed.

(** The connection's count of open trees once the closes of a trace have
    been made, from [count] on: each close leaves the count the storage
    engine answers. *)
Fixpoint count_after (count : Z) (tr : list Event) : Z :=
  match tr with
  | [] => count
  | EvClose mark_dead dhandle _ :: tr' =>
      count_after (snd (__wt_conn_dhandle_close false mark_dead count dhandle)) tr'
  | _ :: tr' => count_after count tr'
  end.

(** Every close of [tr] that marks a handle dead found the count of open
    trees, as the closes before it had left it, at or above the minimum. *)
Definition closes_above_minimum (c : WT_CONNECTION_IMPL) (count : Z) (tr : list Event) : Prop :=
  forall pre h r post,
    tr = pre ++ EvClose true h r :: post -> sweep_handles_min c <= count_after count pre.

Lemma count_after_app (count : Z) (tr1 tr2 : list Event) :
  count_after count (tr1 ++ tr2) = count_after (count_after count tr1) tr2.
Proof.
  revert count. induction tr1 as [|ev tr1 IH]; intros count; [reflexivity |].
  destruct ev; simpl; apply IH.
Qed.

Lemma count_after_mark_phase (count : Z) (tr : list Event) :
  Forall mark_phase_event tr -> count_after count tr = count.
Proof.
  induction 1 as [|ev tr Hev _ IH]; [reflexivity |]. rewrite Hev. exact IH.
Qed.

Lemma split_after {A : Type} (l1 l2 pre post : list A) (x : A) :
  Forall (fun y => y <> x) l1 -> l1 ++ l2 = pre ++ x :: post ->
  exists pre2, pre = l1 ++ pre2 /\ l2 = pre2 ++ x :: post.
Proof.
  intros Hl1. revert pre. induction Hl1 as [|a l1 Ha _ IH]; intros pre H.
  - exists pre. auto.
  - destruct pre as [|b pre]; simpl in H; inversion H; subst; [contradiction |].
    destruct (IH pre) as (pre2 & -> & ->); [assumption |]. exists pre2. auto.
Qed.

Lemma split_before {A : Type} (l1 l2 pre post : list A) (x : A) :
  Forall (fun y => y <> x) l2 -> l1 ++ l2 = pre ++ x :: post ->
  exists post1, l1 = pre ++ x :: post1.
Proof.
  intros Hl2. revert pre. induction l1 as [|a l1 IH]; intros pre H.
  - simpl in H. subst l2. rewrite List.Forall_forall in Hl2.
    exfalso. apply (Hl2 x); [apply in_elt | reflexivity].
  - destruct pre as [|b pre]; simpl in H; inversion H; subst.
    + exists l1. reflexivity.
    + destruct (IH pre) as (post1 & ->); [assumption |]. exists post1. reflexivity.
Qed.

Lemma __sweep_expire_one_count (count : Z) (h h' : WT_DATA_HANDLE) ret count' tr :
  __sweep_expire_one count h = (ret, h', count', tr) ->
  count_after count tr = count'
  /\ (tr = [] \/ exists locked, tr = [EvClose true locked ret]).
Proof.
  unfold __sweep_expire_one.
  destruct (__wt_try_writelock h) as [lret locked].
  destruct (negb (lret =? 0)).
  { intros H; inversion H; subst. auto. }
  match goal with |- context [if ?d then _ else _] => destruct d end.
  { intros H; inversion H; subst. auto. }
  destruct (__wt_conn_dhandle_close false true count locked) as [[r closed] c2] eqn:Hclose.
  intros H; inversion H; subst. simpl. rewrite Hclose. eauto.
Qed.

Lemma __sweep_expire_counts c now (q : list WT_DATA_HANDLE) :
  forall count ret q' count' tr,
  __sweep_expire c now count q = (ret, q', count', tr) -> closes_above_minimum c count tr.
Proof.
  unfold closes_above_minimum.
  induction q as [|h q IH]; intros count ret q' count' tr; simpl.
  { intros H pre h0 r post E; inversion H; subst. destruct pre; discriminate. }
  destruct (Z.ltb_spec count (sweep_handles_min c)) as [Hlow | Hmin].
  { intros H pre h0 r post E; inversion H; subst. destruct pre; discriminate. }
  destruct (expire_skips c now h).
  - destruct (__sweep_expire c now count q) as [[[r1 q1] c1] t1] eqn:Hrec.
    intros H; inversion H; subst. eapply IH, Hrec.
  - destruct (__sweep_expire_one count h) as [[[r1 h1] c1] t1] eqn:Hone.
    apply __sweep_expire_one_count in Hone as [Hcount Hshape].
    assert (Hhere : forall t2,
               closes_above_minimum c c1 t2 -> closes_above_minimum c count (t1 ++ t2)).
    { intros t2 Ht2 pre h0 r post E. destruct Hshape as [-> | (locked & ->)].
      - simpl in Hcount. subst c1. eapply Ht2, E.
      - destruct pre as [|ev pre]; simpl in E; inversion E; subst; [simpl; lia |].
        change (EvClose true locked r1 :: pre) with ([EvClose true locked r1] ++ pre).
        rewrite count_after_app. eapply Ht2. reflexivity. }
    destruct (busy_ok r1).
    + destruct (__sweep_expire c now c1 q) as [[[r2 q2] c2] t2] eqn:Hrec.
      intros H; inversion H; subst. apply Hhere. unfold closes_above_minimum. eapply IH, Hrec.
    + intros H; inversion H; subst. rewrite <- (app_nil_r tr). apply Hhere.
      intros pre h0 r post E. destruct pre; discriminate.
Qed.

(** The closes of the expire phase within the trace of a sweep. *)
Lemma __sweep_server_sweep_expire (c : WT_CONNECTION_IMPL) (now : Z) ret c' tr :
  __sweep_server_sweep c now = (ret, c', tr) ->
  exists tr1 tr2 tr34,
    tr = EvStat dh_sweeps :: tr1 ++ tr2 ++ tr34
    /\ Forall mark_phase_event tr1
    /\ closes_above_minimum c (open_btree_count c) tr2
    /\ Forall (fun ev => marks_dead ev = false) tr34.
Proof.
  assert (Hnone : forall count, closes_above_minimum c count []).
  { intros count pre h r post E. destruct pre; discriminate. }
  assert (Hremove : forall tr4, Forall remove_phase_event tr4 ->
                                Forall (fun ev => marks_dead ev = false) tr4).
  { intros tr4 H4. eapply Forall_impl; [exact H4 |].
    intros [s | m h r | h r] Hev; simpl in *; [reflexivity | contradiction | reflexivity]. }
  assert (Hdiscard : forall tr3, Forall discard_phase_event tr3 ->
                                 Forall (fun ev => marks_dead ev = false) tr3).
  { intros tr3 H3. eapply Forall_impl; [exact H3 |]. intros ev [Hev _]. exact Hev. }
  unfold __sweep_server_sweep.
  assert (Hmark : forall q1 tr1,
             (if negb (sweep_idle_time c =? 0) then __sweep_mark now (dhqh c)
              else (dhqh c, [])) = (q1, tr1) -> Forall mark_phase_event tr1).
  { intros q1 tr1. destruct (negb (sweep_idle_time c =? 0)).
    - intros H. pose proof (__sweep_mark_phase now (dhqh c)) as Hp. rewrite H in Hp. exact Hp.
    - intros H; inversion H; subst. constructor. }
  destruct (if negb (sweep_idle_time c =? 0) then __sweep_mark now (dhqh c) else (dhqh c, []))
    as [q1 tr1].
  specialize (Hmark _ _ eq_refl).
  assert (Hexp : forall ret2 q2 count2 tr2,
             (if negb (sweep_idle_time c =? 0) && (sweep_handles_min c <=? open_btree_count c)
              then __sweep_expire c now (open_btree_count c) q1
              else (0, q1, open_btree_count c, [])) = (ret2, q2, count2, tr2) ->
             closes_above_minimum c (open_btree_count c) tr2).
  { intros ret2 q2 count2 tr2.
    destruct (negb (sweep_idle_time c =? 0) && (sweep_handles_min c <=? open_btree_count c)).
    - apply __sweep_expire_counts.
    - intros H; inversion H; subst. apply Hnone. }
  destruct (if negb (sweep_idle_time c =? 0) && (sweep_handles_min c <=? open_btree_count c)
            then _ else _) as [[[ret2 q2] count2] tr2].
  specialize (Hexp _ _ _ _ eq_refl).
  destruct (negb (ret2 =? 0)).
  { intros H; inversion H; subst. exists tr1, tr2, []. rewrite app_nil_r.
    repeat split; auto. }
  destruct (__sweep_discard_trees count2 0 q2) as [[[[ret3 q3] count3] dead] tr3] eqn:Hdis.
  apply __sweep_discard_trees_phase, Hdiscard in Hdis.
  destruct (negb (ret3 =? 0)).
  { intros H; inversion H; subst. exists tr1, tr2, tr3. repeat split; auto. }
  destruct (0 <? dead).
  - destruct (__sweep_remove_handles q3) as [[ret4 q4] tr4] eqn:Hrem.
    apply __sweep_remove_handles_loop_phase, Hremove in Hrem.
    intros H; inversion H; subst. exists tr1, tr2, (tr3 ++ tr4).
    repeat split; auto. apply Forall_app. auto.
  - intros H; inversion H; subst. exists tr1, tr2, tr3. repeat split; auto.
Qed.

(** X2.  A sweep marks a handle dead (the close of the expire phase) only
    when the connection has a non-zero idle time and at least the configured
    minimum of open trees, both when the sweep starts and at the very moment
    of the close, the closes made earlier in the sweep being counted; and
    the handle is not the metadata handle, bears a time of death, and has
    been idle for strictly longer than the configured idle time. *)
Theorem sweep_marks_dead_only_handles_idle_too_long (c : WT_CONNECTION_IMPL) (now : Z)
    ret c' (pre post : list Event) (h : WT_DATA_HANDLE) (r : Z) :
  __sweep_server_sweep c now = (ret, c', pre ++ EvClose true h r :: post) ->
  sweep_idle_time c <> 0
  /\ sweep_handles_min c <= open_btree_count c
  /\ sweep_handles_min c <= count_after (open_btree_count c) pre
  /\ WT_IS_METADATA h = false
  /\ timeofdeath h <> 0
  /\ sweep_idle_time c < uint64_sub now (timeofdeath h).
Proof.
  intros Hrun.
  assert (Hcount : sweep_handles_min c <= count_after (open_btree_count c) pre).
  { destruct (__sweep_server_sweep_expire _ _ _ _ _ Hrun)
      as (tr1 & tr2 & tr34 & E & H1 & H2 & H34).
    destruct pre as [|ev pre]; simpl in E; inversion E as [[Hev Htail]]; subst ev.
    assert (Hx1 : Forall (fun y => y <> EvClose true h r) tr1).
    { eapply Forall_impl; [exact H1 |]. intros y Hy ->. discriminate Hy. }
    symmetry in Htail.
    destruct (split_after _ _ _ _ _ Hx1 Htail) as (pre2 & -> & Htail2).
    assert (Hx34 : Forall (fun y => y <> EvClose true h r) tr34).
    { eapply Forall_impl; [exact H34 |]. intros y Hy ->. discriminate Hy. }
    destruct (split_before _ _ _ _ _ Hx34 Htail2) as (post1 & Htr2).
    simpl. rewrite count_after_app, (count_after_mark_phase _ _ H1).
    eapply H2, Htr2. }
  assert (Hin : In (EvClose true h r) (pre ++ EvClose true h r :: post)) by apply in_elt.
  apply __sweep_server_sweep_phases in Hrun
    as (tr1 & tr2 & tr3 & tr4 & E & H1 & _ & H2 & H2' & H3 & H4).
  rewrite E in Hin.
  destruct Hin as [Hin | Hin]; [discriminate |].
  rewrite !in_app_iff in Hin. destruct Hin as [Hin | [Hin | [Hin | Hin]]].
  - rewrite List.Forall_forall in H1. apply H1 in Hin. discriminate.
  - assert (Hne : tr2 <> []) by (intros ->; destruct Hin).
    destruct (H2' Hne) as [Hidle Hmin].
    rewrite List.Forall_forall in H2. apply H2 in Hin. simpl in Hin.
    unfold expire_skips in Hin. rewrite !orb_false_iff in Hin.
    destruct Hin as [[[[Hmeta _] _] Htod] Hlong].
    repeat split; auto.
    + intros E'. rewrite E' in Htod. discriminate.
    + apply Z.leb_gt in Hlong. exact Hlong.
  - rewrite List.Forall_forall in H3. apply H3 in Hin as [Hin _]. discriminate.
  - rewrite List.Forall_forall in H4. apply H4 in Hin. destruct Hin.
Qed.

(** X3.  A sweep never discards the metadata handle, whatever its flags and
    reference counts. *)
Theorem sweep_never_discards_the_metadata_handle (c : WT_CONNECTION_IMPL) (now : Z)
    ret c' (tr : list Event) (h : WT_DATA_HANDLE) (r : Z) :
  __sweep_server_sweep c now = (ret, c', tr) ->
  In (EvDiscardSingle h r) tr ->
  WT_IS_METADATA h = false.
Proof.
  intros Hrun Hin.
  apply __sweep_server_sweep_phases in Hrun
    as (tr1 & tr2 & tr3 & tr4 & -> & H1 & _ & H2 & _ & H3 & H4).
  destruct Hin as [Hin | Hin]; [discriminate |].
  rewrite !in_app_iff in Hin. destruct Hin as [Hin | [Hin | [Hin | Hin]]].
  - rewrite List.Forall_forall in H1. apply H1 in Hin. discriminate.
  - rewrite List.Forall_forall in H2. apply H2 in Hin. destruct Hin.
  - rewrite List.Forall_forall in H3. apply H3 in Hin as (_ & _ & Hin). discriminate.
  - rewrite List.Forall_forall in H4. apply H4 in Hin. exact Hin.
Qed.

Lemma __sweep_mark_one_again (now now' : Z) (h : WT_DATA_HANDLE) :
  now <> 0 ->
  __sweep_mark_one now' (fst (__sweep_mark_one now h)) = (fst (__sweep_mark_one now h), []).
Proof.
  intros Hnow. destruct h as [n l t u r ty b f].
  unfold __sweep_mark_one, WT_IS_METADATA, F_ISSET, set_timeofdeath.
  cbn [flags session_inuse timeofdeath name rwlock session_ref type handle].
  destruct (FLD_ISSET f WT_DHANDLE_IS_METADATA) eqn:Hmeta;
    cbn [fst flags session_inuse timeofdeath]; [rewrite Hmeta; reflexivity |].
  destruct (Z.ltb_spec 1 u) as [H1 | H1];
    cbn [flags session_inuse timeofdeath name rwlock session_ref type handle].
  - destruct (Z.ltb_spec 0 u) as [H0 | H0]; [| lia].
    rewrite orb_true_r. cbn [orb fst flags session_inuse timeofdeath].
    rewrite Hmeta. destruct (Z.ltb_spec 1 u); [| lia].
    cbn [flags session_inuse timeofdeath]. destruct (Z.ltb_spec 0 u); [| lia].
    rewrite orb_true_r. reflexivity.
  - destruct (FLD_ISSET f WT_DHANDLE_EXCLUSIVE || (0 <? u) || negb (t =? 0)) eqn:Hskip;
      cbn [fst flags session_inuse timeofdeath]; rewrite Hmeta;
      (destruct (Z.ltb_spec 1 u); [lia |]);
      cbn [flags session_inuse timeofdeath].
    + rewrite Hskip. reflexivity.
    + destruct (Z.eqb_spec now 0); [contradiction |].
      rewrite orb_true_r. reflexivity.
Qed.

(** X4.  Marking is idempotent: once the handles have been marked at a time
    [now] other than zero, marking them again, then or later, changes no
    time of death and counts no handle as newly idle; so the idle clock of
    a handle that stays unused runs from the first sweep that found it
    idle. *)
Theorem sweep_mark_again_changes_nothing (now now' : Z) (q : list WT_DATA_HANDLE) :
  now <> 0 ->
  __sweep_mark now' (fst (__sweep_mark now q)) = (fst (__sweep_mark now q), []).
Proof.
  intros Hnow. induction q as [|h q IH]; [reflexivity |].
  simpl. pose proof (__sweep_mark_one_again now now' h Hnow) as Hone.
  destruct (__sweep_mark_one now h) as [h1 ev1].
  destruct (__sweep_mark now q) as [q1 evs1]. simpl in *.
  rewrite Hone, IH. reflexivity.
Qed.

End Sweeper.

(** *** A storage engine to run the sweeper against *)

Definition set_flags (f : Z) (h : WT_DATA_HANDLE) : WT_DATA_HANDLE :=
  mkDhandle (name h) (rwlock h) (timeofdeath h) (session_inuse h) (session_ref h) (type h)
    (handle h) f.

Definition F_SET (h : WT_DATA_HANDLE) (mask : Z) : WT_DATA_HANDLE :=
  set_flags (Z.lor (flags h) mask) h.

Definition F_CLR (h : WT_DATA_HANDLE) (mask : Z) : WT_DATA_HANDLE :=
  set_flags (Z.ldiff (flags h) mask) h.

(** Every update is globally visible.  Closing a live handle with
    [mark_dead] flags it DEAD and leaves it OPEN; closing a handle that is
    already DEAD, or closing without [mark_dead], releases the tree and
    clears OPEN and DEAD.  Discarding always succeeds. *)
Definition example_visible_all (txn ts : Z) : bool := true.

Definition example_close (final mark_dead : bool) (count : Z) (h : WT_DATA_HANDLE)
  : Z * WT_DATA_HANDLE * Z :=
  if F_ISSET h WT_DHANDLE_DEAD || negb mark_dead
  then (0, F_CLR h (Z.lor WT_DHANDLE_DEAD WT_DHANDLE_OPEN), count)
  else (0, F_SET h WT_DHANDLE_DEAD, count - 1).

Definition example_discard_single (final mark_dead : bool) (h : WT_DATA_HANDLE) : Z := 0.

Definition example_sweep : WT_CONNECTION_IMPL -> Z -> Z * WT_CONNECTION_IMPL * list Event :=
  __sweep_server_sweep example_visible_all example_close example_discard_single.

(** A tree marked dead by an earlier sweep whose flush was refused, and on
    which a cursor-less internal user (eviction) has since raised the in-use
    count; its tree is still flagged modified. *)
Definition dead_but_in_use : WT_DATA_HANDLE :=
  mkDhandle "file:busy.wt" Unlocked 90 1 1 WT_DHANDLE_TYPE_BTREE (mkBtree true 7 7)
    (Z.lor WT_DHANDLE_OPEN WT_DHANDLE_DEAD).

(** An idle, clean, open tree, last used long ago. *)
Definition idle_clean : WT_DATA_HANDLE :=
  mkDhandle "file:idle.wt" Unlocked 10 0 0 WT_DHANDLE_TYPE_BTREE (mkBtree false 3 3)
    WT_DHANDLE_OPEN.

(** A tree opened exclusively by a schema operation. *)
Definition exclusive_open : WT_DATA_HANDLE :=
  mkDhandle "file:excl.wt" LockedByOther 10 0 1 WT_DHANDLE_TYPE_BTREE (mkBtree false 3 3)
    (Z.lor WT_DHANDLE_OPEN WT_DHANDLE_EXCLUSIVE).


Definition idle_conn : WT_CONNECTION_IMPL := mkConn [idle_clean; exclusive_open] 2 5 10 0.

Example example_sweep_idle_conn :
  example_sweep idle_conn 100
  = (0, mkConn [exclusive_open] 1 5 10 0,
     [EvStat dh_sweeps;
      EvClose true (set_rwlock WriteLockedBySweep idle_clean) 0;
      EvClose false (F_SET idle_clean WT_DHANDLE_DEAD) 0;
      EvStat dh_sweep_close;
      EvDiscardSingle (set_rwlock WriteLockedBySweep (set_flags 0 idle_clean)) 0;
      EvStat dh_sweep_remove]).
Proof. vm_compute. reflexivity. Qed.



(** Two idle trees on a connection that is to keep one tree open: the
    close of the first leaves the count of open trees below the minimum, and
    the sweep leaves the second alone. *)
Definition idle_clean2 : WT_DATA_HANDLE :=
  mkDhandle "file:idle2.wt" Unlocked 10 0 0 WT_DHANDLE_TYPE_BTREE (mkBtree false 3 3)
    WT_DHANDLE_OPEN.

Definition keep_one_conn : WT_CONNECTION_IMPL := mkConn [idle_clean; idle_clean2] 1 5 10 1.

Example example_sweep_keep_one :
  example_sweep keep_one_conn 100
  = (0, mkConn [idle_clean2] 0 5 10 1,
     [EvStat dh_sweeps] ++
     EvClose true (set_rwlock WriteLockedBySweep idle_clean) 0 ::
     [EvClose false (F_SET idle_clean WT_DHANDLE_DEAD) 0;
      EvStat dh_sweep_close;
      EvDiscardSingle (set_rwlock WriteLockedBySweep (set_flags 0 idle_clean)) 0;
      EvStat dh_sweep_remove]).
Proof. vm_compute. reflexivity. Qed.

(** The guards of the expire phase, at work on [keep_one_conn]. *)
Lemma sweep_marks_dead_only_handles_idle_too_long_witness :
  example_sweep keep_one_conn 100
  = (0, mkConn [idle_clean2] 0 5 10 1,
     [EvStat dh_sweeps] ++
     EvClose true (set_rwlock WriteLockedBySweep idle_clean) 0 ::
     [EvClose false (F_SET idle_clean WT_DHANDLE_DEAD) 0;
      EvStat dh_sweep_close;
      EvDiscardSingle (set_rwlock WriteLockedBySweep (set_flags 0 idle_clean)) 0;
      EvStat dh_sweep_remove])
  /\ sweep_idle_time keep_one_conn <> 0
  /\ sweep_handles_min keep_one_conn <= open_btree_count keep_one_conn
  /\ sweep_handles_min keep_one_conn
     <= count_after example_close (open_btree_count keep_one_conn) [EvStat dh_sweeps]
  /\ WT_IS_METADATA (set_rwlock WriteLockedBySweep idle_clean) = false
  /\ timeofdeath (set_rwlock WriteLockedBySweep idle_clean) <> 0
  /\ sweep_idle_time keep_one_conn
     < uint64_sub 100 (timeofdeath (set_rwlock WriteLockedBySweep idle_clean)).
Proof.
  split; [exact example_sweep_keep_one |].
  exact (sweep_marks_dead_only_handles_idle_too_long example_visible_all example_close
           example_discard_single keep_one_conn 100 _ _ _ _ _ _ example_sweep_keep_one).
Defined.

Lemma sweep_never_discards_the_metadata_handle_witness :
  In (EvDiscardSingle (set_rwlock WriteLockedBySweep (set_flags 0 idle_clean)) 0)
    (snd (example_sweep idle_conn 100))
  /\ WT_IS_METADATA (set_rwlock WriteLockedBySweep (set_flags 0 idle_clean)) = false.
Proof.
  assert (Hin : In (EvDiscardSingle (set_rwlock WriteLockedBySweep (set_flags 0 idle_clean)) 0)
                  (snd (example_sweep idle_conn 100))).
  { rewrite example_sweep_idle_conn. simpl. auto 10. }
  split; [exact Hin |].
  apply (sweep_never_discards_the_metadata_handle example_visible_all example_close
           example_discard_single idle_conn 100 _ _ _ _ 0 example_sweep_idle_conn).
  rewrite example_sweep_idle_conn in Hin. exact Hin.
Defined.

(** A tree nobody has used yet, without a time of death. *)
Definition fresh_idle : WT_DATA_HANDLE :=
  mkDhandle "file:fresh.wt" Unlocked 0 0 0 WT_DHANDLE_TYPE_BTREE (mkBtree false 3 3)
    WT_DHANDLE_OPEN.

Lemma sweep_mark_again_changes_nothing_witness :
  100 <> 0
  /\ __sweep_mark 200 (fst (__sweep_mark 100 [fresh_idle; dead_but_in_use]))
     = ([set_timeofdeath 100 fresh_idle; dead_but_in_use], []).
Proof.
  split; [discriminate |].
  apply (sweep_mark_again_changes_nothing 100 200 [fresh_idle; dead_but_in_use]).
  discriminate.
Defined.

(** *** The configuration of the sweeper *)

Definition uint64_t (v : Z) : Z := v mod 2 ^ 64.

Definition set_sweep_idle_time (v : Z) (c : WT_CONNECTION_IMPL) : WT_CONNECTION_IMPL :=
  mkConn (dhqh c) (open_btree_count c) v (sweep_interval c) (sweep_handles_min c).

Definition set_sweep_interval (v : Z) (c : WT_CONNECTION_IMPL) : WT_CONNECTION_IMPL :=
  mkConn (dhqh c) (open_btree_count c) (sweep_idle_time c) v (sweep_handles_min c).

Definition set_sweep_handles_min (v : Z) (c : WT_CONNECTION_IMPL) : WT_CONNECTION_IMPL :=
  mkConn (dhqh c) (open_btree_count c) (sweep_idle_time c) (sweep_interval c) v.

Section SweepConfig.

(** [__wt_config_gets(session, cfg, key, &cval)] on the configuration stack
    [cfg] at hand: the error code and [cval.val], a signed 64-bit integer.
    Its code is elsewhere. *)
Variable __wt_config_gets : string -> Z * Z.

(** [__wt_sweep_config]: the error code and the connection afterwards. *)
Definition __wt_sweep_config (conn : WT_CONNECTION_IMPL) : Z * WT_CONNECTION_IMPL :=
  let conn := set_sweep_idle_time 0 conn in
  let '(ret, cval) := __wt_config_gets "in_memory" in
  if negb (ret =? 0) then (ret, conn)
  else
    let '(ret, conn) :=
      if cval =? 0 then
        let '(ret, cval) := __wt_config_gets "file_manager.close_idle_time" in
        if negb (ret =? 0) then (ret, conn)
        else (0, set_sweep_idle_time (uint64_t cval) conn)
      else (0, conn) in
    if negb (ret =? 0) then (ret, conn)
    else
      let '(ret, cval) := __wt_config_gets "file_manager.close_scan_interval" in
      if negb (ret =? 0) then (ret, conn)
      else
        let conn := set_sweep_interval (uint64_t cval) conn in
        let '(ret, cval) := __wt_config_gets "file_manager.close_handle_minimum" in
        if negb (ret =? 0) then (ret, conn)
        else (0, set_sweep_handles_min (uint64_t cval) conn).

Lemma __wt_sweep_config_in_memory (conn : WT_CONNECTION_IMPL) (v : Z) :
  __wt_config_gets "in_memory" = (0, v) -> v <> 0 ->
  sweep_idle_time (snd (__wt_sweep_config conn)) = 0.
Proof.
  intros Hmem Hv. unfold __wt_sweep_config. rewrite Hmem. simpl.
  destruct (Z.eqb_spec v 0) as [E | _]; [contradiction |]. simpl.
  destruct (__wt_config_gets "file_manager.close_scan_interval") as [r1 v1].
  destruct (negb (r1 =? 0)); [reflexivity |].
  destruct (__wt_config_gets "file_manager.close_handle_minimum") as [r2 v2].
  destruct (negb (r2 =? 0)); reflexivity.
Qed.

End SweepConfig.

(** X5.  Configured in-memory, a connection gets the idle time zero,
    whatever [file_manager.close_idle_time] says and whether or not the rest
    of the configuration can be read; and a sweep of such a connection,
    whatever its handles, gives no handle a time of death and marks none
    dead. *)
Theorem in_memory_connection_never_expires_a_handle
    (__wt_txn_visible_all : Z -> Z -> bool)
    (__wt_conn_dhandle_close : bool -> bool -> Z -> WT_DATA_HANDLE -> Z * WT_DATA_HANDLE * Z)
    (__wt_conn_dhandle_discard_single : bool -> bool -> WT_DATA_HANDLE -> Z)
    (__wt_config_gets : string -> Z * Z) (conn : WT_CONNECTION_IMPL) (v : Z)
    (q : list WT_DATA_HANDLE) (count now : Z) :
  __wt_config_gets "in_memory" = (0, v) -> v <> 0 ->
  let conn' := snd (__wt_sweep_config __wt_config_gets conn) in
  sweep_idle_time conn' = 0
  /\ Forall (fun ev => stamps ev = false /\ marks_dead ev = false)
       (snd (__sweep_server_sweep __wt_txn_visible_all __wt_conn_dhandle_close
               __wt_conn_dhandle_discard_single (with_handles conn' q count) now)).
Proof.
  intros Hmem Hv conn'.
  pose proof (__wt_sweep_config_in_memory _ conn v Hmem Hv) as Hidle. fold conn' in Hidle.
  split; [exact Hidle |].
  destruct (__sweep_server_sweep _ _ _ (with_handles conn' q count) now) as [[ret c''] tr] eqn:Hrun.
  apply __sweep_server_sweep_phases in Hrun
    as (tr1 & tr2 & tr3 & tr4 & -> & H1 & H1' & H2 & H2' & H3 & H4).
  assert (tr1 = []) as ->.
  { destruct tr1; [reflexivity |]. exfalso. apply H1'; [discriminate | exact Hidle]. }
  assert (tr2 = []) as ->.
  { destruct tr2; [reflexivity |]. exfalso.
    destruct H2' as [H2' _]; [discriminate |]. apply H2'. exact Hidle. }
  simpl. constructor; [split; reflexivity |].
  apply Forall_app. split.
  - eapply Forall_impl; [exact H3 |]. intros ev (Hm & Hs & _). auto.
  - eapply Forall_impl; [exact H4 |]. intros [s | md h r | h r]; simpl; [| tauto | auto].
    destruct s; auto. congruence.
Qed.

(** An in-memory configuration that still asks for an idle time of 30
    seconds. *)
Definition in_memory_config (key : string) : Z * Z :=
  if String.eqb key "in_memory" then (0, 1)
  else if String.eqb key "file_manager.close_idle_time" then (0, 30)
  else if String.eqb key "file_manager.close_scan_interval" then (0, 10)
  else (0, 250).

Lemma in_memory_connection_never_expires_a_handle_witness :
  in_memory_config "in_memory" = (0, 1) /\ 1 <> 0
  /\ snd (__wt_sweep_config in_memory_config idle_conn)
     = mkConn [idle_clean; exclusive_open] 2 0 10 250
  /\ snd (example_sweep (snd (__wt_sweep_config in_memory_config idle_conn)) 100)
     = [EvStat dh_sweeps]
  /\ Forall (fun ev => stamps ev = false /\ marks_dead ev = false)
       (snd (example_sweep
               (with_handles (snd (__wt_sweep_config in_memory_config idle_conn))
                  [idle_clean; exclusive_open] 2) 100)).
Proof.
  split; [reflexivity |]. split; [discriminate |].
  split; [reflexivity |]. split; [reflexivity |].
  apply (in_memory_connection_never_expires_a_handle example_visible_all example_close
           example_discard_single in_memory_config idle_conn 1 [idle_clean; exclusive_open] 2 100);
    [reflexivity | discriminate].
Defined.

End Sweep.

(** ** Oplog application (mongo/db/repl) *)

Module Repl.

Local Open Scope Z_scope.

(** *** Operation times *)

(** Modelled from the spec: [Timestamp] (seconds and increment) and
    [OpTime], the pair of a timestamp and a term (timestamp.h and optime.h
    lie outside the files embedded here). *)
Record Timestamp : Type := mkTimestamp { getSecs : Z; getInc : Z }.

#[global] Instance Timestamp_eq_dec : EqDecision Timestamp.
Proof. solve_decision. Defined.

Definition Timestamp_lt (a b : Timestamp) : bool :=
  (getSecs a <? getSecs b) || ((getSecs a =? getSecs b) && (getInc a <? getInc b)).

Record OpTime : Type := mkOpTime { getTimestamp : Timestamp; OpTime_getTerm : Z }.

#[global] Instance OpTime_eq_dec : EqDecision OpTime.
Proof. solve_decision. Defined.

(** Modelled from the spec: the order of OpTime, [(timestamp, term)] ordered
    lexicographically, and the comparison operators built on [<] and [==]. *)
Definition OpTime_lt (a b : OpTime) : bool :=
  Timestamp_lt (getTimestamp a) (getTimestamp b)
  || (bool_decide (getTimestamp a = getTimestamp b) && (OpTime_getTerm a <? OpTime_getTerm b)).

Definition OpTime_eq (a b : OpTime) : bool := bool_decide (a = b).
Definition OpTime_le (a b : OpTime) : bool := OpTime_lt a b || OpTime_eq a b.
Definition OpTime_gt (a b : OpTime) : bool := negb (OpTime_le a b).
Definition OpTime_ge (a b : OpTime) : bool := negb (OpTime_lt a b).

(** Modelled from the spec: the null OpTime, at which a chain of
    [prevOpTime] links terminates: timestamp zero, term uninitialised. *)
Definition OpTime_null : OpTime := mkOpTime (mkTimestamp 0 0) (-1).
Definition OpTime_isNull (t : OpTime) : bool := getSecs (getTimestamp t) =? 0.

(** [boost::optional<OpTime> < OpTime]: an empty optional is below every
    value. *)
Definition optional_OpTime_lt (a : option OpTime) (b : OpTime) : bool :=
  match a with None => true | Some a' => OpTime_lt a' b end.

(** Milliseconds since the epoch. *)
Definition Date_t : Type := Z.
Definition Date_fromSeconds (s : Z) : Date_t := s * 1000.

(** *** BSON documents and oplog entries *)

(** Modelled from the spec: a document is the ordered list of its named
    elements (bson/ lies outside the files embedded here). *)
#[local] Set Warnings "-register-all".

Inductive BSONValue : Type :=
| BNumber (n : Z)
| BBool (b : bool)
| BString (s : string)
| BTimestamp (t : Timestamp)
| BDate (d : Date_t)
| BBinData (n : Z)
| BObject (fields : list (string * BSONValue))
| BArray (elems : list BSONValue)
| BNull.

Definition BSONObj : Type := list (string * BSONValue).

Definition fieldNames (o : BSONObj) : list string := map fst o.

(** [BSONObj::operator[]]: the first element of that name, if any. *)
Fixpoint getField (o : BSONObj) (fieldName : string) : option BSONValue :=
  match o with
  | [] => None
  | (n, v) :: o' => if String.eqb n fieldName then Some v else getField o' fieldName
  end.

Definition has_name (names : list string) (n : string) : bool :=
  existsb (String.eqb n) names.

(** Modelled from the spec: [BSONObjBuilder::appendElementsUnique], the
    overlay of the envelope: the builder keeps what it holds and takes from
    the other document every element whose name it did not hold already
    (the names are collected once, before anything is appended). *)
Definition appendElementsUnique (builder x : BSONObj) : BSONObj :=
  builder ++ List.filter (fun e => negb (has_name (fieldNames builder) (fst e))) x.

Inductive OpTypeEnum : Type := kCommand | kInsert | kUpdate | kDelete | kNoop.

#[global] Instance OpTypeEnum_eq_dec : EqDecision OpTypeEnum.
Proof. solve_decision. Defined.

Inductive CommandType : Type :=
| kNotCommand | kCreate | kRenameCollection | kDbCheck | kDrop | kCollMod | kApplyOps
| kDropDatabase | kEmptyCapped | kConvertToCapped | kCreateIndexes | kDropIndexes
| kCommitTransaction | kAbortTransaction.

#[global] Instance CommandType_eq_dec : EqDecision CommandType.
Proof. solve_decision. Defined.

(** Modelled from the spec: a namespace, [<db>.<collection>], and the two
    namespaces the batcher isolates, [*.system.views] and
    [admin.system.version]. *)
Record NamespaceString : Type := mkNss { db : string; coll : string }.

Definition ns (nss : NamespaceString) : string :=
  String.append (db nss) (String.append "." (coll nss)).

Definition isSystemDotViews (nss : NamespaceString) : bool :=
  String.eqb (coll nss) "system.views".

Definition isServerConfigurationCollection (nss : NamespaceString) : bool :=
  String.eqb (db nss) "admin" && String.eqb (coll nss) "system.version".

(** Logical session ids and transaction numbers. *)
Definition LogicalSessionId : Type := Z.
Definition TxnNumber : Type := Z.

(** Modelled from the spec: a parsed oplog entry (OpEntry of the data
    model) together with its raw encoded form; oplog_entry.h lies outside
    the files embedded here.  [isForCappedCollection] is the one field the
    partitioner writes. *)
Record OplogEntry : Type := mkOplogEntry {
  raw : BSONObj;
  getOpTime : OpTime;
  getWallClockTime : option Date_t;
  getOpType : OpTypeEnum;
  getNss : NamespaceString;
  getUuid : option Z;
  getObject : BSONObj;
  getObject2 : option BSONObj;
  getSessionId : option LogicalSessionId;
  getTxnNumber : option TxnNumber;
  getPrevWriteOpTimeInTransaction : option OpTime;
  getVersion : Z;
  isInPendingTransaction : bool;
  getCommandType : CommandType;
  shouldPrepare : bool;
  isForCappedCollection : bool }.

Definition toBSON (e : OplogEntry) : BSONObj := raw e.

Definition set_raw (b : BSONObj) (e : OplogEntry) : OplogEntry :=
  mkOplogEntry b (getOpTime e) (getWallClockTime e) (getOpType e) (getNss e) (getUuid e)
    (getObject e) (getObject2 e) (getSessionId e) (getTxnNumber e)
    (getPrevWriteOpTimeInTransaction e) (getVersion e) (isInPendingTransaction e)
    (getCommandType e) (shouldPrepare e) (isForCappedCollection e).

Definition isCommand (e : OplogEntry) : bool := bool_decide (getOpType e = kCommand).

Definition isCrudOpType (e : OplogEntry) : bool :=
  match getOpType e with
  | kInsert | kUpdate | kDelete => true
  | kCommand | kNoop => false
  end.

Definition set_isForCappedCollection (b : bool) (e : OplogEntry) : OplogEntry :=
  mkOplogEntry (raw e) (getOpTime e) (getWallClockTime e) (getOpType e) (getNss e) (getUuid e)
    (getObject e) (getObject2 e) (getSessionId e) (getTxnNumber e)
    (getPrevWriteOpTimeInTransaction e) (getVersion e) (isInPendingTransaction e)
    (getCommandType e) (shouldPrepare e) b.

(** The oplog on disk, [local.oplog.rs], in insertion order. *)
Definition Oplog : Type := list OplogEntry.

Definition findOne (oplog : Oplog) (t : OpTime) : option OplogEntry :=
  List.find (fun e => OpTime_eq (getOpTime e) t) oplog.

(** Modelled from the spec: [TransactionHistoryIterator], the walk of the
    on-disk chain backward through the [prevOpTime] links until it
    terminates at the null OpTime (transaction_history_iterator.cpp lies
    outside the files embedded here).  An entry that is missing from the oplog,
    or that carries no link, raises an exception. *)
Record TransactionHistoryIterator : Type := mkIter { _nextOpTime : OpTime }.

Definition hasNext (iter : TransactionHistoryIterator) : bool :=
  negb (OpTime_isNull (_nextOpTime iter)).

Definition next (oplog : Oplog) (iter : TransactionHistoryIterator)
  : Result (OplogEntry * TransactionHistoryIterator) :=
  match findOne oplog (_nextOpTime iter) with
  | None => Throw (mkStatus IncompleteTransactionHistory
                     "oplog no longer contains the complete write history of this transaction")
  | Some oplogEntry =>
      match getPrevWriteOpTimeInTransaction oplogEntry with
      | None => Throw (mkStatus FailedToParse
                         "Missing prevTs field on oplog entry of previous write in transaction")
      | Some prev => Ret (oplogEntry, mkIter prev)
      end
  end.

(** The generated code around oplog entries, which lies outside the files
    embedded here: the parser of the fields of a document, which throws on
    a malformed one; [getReplOperation().toBSON()], the projection of an
    entry on the fields of the replicated operation;
    [OplogEntry::kOplogVersion]; [BSONObj::objsize()]; and the printing of an
    optime. *)
Class OplogCodec : Type := {
  parseOplogEntry : BSONObj -> Result OplogEntry;
  ReplOperation_toBSON : OplogEntry -> BSONObj;
  kOplogVersion : Z;
  objsize : BSONObj -> Z;
  OpTime_toString : OpTime -> string }.

(** What a writer of the oplog hands to [insertDocuments]: the raw document
    of an entry with its timestamp and term. *)
Record InsertStatement : Type := mkInsertStatement {
  stmt_doc : BSONObj;
  stmt_timestamp : Timestamp;
  stmt_term : Z }.

(** What the partitioner and [multiApply] call and whose code is elsewhere:
    the session update tracker, the extraction of the operations of an
    applyOps entry (which may throw), the hash of a namespace string, the
    collation-aware hash of a document's [_id], MurmurHash3, the catalog,
    the storage engine's [supportsDocLocking()], the applier's option
    [beginApplyingOpTime], the function each writer thread runs on its
    operations (returning its status and the multikey paths it met) and the
    storage interface's [setIndexIsMultikey] and [insertDocuments], the
    latter into the oplog. *)
Class ApplierContext : Type := {
  SessionUpdateTracker : Type;
  SessionUpdateTracker_new : SessionUpdateTracker;
  updateOrFlush :
    SessionUpdateTracker -> OplogEntry -> option (list OplogEntry) * SessionUpdateTracker;
  flushAll : SessionUpdateTracker -> list OplogEntry;
  extractOperations : OplogEntry -> Result (list OplogEntry);
  StringMapHasher_hash : string -> Z;
  Collator : Type;
  elementHasher_hash : OplogEntry -> option Collator -> Z;
  MurmurHash3_x86_32 : Z -> Z -> Z;
  Database : Type;
  Collection : Type;
  getDb : string -> option Database;
  getCollection : Database -> string -> option Collection;
  Collection_isCapped : Collection -> bool;
  Collection_getDefaultCollator : Collection -> option Collator;
  supportsDocLocking : bool;
  beginApplyingOpTime : OpTime;
  MultikeyPathInfo : Type;
  _applyFunc : list OplogEntry -> Status * list MultikeyPathInfo;
  setIndexIsMultikey : MultikeyPathInfo -> Timestamp -> Status;
  insertDocuments : list InsertStatement -> Status }.

Section OplogApplication.

Context {codec : OplogCodec} {context : ApplierContext}.

(** [OplogEntry(BSONObj)]: the parsed fields, and the document kept as the
    raw form. *)
Definition OplogEntry_of (rawInput : BSONObj) : Result OplogEntry :=
  e ← parseOplogEntry rawInput; Ret (set_raw rawInput e).

(** *** The transaction assembler (transaction_oplog_application.cpp) *)

(** The entry rebuilt as if it were at the commit or prepare time. *)
Definition rebuildAt (commitOrPrepareObj : BSONObj) (operationEntry : OplogEntry)
  : Result OplogEntry :=
  _ ← invariant (isInPendingTransaction operationEntry) "operationEntry.isInPendingTransaction()";
  OplogEntry_of (appendElementsUnique (ReplOperation_toBSON operationEntry) commitOrPrepareObj).

(** The [while (iter.hasNext())] loop; [ops] grows at the back. *)
Fixpoint readChain (fuel : nat) (oplog : Oplog) (commitOrPrepareObj : BSONObj)
  (iter : TransactionHistoryIterator) (ops : list OplogEntry) : Result (list OplogEntry) :=
  if hasNext iter then
    match fuel with
    | O => OutOfFuel
    | S fuel' =>
        '(operationEntry, iter') ← next oplog iter;
        e ← rebuildAt commitOrPrepareObj operationEntry;
        readChain fuel' oplog commitOrPrepareObj iter' (ops ++ [e])
    end
  else Ret ops.

(** The [for (auto* cachedOp : cachedOps)] loop. *)
Fixpoint appendCached (commitOrPrepareObj : BSONObj) (cachedOps : list OplogEntry)
  (ops : list OplogEntry) : Result (list OplogEntry) :=
  match cachedOps with
  | [] => Ret ops
  | operationEntry :: rest =>
      e ← rebuildAt commitOrPrepareObj operationEntry;
      appendCached commitOrPrepareObj rest (ops ++ [e])
  end.

Definition emptyCommitsNotAllowed : string :=
  "Empty commits are not allowed, but empty prepares are.".

Definition readTransactionOperationsFromOplogChain (fuel : nat) (oplog : Oplog)
  (commitOrPrepare : OplogEntry) (cachedOps : list OplogEntry) : Result (list OplogEntry) :=
  let currentOpTime := getOpTime commitOrPrepare in
  let lastEntryOpTime :=
    getPrevWriteOpTimeInTransaction
      (match cachedOps with [] => commitOrPrepare | front :: _ => front end) in
  _ ← invariant (optional_OpTime_lt lastEntryOpTime currentOpTime)
        "lastEntryOpTime < currentOpTime";
  start ← match lastEntryOpTime with
          | Some t => Ret t
          | None => Undefined "lastEntryOpTime.get()"
          end;
  let iter := mkIter start in
  _ ← invariant (negb (bool_decide (getCommandType commitOrPrepare = kCommitTransaction))
                 || negb (bool_decide (cachedOps = [])) || hasNext iter)
        emptyCommitsNotAllowed;
  let commitOrPrepareObj := toBSON commitOrPrepare in
  ops ← readChain fuel oplog commitOrPrepareObj iter [];
  appendCached commitOrPrepareObj cachedOps (rev ops).

(** **** Properties of the assembler *)

(** The transaction's entries in chronological order, each linked to the
    one before it; [prev] is what the first one links to. *)
Fixpoint linked (prev : OpTime) (es : list OplogEntry) : Prop :=
  match es with
  | [] => True
  | e :: es' => getPrevWriteOpTimeInTransaction e = Some prev /\ linked (getOpTime e) es'
  end.

(** The optime of the last entry of [es], or [prev] when there is none. *)
Definition lastOpTime (prev : OpTime) (es : list OplogEntry) : OpTime :=
  List.last (map getOpTime es) prev.

(** What the overlay yields for the operation [O] under the envelope of
    [C], before parsing. *)
Definition envelope (C O : OplogEntry) : BSONObj :=
  appendElementsUnique (ReplOperation_toBSON O) (toBSON C).

Definition rebuilt (C O R : OplogEntry) : Prop := OplogEntry_of (envelope C O) = Ret R.

Lemma getField_app (a b : BSONObj) (n : string) :
  getField (a ++ b) n = match getField a n with Some v => Some v | None => getField b n end.
Proof.
  induction a as [|[m v] a IH]; simpl; [reflexivity |].
  destruct (String.eqb m n); [reflexivity | exact IH].
Qed.

Lemma getField_None_has_name (a : BSONObj) (n : string) :
  getField a n = None <-> has_name (fieldNames a) n = false.
Proof.
  unfold has_name, fieldNames. induction a as [|[m v] a IH]; simpl; [tauto |].
  rewrite (String.eqb_sym n m). destruct (String.eqb m n); simpl; [split; discriminate | exact IH].
Qed.

Lemma getField_filter_other (names : list string) (x : BSONObj) (n : string) :
  has_name names n = false ->
  getField (List.filter (fun e => negb (has_name names (fst e))) x) n = getField x n.
Proof.
  intros Hn. induction x as [|[m v] x IH]; [reflexivity |].
  cbn [List.filter getField fst]. destruct (String.eqb m n) eqn:E.
  - apply String.eqb_eq in E. subst m. rewrite Hn. simpl.
    rewrite String.eqb_refl. reflexivity.
  - destruct (negb (has_name names m)); [simpl; rewrite E |]; exact IH.
Qed.

(** The overlay: the operation's own fields win, every other field is the
    envelope's. *)
Lemma getField_appendElementsUnique (builder x : BSONObj) (n : string) :
  getField (appendElementsUnique builder x) n
  = match getField builder n with Some v => Some v | None => getField x n end.
Proof.
  unfold appendElementsUnique. rewrite getField_app.
  destruct (getField builder n) eqn:E; [reflexivity |].
  apply getField_filter_other, getField_None_has_name, E.
Qed.

Lemma last_cons_default {A : Type} (l : list A) (x d : A) :
  List.last (x :: l) d = List.last l x.
Proof.
  revert x d. induction l as [|y l IH]; intros x d; [reflexivity |].
  change (List.last (x :: y :: l) d) with (List.last (y :: l) d).
  rewrite !IH. reflexivity.
Qed.

Lemma linked_snoc (prev : OpTime) (es : list OplogEntry) (e : OplogEntry) :
  linked prev (es ++ [e])
  <-> linked prev es /\ getPrevWriteOpTimeInTransaction e = Some (lastOpTime prev es).
Proof.
  revert prev. induction es as [|a es IH]; intros prev; simpl.
  - unfold lastOpTime. simpl. tauto.
  - rewrite IH. unfold lastOpTime. cbn [map]. rewrite last_cons_default. tauto.
Qed.

Lemma lastOpTime_snoc (prev : OpTime) (es : list OplogEntry) (e : OplogEntry) :
  lastOpTime prev (es ++ [e]) = getOpTime e.
Proof. unfold lastOpTime. rewrite map_app. simpl. apply last_last. Qed.

Lemma rebuildAt_ok (C O R : OplogEntry) :
  isInPendingTransaction O = true -> rebuilt C O R -> rebuildAt (toBSON C) O = Ret R.
Proof. intros Hp HR. unfold rebuildAt. rewrite Hp. exact HR. Qed.

Lemma readChain_walk (oplog : Oplog) (C : OplogEntry) (disk : list OplogEntry) :
  forall (results acc : list OplogEntry) (fuel : nat),
  linked OpTime_null disk ->
  Forall (fun e => findOne oplog (getOpTime e) = Some e
                   /\ OpTime_isNull (getOpTime e) = false
                   /\ isInPendingTransaction e = true) disk ->
  Forall2 (rebuilt C) disk results ->
  (length disk < fuel)%nat ->
  readChain fuel oplog (toBSON C) (mkIter (lastOpTime OpTime_null disk)) acc
  = Ret (acc ++ rev results).
Proof.
  induction disk as [|e disk IH] using rev_ind; intros results acc fuel Hlink Hdisk Hres Hfuel.
  - inversion Hres; subst. destruct fuel; simpl; rewrite app_nil_r; reflexivity.
  - apply linked_snoc in Hlink as [Hlink Hprev].
    apply Forall_app in Hdisk as [Hdisk He].
    inversion He as [|? ? (Hfind & Hnn & Hpend) _]; subst.
    apply Forall2_app_inv_l in Hres as (rs & r & Hrs & Hr & ->).
    inversion Hr as [|? ? ? ? Hreb Hnil]; subst. inversion Hnil; subst.
    rewrite length_app in Hfuel. simpl in Hfuel.
    destruct fuel as [|fuel]; [lia |].
    rewrite lastOpTime_snoc. simpl. unfold hasNext. simpl. rewrite Hnn. simpl.
    unfold next. simpl. rewrite Hfind, Hprev. simpl.
    rewrite (rebuildAt_ok _ _ _ Hpend Hreb). simpl.
    rewrite (IH rs (acc ++ [y]) fuel Hlink Hdisk Hrs) by lia.
    rewrite rev_app_distr. simpl. rewrite <- app_assoc. reflexivity.
Qed.

Lemma appendCached_ok (C : OplogEntry) (cached : list OplogEntry) :
  forall (results acc : list OplogEntry),
  Forall (fun e => isInPendingTransaction e = true) cached ->
  Forall2 (rebuilt C) cached results ->
  appendCached (toBSON C) cached acc = Ret (acc ++ results).
Proof.
  induction cached as [|e cached IH]; intros results acc Hp Hres.
  - inversion Hres; subst. simpl. rewrite app_nil_r. reflexivity.
  - inversion Hres as [|? r ? rs Hreb Hrs]; subst.
    inversion Hp as [|? ? Hpe Hp']; subst.
    simpl. rewrite (rebuildAt_ok _ _ _ Hpe Hreb). simpl.
    rewrite (IH rs (acc ++ [r]) Hp' Hrs). rewrite <- app_assoc. reflexivity.
Qed.

Lemma lastOpTime_nonempty_not_null (disk : list OplogEntry) :
  disk <> [] ->
  Forall (fun e => OpTime_isNull (getOpTime e) = false) disk ->
  OpTime_isNull (lastOpTime OpTime_null disk) = false.
Proof.
  destruct disk as [|e disk _] using rev_ind; [congruence |].
  intros _ H. apply Forall_app in H as [_ H]. inversion H; subst.
  rewrite lastOpTime_snoc. assumption.
Qed.

(** C1. For a transaction whose operations are [disk] (those already in
    the oplog, oldest first, chained through their [prevOpTime] links down
    to the null optime) followed by [cached] (those of the current batch),
    and whose commit or prepare entry [C] (or first cached operation, if
    any) links to the last operation on disk, the assembler returns, given
    fuel for the walk, exactly the operations of [disk ++ cached] in that
    chronological order, each rebuilt under the envelope of [C]; in a
    rebuilt document every field of the operation itself is kept and every
    other field is the one of [C]. *)
Theorem assembler_returns_operations_in_order
    (oplog : Oplog) (C : OplogEntry) (disk cached results : list OplogEntry) (fuel : nat) :
  linked OpTime_null disk ->
  getPrevWriteOpTimeInTransaction (List.hd C cached) = Some (lastOpTime OpTime_null disk) ->
  Forall (fun e => findOne oplog (getOpTime e) = Some e
                   /\ OpTime_isNull (getOpTime e) = false) disk ->
  Forall (fun e => isInPendingTransaction e = true) (disk ++ cached) ->
  OpTime_lt (lastOpTime OpTime_null disk) (getOpTime C) = true ->
  (getCommandType C = kCommitTransaction -> disk ++ cached <> []) ->
  Forall2 (rebuilt C) (disk ++ cached) results ->
  (length disk < fuel)%nat ->
  readTransactionOperationsFromOplogChain fuel oplog C cached = Ret results
  /\ Forall (fun O => forall n,
               getField (envelope C O) n
               = match getField (ReplOperation_toBSON O) n with
                 | Some v => Some v
                 | None => getField (toBSON C) n
                 end) (disk ++ cached).
Proof.
  intros Hlink Hprev Hdisk Hpend Hlt Hne Hres Hfuel.
  split.
  2: { apply Forall_forall. intros O _ n. apply getField_appendElementsUnique. }
  apply Forall_app in Hpend as [Hpd Hpc].
  apply Forall2_app_inv_l in Hres as (rd & rc & Hrd & Hrc & ->).
  unfold readTransactionOperationsFromOplogChain.
  change (match cached with [] => C | front :: _ => front end) with (List.hd C cached).
  rewrite Hprev. cbn [optional_OpTime_lt]. rewrite Hlt. simpl.
  assert (Hinv : negb (bool_decide (getCommandType C = kCommitTransaction))
                 || negb (bool_decide (cached = []))
                 || hasNext (mkIter (lastOpTime OpTime_null disk)) = true).
  { destruct (decide (getCommandType C = kCommitTransaction)) as [Hc | Hc].
    - rewrite (bool_decide_eq_true_2 _ Hc). simpl.
      destruct cached as [|c cached]; [| reflexivity]. simpl.
      unfold hasNext. simpl. rewrite lastOpTime_nonempty_not_null; [reflexivity | |].
      + specialize (Hne Hc). rewrite app_nil_r in Hne. exact Hne.
      + eapply Forall_impl; [exact Hdisk |]. simpl. tauto.
    - rewrite (bool_decide_eq_false_2 _ Hc). reflexivity. }
  rewrite Hinv. simpl.
  rewrite (readChain_walk oplog C disk rd [] fuel Hlink); try assumption.
  - simpl. rewrite rev_involutive. apply appendCached_ok; assumption.
  - apply Forall_forall. intros e He.
    pose proof (proj1 (Forall_forall _ _) Hdisk e He) as [H1 H2].
    pose proof (proj1 (Forall_forall _ _) Hpd e He) as H3. auto.
Qed.

(** C9. For a commit or prepare entry [C] whose link (or the link of the
    first cached operation) is [t], below the optime of [C]: if [C] is a
    [commitTransaction] with no cached operation and an empty chain on disk
    ([t] is the null optime), the assembler trips its assertion that empty
    commits are not allowed; if [C] is not a commit, that is if it is a
    prepare, the assembler then returns the empty list; and as soon as there
    is a cached operation or the chain on disk is not empty, the assertion
    holds and the assembler goes on to read the chain and the cached
    operations. *)
Theorem empty_commit_asserts_empty_prepare_allowed
    (oplog : Oplog) (C : OplogEntry) (cached : list OplogEntry) (t : OpTime) (fuel : nat) :
  getPrevWriteOpTimeInTransaction (List.hd C cached) = Some t ->
  OpTime_lt t (getOpTime C) = true ->
  (getCommandType C = kCommitTransaction -> cached = [] -> OpTime_isNull t = true ->
   readTransactionOperationsFromOplogChain fuel oplog C cached
   = InvariantFailure emptyCommitsNotAllowed)
  /\ (getCommandType C <> kCommitTransaction -> cached = [] -> OpTime_isNull t = true ->
      readTransactionOperationsFromOplogChain fuel oplog C cached = Ret [])
  /\ (cached <> [] \/ OpTime_isNull t = false ->
      readTransactionOperationsFromOplogChain fuel oplog C cached
      = (ops ← readChain fuel oplog (toBSON C) (mkIter t) [];
         appendCached (toBSON C) cached (rev ops))).
Proof.
  intros Hprev Hlt.
  assert (Hrun : readTransactionOperationsFromOplogChain fuel oplog C cached
                 = (_ ← invariant (negb (bool_decide (getCommandType C = kCommitTransaction))
                                   || negb (bool_decide (cached = []))
                                   || hasNext (mkIter t)) emptyCommitsNotAllowed;
                    ops ← readChain fuel oplog (toBSON C) (mkIter t) [];
                    appendCached (toBSON C) cached (rev ops))).
  { unfold readTransactionOperationsFromOplogChain.
    change (match cached with [] => C | front :: _ => front end) with (List.hd C cached).
    rewrite Hprev. cbn [optional_OpTime_lt]. rewrite Hlt. reflexivity. }
  rewrite Hrun. unfold hasNext. cbn [_nextOpTime]. split; [| split].
  - intros Hc -> Hnull. rewrite Hc, Hnull. reflexivity.
  - intros Hc -> Hnull. rewrite (bool_decide_eq_false_2 _ Hc). simpl.
    destruct fuel; simpl; unfold hasNext; simpl; rewrite Hnull; reflexivity.
  - intros [Hcached | Hnn].
    + rewrite (bool_decide_eq_false_2 _ Hcached). simpl. rewrite orb_true_r. reflexivity.
    + rewrite Hnn. simpl. rewrite !orb_true_r. reflexivity.
Qed.

(** **** What the assembler can return *)

(** The walk of the iterator from [start]: the entries it reads from the
    oplog, latest first, each found under the optime the one before links
    to, until a link is the null optime. *)
Fixpoint walks (oplog : Oplog) (start : OpTime) (walked : list OplogEntry) : Prop :=
  match walked with
  | [] => OpTime_isNull start = true
  | entry :: walked' =>
      OpTime_isNull start = false
      /\ findOne oplog start = Some entry
      /\ exists prev, getPrevWriteOpTimeInTransaction entry = Some prev /\ walks oplog prev walked'
  end.

Lemma invariant_Ret_inv (cond : bool) (what : string) (u : unit) :
  invariant cond what = Ret u -> cond = true.
Proof. unfold invariant. destruct cond; [reflexivity | discriminate]. Qed.

Lemma rebuildAt_Ret_inv (C O R : OplogEntry) :
  rebuildAt (toBSON C) O = Ret R -> isInPendingTransaction O = true /\ rebuilt C O R.
Proof.
  unfold rebuildAt. intros H. apply bindR_Ret_inv in H as (u & Hinv & H).
  apply invariant_Ret_inv in Hinv. auto.
Qed.

Lemma readChain_sound (oplog : Oplog) (C : OplogEntry) :
  forall (fuel : nat) (iter : TransactionHistoryIterator) (ops res : list OplogEntry),
    readChain fuel oplog (toBSON C) iter ops = Ret res ->
    exists walked rs,
      res = ops ++ rs
      /\ walks oplog (_nextOpTime iter) walked
      /\ Forall2 (rebuilt C) walked rs
      /\ Forall (fun O => isInPendingTransaction O = true) walked.
Proof.
  induction fuel as [|fuel IH]; intros iter ops res; simpl; unfold hasNext;
    destruct (OpTime_isNull (_nextOpTime iter)) eqn:Hnull; simpl.
  - intros H; inversion H; subst. exists [], []. rewrite app_nil_r. repeat split; auto.
  - discriminate.
  - intros H; inversion H; subst. exists [], []. rewrite app_nil_r. repeat split; auto.
  - intros H. apply bindR_Ret_inv in H as ([O iter'] & Hnext & H).
    apply bindR_Ret_inv in H as (R & HR & H).
    apply rebuildAt_Ret_inv in HR as [Hpend HR].
    apply IH in H as (walked & rs & -> & Hwalk & Hrs & Hpends).
    unfold next in Hnext. destruct (findOne oplog (_nextOpTime iter)) as [O' |] eqn:Hfind;
      [| discriminate].
    destruct (getPrevWriteOpTimeInTransaction O') as [prev |] eqn:Hprev; [| discriminate].
    inversion Hnext; subst. exists (O :: walked), (R :: rs).
    rewrite <- app_assoc. simpl. repeat split; eauto.
Qed.

Lemma appendCached_sound (C : OplogEntry) (cachedOps : list OplogEntry) :
  forall ops res : list OplogEntry,
    appendCached (toBSON C) cachedOps ops = Ret res ->
    exists rc,
      res = ops ++ rc /\ Forall2 (rebuilt C) cachedOps rc
      /\ Forall (fun O => isInPendingTransaction O = true) cachedOps.
Proof.
  induction cachedOps as [|O rest IH]; intros ops res; simpl.
  - intros H; inversion H; subst. exists []. rewrite app_nil_r. repeat split; auto.
  - intros H. apply bindR_Ret_inv in H as (R & HR & H).
    apply rebuildAt_Ret_inv in HR as [Hpend HR].
    apply IH in H as (rc & -> & Hrc & Hpends). exists (R :: rc).
    rewrite <- app_assoc. simpl. repeat split; auto.
Qed.

Lemma Forall2_rev_rev {A B : Type} (P : A -> B -> Prop) (l : list A) (k : list B) :
  Forall2 P l k -> Forall2 P (rev l) (rev k).
Proof.
  induction 1 as [|x y l k Hxy _ IH]; simpl; [constructor |].
  apply Forall2_app; [exact IH | constructor; [exact Hxy | constructor]].
Qed.

(** X22.  Whatever the oplog holds, when the assembler returns, what it
    returns is made of rebuilt operations of the transaction and of nothing
    else: there are entries that the walk of the history iterator read from
    the oplog, from the link of the commit or prepare entry [C] (or of the
    first cached operation) back to a null link, such that the result is,
    entry for entry, those entries oldest first and then the cached
    operations, each rebuilt under the envelope of [C]; every one of them is
    flagged as part of a pending transaction; the link the walk started
    from is strictly before the optime of [C]; and for a commit the result
    is not empty. *)
Theorem assembler_returns_only_rebuilt_pending_operations
    (fuel : nat) (oplog : Oplog) (C : OplogEntry) (cached results : list OplogEntry) :
  readTransactionOperationsFromOplogChain fuel oplog C cached = Ret results ->
  exists (start : OpTime) (walked : list OplogEntry),
    getPrevWriteOpTimeInTransaction (List.hd C cached) = Some start
    /\ OpTime_lt start (getOpTime C) = true
    /\ walks oplog start walked
    /\ Forall2 (rebuilt C) (rev walked ++ cached) results
    /\ Forall (fun O => isInPendingTransaction O = true) (rev walked ++ cached)
    /\ (getCommandType C = kCommitTransaction -> results <> []).
Proof.
  unfold readTransactionOperationsFromOplogChain. intros H.
  replace (match cached with [] => C | front :: _ => front end) with (List.hd C cached) in H
    by (destruct cached; reflexivity).
  apply bindR_Ret_inv in H as (u1 & Hlt & H). apply invariant_Ret_inv in Hlt.
  apply bindR_Ret_inv in H as (start & Hstart & H).
  destruct (getPrevWriteOpTimeInTransaction (List.hd C cached)) as [t |] eqn:Hprev;
    [| discriminate].
  inversion Hstart; subst t. simpl in Hlt.
  apply bindR_Ret_inv in H as (u2 & Hne & H). apply invariant_Ret_inv in Hne.
  apply bindR_Ret_inv in H as (ops & Hchain & H).
  apply readChain_sound in Hchain as (walked & rs & -> & Hwalk & Hrs & Hpw).
  apply appendCached_sound in H as (rc & -> & Hrc & Hpc).
  simpl in Hwalk. exists start, walked.
  split; [reflexivity |]. split; [exact Hlt |]. split; [exact Hwalk |]. split; [| split].
  - simpl. apply Forall2_app; [apply Forall2_rev_rev; exact Hrs | exact Hrc].
  - apply Forall_app. split; [apply Forall_rev; exact Hpw | exact Hpc].
  - intros Hcommit Hnil. rewrite (bool_decide_eq_true_2 _ Hcommit) in Hne. simpl in Hne.
    simpl in Hnil. apply app_eq_nil in Hnil as [Hrs0 Hrc0].
    subst rc. inversion Hrc; subst cached.
    rewrite (bool_decide_eq_true_2 ([] = [])) in Hne by reflexivity. simpl in Hne.
    unfold hasNext in Hne. simpl in Hne. apply negb_true_iff in Hne.
    destruct walked as [|O walked']; [simpl in Hwalk; congruence |].
    inversion Hrs; subst. simpl in Hrs0. apply app_eq_nil in Hrs0 as [_ Hbad]. discriminate.
Qed.

(** *** The batcher (sync_tail.cpp) *)

(** Returns whether an oplog entry represents a commitTransaction for a
    transaction which has not been prepared. *)
Definition isUnpreparedCommit (entry : OplogEntry) : bool :=
  bool_decide (getCommandType entry = kCommitTransaction)
  && match getField (getObject entry) "prepared" with
     | Some (BBool b) => negb b
     | _ => false
     end.

(** Returns whether an oplog entry represents an applyOps which is a
    self-contained atomic operation. *)
Definition isUnpreparedApplyOps (entry : OplogEntry) : bool :=
  bool_decide (getCommandType entry = kApplyOps) && negb (shouldPrepare entry).

Definition size_t (n : Z) : Z := n mod 2 ^ 64.

(** Modelled from the spec: [OpQueue], an ordered sequence of entries with
    its aggregate byte size and a must-shut-down flag (sync_tail.h lies
    outside the files embedded here). *)
Record OpQueue : Type := mkOpQueue {
  _batch : list OplogEntry;
  _bytes : Z;
  _mustShutdown : bool }.

Definition OpQueue_new : OpQueue := mkOpQueue [] 0 false.

Definition empty (q : OpQueue) : bool :=
  match _batch q with [] => true | _ :: _ => false end.

Definition getCount (q : OpQueue) : Z := Z.of_nat (length (_batch q)).
Definition getBytes (q : OpQueue) : Z := _bytes q.
Definition mustShutdown (q : OpQueue) : bool := _mustShutdown q.

Definition emplace_back (rawInput : BSONObj) (q : OpQueue) : Result OpQueue :=
  _ ← invariant (negb (_mustShutdown q)) "!_mustShutdown";
  e ← OplogEntry_of rawInput;
  Ret (mkOpQueue (_batch q ++ [e]) (size_t (_bytes q + size_t (objsize (raw e))))
         (_mustShutdown q)).

Definition back (q : OpQueue) : option OplogEntry := last (_batch q).

Definition pop_back (q : OpQueue) : Result OpQueue :=
  match back q with
  | None => Undefined "pop_back on an empty queue"
  | Some e => Ret (mkOpQueue (removelast (_batch q)) (size_t (_bytes q - size_t (objsize (raw e))))
                     (_mustShutdown q))
  end.

Definition setMustShutdownFlag (q : OpQueue) : Result OpQueue :=
  _ ← invariant (empty q) "empty()";
  Ret (mkOpQueue (_batch q) (_bytes q) true).

Record BatchLimits : Type := mkBatchLimits {
  bytes : Z;
  ops : Z;
  slaveDelayLatestTimestamp : option Date_t }.

(** What the batcher thread waits for. *)
Inductive BatcherEvent : Type :=
| WaitForData (seconds : Z)
| SleepMillis (ms : Z)
| SleepSecs (seconds : Z).

(** The flags the batcher reads: shutdown and the [rsSyncApplyStop] fail
    point. *)
Record BatcherEnv : Type := mkBatcherEnv {
  inShutdown : bool;
  rsSyncApplyStop : bool }.

(** The oplog buffer: the raw documents queued by the producer, oldest
    first. *)
Definition OplogBuffer : Type := list BSONObj.

Definition _consume (env : BatcherEnv) (oplogBuffer : OplogBuffer) : Result OplogBuffer :=
  match oplogBuffer with
  | [] => _ ← invariant (inShutdown env) "oplogBuffer->tryPop(opCtx, &op) || inShutdown()";
          Ret []
  | _ :: rest => Ret rest
  end.

Definition mustBeProcessedAlone (entry : OplogEntry) : bool :=
  (isCommand entry && (negb (isUnpreparedCommit entry) && negb (isUnpreparedApplyOps entry)))
  || isSystemDotViews (getNss entry) || isServerConfigurationCollection (getNss entry).

Definition entryTime (entry : OplogEntry) : Date_t :=
  Date_fromSeconds (getSecs (getTimestamp (getOpTime entry))).

Definition delayed (limits : BatchLimits) (entry : OplogEntry) : bool :=
  match slaveDelayLatestTimestamp limits with
  | Some latest => latest <? entryTime entry
  | None => false
  end.

(** Returns true if the batch should be ended early. *)
Definition tryPopAndWaitForMore (env : BatcherEnv) (oplogBuffer : OplogBuffer)
  (q : OpQueue) (limits : BatchLimits)
  : Result (bool * OplogBuffer * OpQueue * list BatcherEvent) :=
  match oplogBuffer with
  | [] =>
      if empty q then
        if inShutdown env then
          q' ← setMustShutdownFlag q; Ret (true, oplogBuffer, q', [])
        else Ret (true, oplogBuffer, q, [WaitForData 1])
      else Ret (true, oplogBuffer, q, [])
  | op :: _ =>
      if negb (empty q) && (bytes limits <? size_t (getBytes q + size_t (objsize op)))
      then Ret (true, oplogBuffer, q, [])
      else if rsSyncApplyStop env then Ret (true, oplogBuffer, q, [SleepMillis 10])
      else
        q1 ← emplace_back op q;
        match back q1 with
        | None => Undefined "back on an empty queue"
        | Some entry =>
            if negb (getVersion entry =? kOplogVersion) then Fatal 18820 None
            else if delayed limits entry then
              q2 ← pop_back q1;
              Ret (true, oplogBuffer, q2, if empty q2 then [SleepSecs 1] else [])
            else if mustBeProcessedAlone entry then
              if getCount q1 =? 1 then
                oplogBuffer' ← _consume env oplogBuffer; Ret (true, oplogBuffer', q1, [])
              else
                q2 ← pop_back q1; Ret (true, oplogBuffer, q2, [])
            else
              oplogBuffer' ← _consume env oplogBuffer;
              Ret (ops limits <=? getCount q1, oplogBuffer', q1, [])
        end
  end.

(** [while (!tryPopAndWaitForMore(...)) {}] *)
Fixpoint fillBatch (fuel : nat) (env : BatcherEnv) (oplogBuffer : OplogBuffer)
  (q : OpQueue) (limits : BatchLimits) : Result (OplogBuffer * OpQueue * list BatcherEvent) :=
  match fuel with
  | O => OutOfFuel
  | S fuel' =>
      '(ended, oplogBuffer', q', ev) ← tryPopAndWaitForMore env oplogBuffer q limits;
      if ended : bool then Ret (oplogBuffer', q', ev)
      else
        '(oplogBuffer'', q'', ev') ← fillBatch fuel' env oplogBuffer' q' limits;
        Ret (oplogBuffer'', q'', ev ++ ev')
  end.

(** If slaveDelay is enabled, the most recent timestamp of any oplog
    entries that can be returned in a batch. *)
Definition _calculateSlaveDelayLatestTimestamp (slaveDelaySecs : Z) (now : Date_t)
  : option Date_t :=
  if slaveDelaySecs <=? 0 then None else Some (now - slaveDelaySecs * 1000).

(** One round of [OpQueueBatcher::run]: the batch it publishes, or [None]
    when the round ends without one. *)
Definition OpQueueBatcher_run_once (fuel : nat) (env : BatcherEnv) (slaveDelaySecs : Z)
  (now : Date_t) (limitBytes limitOps : Z) (oplogBuffer : OplogBuffer)
  : Result (OplogBuffer * option OpQueue * list BatcherEvent) :=
  let batchLimits :=
    mkBatchLimits limitBytes limitOps (_calculateSlaveDelayLatestTimestamp slaveDelaySecs now) in
  '(oplogBuffer', q, ev) ← fillBatch fuel env oplogBuffer OpQueue_new batchLimits;
  if empty q && negb (mustShutdown q) then Ret (oplogBuffer', None, ev)
  else Ret (oplogBuffer', Some q, ev).

(** **** Properties of the batcher *)

Lemma OplogEntry_of_raw (b : BSONObj) (e : OplogEntry) :
  OplogEntry_of b = Ret e -> raw e = b.
Proof.
  unfold OplogEntry_of. intros H. apply bindR_Ret_inv in H as (e0 & _ & H).
  inversion H. reflexivity.
Qed.

Lemma size_t_small (n : Z) : 0 <= n < 2 ^ 64 -> size_t n = n.
Proof. intros H. unfold size_t. apply Z.mod_small. exact H. Qed.

Lemma emplace_back_ok (op : BSONObj) (e : OplogEntry) (q : OpQueue) :
  _mustShutdown q = false -> OplogEntry_of op = Ret e ->
  emplace_back op q
  = Ret (mkOpQueue (_batch q ++ [e]) (size_t (_bytes q + size_t (objsize op))) false).
Proof.
  intros Hs He. unfold emplace_back. rewrite Hs. simpl. rewrite He. simpl.
  rewrite (OplogEntry_of_raw _ _ He). reflexivity.
Qed.

Lemma pop_back_emplaced (op : BSONObj) (e : OplogEntry) (q : OpQueue) :
  _mustShutdown q = false -> OplogEntry_of op = Ret e -> 0 <= _bytes q < 2 ^ 64 ->
  pop_back (mkOpQueue (_batch q ++ [e]) (size_t (_bytes q + size_t (objsize op))) false) = Ret q.
Proof.
  intros Hs He Hb. unfold pop_back, back. simpl. rewrite last_snoc.
  rewrite removelast_last, (OplogEntry_of_raw _ _ He).
  replace (size_t (size_t (_bytes q + size_t (objsize op)) - size_t (objsize op)))
    with (_bytes q).
  - destruct q; simpl in *. subst. reflexivity.
  - unfold size_t. rewrite Zminus_mod_idemp_l.
    replace (_bytes q + objsize op mod 2 ^ 64 - objsize op mod 2 ^ 64) with (_bytes q) by lia.
    symmetry. apply Z.mod_small. exact Hb.
Qed.

(** C6. With byte sizes in the range of a BSON document: (A) when the
    current batch is not empty and the peeked entry would take its bytes
    over the limit, the batcher ends the batch and leaves the entry in the
    buffer; (B) when the batch is empty, an entry that alone exceeds the
    limit (and that no other rule stops: the stop fail point is off, it
    parses, it has the expected version and slave delay does not hold it
    back) is admitted, and the round of the batcher ends with the batch of
    that one entry, which it publishes for application. *)
Theorem byte_limit_ends_batch_unless_empty
    (env : BatcherEnv) (op : BSONObj) (rest : OplogBuffer) (q : OpQueue)
    (limitBytes limitOps slaveDelaySecs : Z) (now : Date_t) (e : OplogEntry) (fuel : nat) :
  0 <= objsize op < 2 ^ 31 ->
  Forall (fun b => 0 <= objsize b < 2 ^ 31) rest ->
  0 <= limitBytes ->
  let limits :=
    mkBatchLimits limitBytes limitOps (_calculateSlaveDelayLatestTimestamp slaveDelaySecs now) in
  (empty q = false -> 0 <= getBytes q < 2 ^ 63 -> limitBytes < getBytes q + objsize op ->
   tryPopAndWaitForMore env (op :: rest) q limits = Ret (true, op :: rest, q, []))
  /\ (limitBytes < objsize op -> rsSyncApplyStop env = false -> OplogEntry_of op = Ret e ->
      getVersion e = kOplogVersion -> delayed limits e = false -> (2 <= fuel)%nat ->
      OpQueueBatcher_run_once fuel env slaveDelaySecs now limitBytes limitOps (op :: rest)
      = Ret (rest, Some (mkOpQueue [e] (objsize op) false), [])).
Proof.
  intros Hop Hrest Hlim limits. split.
  - intros Hne Hb Hover. unfold tryPopAndWaitForMore. rewrite Hne. simpl.
    rewrite (size_t_small (objsize op)) by lia.
    rewrite (size_t_small (getBytes q + objsize op)) by lia.
    destruct (Z.ltb_spec limitBytes (getBytes q + objsize op)); [reflexivity | lia].
  - intros Hover Hfp He Hv Hd Hfuel.
    destruct fuel as [|[|fuel]]; try lia.
    unfold OpQueueBatcher_run_once. fold limits.
    set (q1 := mkOpQueue [e] (objsize op) false).
    assert (Hq1 : emplace_back op OpQueue_new = Ret q1).
    { rewrite (emplace_back_ok op e OpQueue_new eq_refl He). unfold q1.
      cbn [OpQueue_new _batch _bytes app]. rewrite Z.add_0_l.
      rewrite (size_t_small (objsize op)) by lia.
      rewrite (size_t_small (objsize op)) by lia. reflexivity. }
    assert (Hsecond : tryPopAndWaitForMore env rest q1 limits = Ret (true, rest, q1, [])).
    { unfold tryPopAndWaitForMore. destruct rest as [|b rest']; [reflexivity |].
      inversion Hrest as [|? ? Hb _]; subst. simpl.
      rewrite (size_t_small (objsize b)) by lia.
      rewrite (size_t_small (objsize op + objsize b)) by lia.
      destruct (Z.ltb_spec limitBytes (objsize op + objsize b)); [reflexivity | lia]. }
    assert (Hfirst : exists ended,
               tryPopAndWaitForMore env (op :: rest) OpQueue_new limits
               = Ret (ended, rest, q1, [])).
    { unfold tryPopAndWaitForMore. simpl. rewrite Hfp, Hq1. simpl.
      rewrite Hv, Z.eqb_refl. simpl. rewrite Hd.
      destruct (mustBeProcessedAlone e); simpl; eauto. }
    destruct Hfirst as [ended Hfirst].
    cbn [fillBatch]. rewrite Hfirst. simpl.
    destruct ended; simpl; [reflexivity |].
    rewrite Hsecond. simpl. reflexivity.
Qed.

(** C7, as amended.  With slave delay enabled (the latest admissible date
    is [latest]) and an entry that reaches the slave-delay test (the byte
    limit does not end the batch first, the stop fail point is off, the
    entry parses and has the expected version): (A) an entry whose
    timestamp-as-date is strictly later than [latest] is taken back off the
    batch and left in the buffer, the batch ends, and the batcher sleeps a
    second when the batch is empty; (B) an entry whose timestamp-as-date is
    [latest] or earlier is not held back: if it need not be processed
    alone it is consumed into the batch. *)
Theorem slave_delay_holds_back_strictly_later_entries
    (env : BatcherEnv) (op : BSONObj) (rest : OplogBuffer) (q : OpQueue)
    (limits : BatchLimits) (latest : Date_t) (e : OplogEntry) :
  slaveDelayLatestTimestamp limits = Some latest ->
  (negb (empty q) && (bytes limits <? size_t (getBytes q + size_t (objsize op)))) = false ->
  rsSyncApplyStop env = false ->
  _mustShutdown q = false ->
  0 <= _bytes q < 2 ^ 64 ->
  OplogEntry_of op = Ret e ->
  getVersion e = kOplogVersion ->
  (latest < entryTime e ->
   tryPopAndWaitForMore env (op :: rest) q limits
   = Ret (true, op :: rest, q, if empty q then [SleepSecs 1] else []))
  /\ (entryTime e <= latest -> mustBeProcessedAlone e = false ->
      tryPopAndWaitForMore env (op :: rest) q limits
      = Ret (ops limits <=? getCount q + 1, rest,
             mkOpQueue (_batch q ++ [e]) (size_t (_bytes q + size_t (objsize op))) false, [])).
Proof.
  intros Hsd Hbytes Hfp Hs Hb He Hv.
  unfold tryPopAndWaitForMore. rewrite Hbytes, Hfp.
  rewrite (emplace_back_ok op e q Hs He). simpl.
  unfold back. simpl. rewrite last_snoc, Hv, Z.eqb_refl. simpl.
  unfold delayed. rewrite Hsd. split.
  - intros Hlate. destruct (Z.ltb_spec latest (entryTime e)); [| lia].
    rewrite (pop_back_emplaced op e q Hs He Hb). reflexivity.
  - intros Hnot Halone. destruct (Z.ltb_spec latest (entryTime e)); [lia |].
    rewrite Halone. simpl. unfold getCount. simpl. rewrite length_app. simpl.
    replace (Z.of_nat (length (_batch q) + 1)) with (Z.of_nat (length (_batch q)) + 1) by lia.
    reflexivity.
Qed.

(** **** What a batch is made of *)

Lemma emplace_back_Ret_inv (op : BSONObj) (q q1 : OpQueue) :
  emplace_back op q = Ret q1 ->
  exists e, _mustShutdown q = false /\ OplogEntry_of op = Ret e
            /\ q1 = mkOpQueue (_batch q ++ [e]) (size_t (_bytes q + size_t (objsize op))) false.
Proof.
  unfold emplace_back. destruct (_mustShutdown q) eqn:Hs; simpl; [discriminate |].
  intros H. apply bindR_Ret_inv in H as (e & He & H). exists e.
  rewrite (OplogEntry_of_raw _ _ He) in H. inversion H. auto.
Qed.

(** The queue once the entry just emplaced has been taken back. *)
Lemma pop_back_emplaced_batch (e : OplogEntry) (l : list OplogEntry) (b : Z) (q2 : OpQueue) :
  pop_back (mkOpQueue (l ++ [e]) b false) = Ret q2 ->
  _batch q2 = l /\ _bytes q2 = size_t (b - size_t (objsize (raw e))) /\ _mustShutdown q2 = false.
Proof.
  unfold pop_back, back. simpl. rewrite last_snoc, removelast_last.
  intros H; inversion H. auto.
Qed.

(** A call that admits nothing: the batch ends, the buffer and the entries
    of the batch are as before, and the shutdown flag is raised only on an
    empty batch, with the buffer empty and shutdown under way. *)
Definition admits_nothing (env : BatcherEnv) (oplogBuffer : OplogBuffer) (q : OpQueue)
  (ended : bool) (oplogBuffer' : OplogBuffer) (q' : OpQueue) : Prop :=
  ended = true /\ oplogBuffer' = oplogBuffer /\ _batch q' = _batch q
  /\ (_bytes q' = _bytes q \/ _bytes q' = size_t (_bytes q))
  /\ (_mustShutdown q' = _mustShutdown q
      \/ (_mustShutdown q' = true /\ oplogBuffer = [] /\ _batch q = []
          /\ inShutdown env = true)).

(** A call that admits the document at the head of the buffer. *)
Definition admits_head (limits : BatchLimits) (oplogBuffer : OplogBuffer) (q : OpQueue)
  (ended : bool) (oplogBuffer' : OplogBuffer) (q' : OpQueue) : Prop :=
  exists op e,
    oplogBuffer = op :: oplogBuffer' /\ OplogEntry_of op = Ret e
    /\ q' = mkOpQueue (_batch q ++ [e]) (size_t (_bytes q + size_t (objsize op))) false
    /\ _mustShutdown q = false
    /\ (_batch q = [] \/ size_t (_bytes q + size_t (objsize op)) <= bytes limits)
    /\ getVersion e = kOplogVersion
    /\ delayed limits e = false
    /\ (if mustBeProcessedAlone e then _batch q = [] /\ ended = true
        else ended = (ops limits <=? getCount q')).

Lemma size_t_sub_add (b s : Z) : size_t (size_t (b + size_t s) - size_t s) = size_t b.
Proof.
  unfold size_t. rewrite Zminus_mod_idemp_l. f_equal. lia.
Qed.

Lemma tryPopAndWaitForMore_cases (env : BatcherEnv) (oplogBuffer : OplogBuffer) (q : OpQueue)
    (limits : BatchLimits) ended oplogBuffer' q' ev :
  tryPopAndWaitForMore env oplogBuffer q limits = Ret (ended, oplogBuffer', q', ev) ->
  admits_nothing env oplogBuffer q ended oplogBuffer' q'
  \/ admits_head limits oplogBuffer q ended oplogBuffer' q'.
Proof.
  unfold tryPopAndWaitForMore. destruct oplogBuffer as [|op rest].
  { intros H. left. destruct (empty q) eqn:Hempty.
    - destruct (inShutdown env) eqn:Hshut.
      + unfold setMustShutdownFlag in H. rewrite Hempty in H. simpl in H.
        inversion H; subst. unfold admits_nothing. simpl.
        repeat split; auto. right. repeat split; auto.
        unfold empty in Hempty. destruct (_batch q); [reflexivity | discriminate].
      + inversion H; subst. unfold admits_nothing. auto 10.
    - inversion H; subst. unfold admits_nothing. auto 10. }
  destruct (negb (empty q) && (bytes limits <? size_t (getBytes q + size_t (objsize op))))
    eqn:Hbytes.
  { intros H; inversion H; subst. left. unfold admits_nothing. auto 10. }
  destruct (rsSyncApplyStop env).
  { intros H; inversion H; subst. left. unfold admits_nothing. auto 10. }
  intros H. apply bindR_Ret_inv in H as (q1 & Hq1 & H).
  apply emplace_back_Ret_inv in Hq1 as (e & Hs & He & ->).
  unfold back in H. cbn [_batch] in H. rewrite last_snoc in H.
  destruct (Z.eqb_spec (getVersion e) kOplogVersion) as [Hv | Hv]; [| discriminate].
  cbn [negb] in H.
  assert (Hpop : forall q2,
             pop_back (mkOpQueue (_batch q ++ [e])
                         (size_t (_bytes q + size_t (objsize op))) false) = Ret q2 ->
             admits_nothing env (op :: rest) q true (op :: rest) q2).
  { intros q2 Hq2. apply pop_back_emplaced_batch in Hq2 as (Hb & Hy & Hf).
    unfold admits_nothing. repeat split; auto.
    - right. rewrite Hy, (OplogEntry_of_raw _ _ He). apply size_t_sub_add.
    - left. congruence. }
  assert (Hfits : _batch q = [] \/ size_t (_bytes q + size_t (objsize op)) <= bytes limits).
  { apply andb_false_iff in Hbytes as [Hb | Hb].
    - left. apply negb_false_iff in Hb. unfold empty in Hb.
      destruct (_batch q); [reflexivity | discriminate].
    - right. apply Z.ltb_ge in Hb. exact Hb. }
  destruct (delayed limits e) eqn:Hdelayed.
  { apply bindR_Ret_inv in H as (q2 & Hq2 & H). inversion H; subst.
    left. eapply Hpop; eauto. }
  destruct (mustBeProcessedAlone e) eqn:Halone.
  - destruct (Z.eqb_spec (getCount (mkOpQueue (_batch q ++ [e])
                                      (size_t (_bytes q + size_t (objsize op))) false)) 1)
      as [Hone | Hmore].
    + simpl in H. inversion H; subst. right. exists op, e.
      rewrite Halone. repeat split; auto.
      unfold getCount in Hone. cbn [_batch] in Hone. rewrite length_app in Hone.
      destruct (_batch q); [reflexivity | simpl in Hone; lia].
    + apply bindR_Ret_inv in H as (q2 & Hq2 & H). inversion H; subst.
      left. eapply Hpop; eauto.
  - simpl in H. inversion H; subst. right. exists op, e.
    rewrite Halone. repeat split; auto.
Qed.

(** The loop of a round: [Inv] holds whenever the loop goes round again,
    and the batch published is what a last call, which ends the batch,
    leaves. *)
Lemma fillBatch_last_call (Inv : OplogBuffer -> OpQueue -> Prop) (env : BatcherEnv)
    (limits : BatchLimits) :
  (forall oplogBuffer q oplogBuffer' q',
      Inv oplogBuffer q -> admits_head limits oplogBuffer q false oplogBuffer' q' ->
      Inv oplogBuffer' q') ->
  forall fuel oplogBuffer q oplogBuffer' q' ev,
    Inv oplogBuffer q ->
    fillBatch fuel env oplogBuffer q limits = Ret (oplogBuffer', q', ev) ->
    exists oplogBuffer0 q0,
      Inv oplogBuffer0 q0
      /\ (admits_nothing env oplogBuffer0 q0 true oplogBuffer' q'
          \/ admits_head limits oplogBuffer0 q0 true oplogBuffer' q').
Proof.
  intros Hstep. induction fuel as [|fuel IH]; intros oplogBuffer q oplogBuffer' q' ev Hinv;
    simpl; [discriminate |].
  intros H. apply bindR_Ret_inv in H as ([[[ended b1] q1] ev1] & Htry & H).
  pose proof (tryPopAndWaitForMore_cases _ _ _ _ _ _ _ _ Htry) as Hcases.
  destruct ended.
  - inversion H; subst. exists oplogBuffer, q. auto.
  - apply bindR_Ret_inv in H as ([[b2 q2] ev2] & Hrec & H). inversion H; subst.
    destruct Hcases as [(Hended & _) | Hhead]; [discriminate |].
    eapply IH; [| exact Hrec]. eapply Hstep; eauto.
Qed.

(** An entry the batcher admitted: the parse of its own raw document,
    with the oplog version expected, and not held back by slave delay. *)
Definition admitted (limits : BatchLimits) (e : OplogEntry) : Prop :=
  OplogEntry_of (raw e) = Ret e /\ getVersion e = kOplogVersion /\ delayed limits e = false.

(** What holds of the buffer and the batch each time the loop of a round
    goes round again; [oplogBuffer0] is the buffer at the start of the
    round. *)
Definition batch_in_progress (limits : BatchLimits) (oplogBuffer0 oplogBuffer : OplogBuffer)
  (q : OpQueue) : Prop :=
  map raw (_batch q) ++ oplogBuffer = oplogBuffer0
  /\ Forall (admitted limits) (_batch q)
  /\ Forall (fun e => mustBeProcessedAlone e = false) (_batch q)
  /\ 0 <= _bytes q < 2 ^ 64
  /\ ((length (_batch q) <= 1)%nat \/ _bytes q <= bytes limits)
  /\ (getCount q = 0 \/ getCount q < ops limits)
  /\ _mustShutdown q = false.

(** What holds of them when the round ends. *)
Definition batch_complete (env : BatcherEnv) (limits : BatchLimits)
  (oplogBuffer0 oplogBuffer : OplogBuffer) (q : OpQueue) : Prop :=
  map raw (_batch q) ++ oplogBuffer = oplogBuffer0
  /\ Forall (admitted limits) (_batch q)
  /\ (Forall (fun e => mustBeProcessedAlone e = false) (_batch q) \/ exists e, _batch q = [e])
  /\ ((length (_batch q) <= 1)%nat \/ _bytes q <= bytes limits)
  /\ getCount q <= Z.max 1 (ops limits)
  /\ (_mustShutdown q = true -> inShutdown env = true /\ oplogBuffer = [] /\ _batch q = []).

Lemma size_t_range (n : Z) : 0 <= size_t n < 2 ^ 64.
Proof. unfold size_t. apply Z.mod_pos_bound. lia. Qed.

Lemma getCount_snoc (l : list OplogEntry) (e : OplogEntry) (b : Z) (s : bool) (b0 : Z) (s0 : bool) :
  getCount (mkOpQueue (l ++ [e]) b s) = getCount (mkOpQueue l b0 s0) + 1.
Proof. unfold getCount. cbn [_batch]. rewrite length_app. simpl. lia. Qed.

Lemma batch_in_progress_step (limits : BatchLimits) (oplogBuffer0 oplogBuffer : OplogBuffer)
    (q : OpQueue) (oplogBuffer' : OplogBuffer) (q' : OpQueue) :
  batch_in_progress limits oplogBuffer0 oplogBuffer q ->
  admits_head limits oplogBuffer q false oplogBuffer' q' ->
  batch_in_progress limits oplogBuffer0 oplogBuffer' q'.
Proof.
  intros (Hpre & Hadm & Halone & Hrange & Hbytes & Hcount & Hflag)
         (op & e & -> & He & -> & _ & Hfits & Hv & Hd & Hend).
  pose proof (OplogEntry_of_raw _ _ He) as Hraw.
  destruct (mustBeProcessedAlone e) eqn:Hal; [destruct Hend; discriminate |].
  unfold batch_in_progress. cbn [_batch _bytes _mustShutdown].
  split; [| split; [| split; [| split; [| split; [| split]]]]].
  - rewrite map_app, <- app_assoc. simpl. rewrite Hraw. exact Hpre.
  - apply Forall_app. split; [exact Hadm |]. constructor; [| constructor].
    unfold admitted. rewrite Hraw. auto.
  - apply Forall_app. split; [exact Halone |]. constructor; [exact Hal | constructor].
  - apply size_t_range.
  - destruct Hfits as [Hnil | Hle]; [left; rewrite Hnil; simpl; lia | right; exact Hle].
  - right. symmetry in Hend. apply Z.leb_gt in Hend. exact Hend.
  - reflexivity.
Qed.

Lemma batch_complete_last (env : BatcherEnv) (limits : BatchLimits)
    (oplogBuffer0 oplogBuffer : OplogBuffer) (q : OpQueue) (oplogBuffer' : OplogBuffer)
    (q' : OpQueue) :
  batch_in_progress limits oplogBuffer0 oplogBuffer q ->
  admits_nothing env oplogBuffer q true oplogBuffer' q'
  \/ admits_head limits oplogBuffer q true oplogBuffer' q' ->
  batch_complete env limits oplogBuffer0 oplogBuffer' q'.
Proof.
  intros (Hpre & Hadm & Halone & Hrange & Hbytes & Hcount & Hflag) [Hnone | Hhead].
  - destruct Hnone as (_ & -> & Hb & Hy & Hs).
    assert (Hy' : _bytes q' = _bytes q).
    { destruct Hy as [Hy | Hy]; [exact Hy |]. rewrite Hy. apply size_t_small. exact Hrange. }
    unfold batch_complete. rewrite Hb, Hy'.
    split; [exact Hpre |]. split; [exact Hadm |]. split; [left; exact Halone |].
    split; [exact Hbytes |]. split.
    + unfold getCount in *. rewrite Hb. lia.
    + intros Hq'. destruct Hs as [Hs | (_ & H1 & H2 & H3)]; [congruence | auto].
  - destruct Hhead as (op & e & -> & He & -> & _ & Hfits & Hv & Hd & Hend).
    pose proof (OplogEntry_of_raw _ _ He) as Hraw.
    unfold batch_complete. cbn [_batch _bytes _mustShutdown].
    split; [| split; [| split; [| split; [| split]]]].
    + rewrite map_app, <- app_assoc. simpl. rewrite Hraw. exact Hpre.
    + apply Forall_app. split; [exact Hadm |]. constructor; [| constructor].
      unfold admitted. rewrite Hraw. auto.
    + destruct (mustBeProcessedAlone e) eqn:Hal.
      * right. destruct Hend as [Hnil _]. rewrite Hnil. exists e. reflexivity.
      * left. apply Forall_app. split; [exact Halone |]. constructor; [exact Hal | constructor].
    + destruct Hfits as [Hnil | Hle]; [left; rewrite Hnil; simpl; lia | right; exact Hle].
    + rewrite (getCount_snoc _ _ _ _ (_bytes q) (_mustShutdown q)).
      replace (mkOpQueue (_batch q) (_bytes q) (_mustShutdown q)) with q by (destruct q; reflexivity).
      lia.
    + discriminate.
Qed.

Lemma fillBatch_complete (fuel : nat) (env : BatcherEnv) (limits : BatchLimits)
    (oplogBuffer oplogBuffer' : OplogBuffer) (q : OpQueue) ev :
  fillBatch fuel env oplogBuffer OpQueue_new limits = Ret (oplogBuffer', q, ev) ->
  batch_complete env limits oplogBuffer oplogBuffer' q.
Proof.
  intros H.
  apply (fillBatch_last_call (batch_in_progress limits oplogBuffer)) in H
    as (b0 & q0 & Hinv & Hlast).
  - eapply batch_complete_last; eauto.
  - apply batch_in_progress_step.
  - unfold batch_in_progress, OpQueue_new, getCount. simpl.
    repeat split; auto; try constructor; lia.
Qed.

(** The batch a round publishes, if any. *)
Definition published (oq : option OpQueue) : list OplogEntry :=
  match oq with Some q => _batch q | None => [] end.

Lemma OpQueueBatcher_run_once_complete (fuel : nat) (env : BatcherEnv) (slaveDelaySecs : Z)
    (now : Date_t) (limitBytes limitOps : Z) (oplogBuffer oplogBuffer' : OplogBuffer)
    (oq : option OpQueue) ev :
  OpQueueBatcher_run_once fuel env slaveDelaySecs now limitBytes limitOps oplogBuffer
  = Ret (oplogBuffer', oq, ev) ->
  exists q,
    batch_complete env
      (mkBatchLimits limitBytes limitOps (_calculateSlaveDelayLatestTimestamp slaveDelaySecs now))
      oplogBuffer oplogBuffer' q
    /\ _batch q = published oq
    /\ oq = if empty q && negb (mustShutdown q) then None else Some q.
Proof.
  unfold OpQueueBatcher_run_once. intros H.
  apply bindR_Ret_inv in H as ([[b1 q] ev1] & Hfill & H).
  apply fillBatch_complete in Hfill. exists q.
  destruct (empty q && negb (mustShutdown q)) eqn:Hnone; inversion H; subst.
  - split; [exact Hfill |]. split; [| reflexivity].
    apply andb_true_iff in Hnone as [Hempty _]. unfold empty in Hempty. simpl.
    destruct (_batch q); [reflexivity | discriminate].
  - auto.
Qed.

(** X6.  The batch a round of the batcher publishes is the head of the
    oplog buffer, parsed: the raw documents of its entries, in order,
    followed by what the round leaves in the buffer, are the buffer the
    round started from (nothing is lost, repeated or reordered, and a round
    that publishes nothing consumes nothing); and each entry is the parse of
    its own document and has the expected oplog version. *)
Theorem batch_is_the_parsed_head_of_the_buffer
    (fuel : nat) (env : BatcherEnv) (slaveDelaySecs : Z) (now : Date_t)
    (limitBytes limitOps : Z) (oplogBuffer oplogBuffer' : OplogBuffer)
    (oq : option OpQueue) (ev : list BatcherEvent) :
  OpQueueBatcher_run_once fuel env slaveDelaySecs now limitBytes limitOps oplogBuffer
  = Ret (oplogBuffer', oq, ev) ->
  map raw (published oq) ++ oplogBuffer' = oplogBuffer
  /\ Forall (fun e => OplogEntry_of (raw e) = Ret e /\ getVersion e = kOplogVersion)
       (published oq).
Proof.
  intros H. apply OpQueueBatcher_run_once_complete in H as (q & Hq & Hb & _).
  destruct Hq as (Hpre & Hadm & _). rewrite <- Hb. split; [exact Hpre |].
  eapply Forall_impl; [exact Hadm |]. intros e (H1 & H2 & _). auto.
Qed.

(** X7.  An entry that must be processed alone (a command other than an
    unprepared applyOps or commitTransaction, or an operation on
    [system.views] or on [admin.system.version]) is the only entry of the
    batch that holds it. *)
Theorem entry_to_process_alone_is_alone_in_its_batch
    (fuel : nat) (env : BatcherEnv) (slaveDelaySecs : Z) (now : Date_t)
    (limitBytes limitOps : Z) (oplogBuffer oplogBuffer' : OplogBuffer)
    (oq : option OpQueue) (ev : list BatcherEvent) (e : OplogEntry) :
  OpQueueBatcher_run_once fuel env slaveDelaySecs now limitBytes limitOps oplogBuffer
  = Ret (oplogBuffer', oq, ev) ->
  In e (published oq) -> mustBeProcessedAlone e = true ->
  published oq = [e].
Proof.
  intros H Hin Halone. apply OpQueueBatcher_run_once_complete in H as (q & Hq & Hb & _).
  destruct Hq as (_ & _ & [Hall | [e0 He0]] & _); rewrite <- Hb in *.
  - rewrite List.Forall_forall in Hall. apply Hall in Hin. congruence.
  - rewrite He0 in *. destruct Hin as [-> | []]. reflexivity.
Qed.

(** X8.  A published batch has at most as many entries as the operation
    limit allows, or one entry if the limit is below one; and a batch of
    more than one entry keeps within the byte limit. *)
Theorem batch_keeps_within_the_limits
    (fuel : nat) (env : BatcherEnv) (slaveDelaySecs : Z) (now : Date_t)
    (limitBytes limitOps : Z) (oplogBuffer oplogBuffer' : OplogBuffer)
    (q : OpQueue) (ev : list BatcherEvent) :
  OpQueueBatcher_run_once fuel env slaveDelaySecs now limitBytes limitOps oplogBuffer
  = Ret (oplogBuffer', Some q, ev) ->
  getCount q <= Z.max 1 limitOps /\ (1 < getCount q -> getBytes q <= limitBytes).
Proof.
  intros H. apply OpQueueBatcher_run_once_complete in H as (q0 & Hq & _ & Hoq).
  destruct (empty q0 && negb (mustShutdown q0)); inversion Hoq; subst q0.
  destruct Hq as (_ & _ & _ & Hbytes & Hcount & _). split; [exact Hcount |].
  unfold getCount, getBytes. intros Hmany. destruct Hbytes as [Hone | Hle]; [lia | exact Hle].
Qed.

(** X9.  The batcher publishes an empty batch only to announce shutdown:
    a published batch whose shutdown flag is not set has an entry; and the
    flag is set only while shutting down, on an empty batch, when the
    buffer had nothing left. *)
Theorem batcher_publishes_an_empty_batch_only_at_shutdown
    (fuel : nat) (env : BatcherEnv) (slaveDelaySecs : Z) (now : Date_t)
    (limitBytes limitOps : Z) (oplogBuffer oplogBuffer' : OplogBuffer)
    (q : OpQueue) (ev : list BatcherEvent) :
  OpQueueBatcher_run_once fuel env slaveDelaySecs now limitBytes limitOps oplogBuffer
  = Ret (oplogBuffer', Some q, ev) ->
  if mustShutdown q
  then inShutdown env = true /\ oplogBuffer = [] /\ oplogBuffer' = [] /\ _batch q = []
  else _batch q <> [].
Proof.
  intros H. apply OpQueueBatcher_run_once_complete in H as (q0 & Hq & _ & Hoq).
  destruct (empty q0 && negb (mustShutdown q0)) eqn:Hnone; inversion Hoq; subst q0.
  destruct Hq as (Hpre & _ & _ & _ & _ & Hflag). unfold mustShutdown in *.
  destruct (_mustShutdown q).
  - destruct (Hflag eq_refl) as (H1 & H2 & H3). rewrite H2, H3 in Hpre. simpl in Hpre. auto.
  - rewrite andb_true_r in Hnone. unfold empty in Hnone.
    destruct (_batch q); [discriminate | discriminate].
Qed.

(** X10.  With slave delay enabled, no entry of a published batch bears a
    timestamp later than the clock reading of the round less the delay. *)
Theorem batch_holds_no_entry_that_slave_delay_holds_back
    (fuel : nat) (env : BatcherEnv) (slaveDelaySecs : Z) (now : Date_t)
    (limitBytes limitOps : Z) (oplogBuffer oplogBuffer' : OplogBuffer)
    (oq : option OpQueue) (ev : list BatcherEvent) :
  0 < slaveDelaySecs ->
  OpQueueBatcher_run_once fuel env slaveDelaySecs now limitBytes limitOps oplogBuffer
  = Ret (oplogBuffer', oq, ev) ->
  Forall (fun e => entryTime e <= now - slaveDelaySecs * 1000) (published oq).
Proof.
  intros Hsd H. apply OpQueueBatcher_run_once_complete in H as (q & Hq & Hb & _).
  destruct Hq as (_ & Hadm & _). rewrite <- Hb.
  eapply Forall_impl; [exact Hadm |]. intros e (_ & _ & Hd).
  unfold delayed, _calculateSlaveDelayLatestTimestamp in Hd. cbn [slaveDelayLatestTimestamp] in Hd.
  destruct (Z.leb_spec slaveDelaySecs 0); [lia |].
  apply Z.ltb_ge in Hd. exact Hd.
Qed.

Lemma tryPopAndWaitForMore_OutOfFuel (env : BatcherEnv) (oplogBuffer : OplogBuffer)
    (q : OpQueue) (limits : BatchLimits) :
  tryPopAndWaitForMore env oplogBuffer q limits = OutOfFuel ->
  exists op, parseOplogEntry op = OutOfFuel.
Proof.
  unfold tryPopAndWaitForMore. destruct oplogBuffer as [|op rest].
  { unfold setMustShutdownFlag, invariant.
    destruct (empty q); [| discriminate]. destruct (inShutdown env); discriminate. }
  destruct (negb (empty q) && _); [discriminate |].
  destruct (rsSyncApplyStop env); [discriminate |].
  unfold emplace_back, invariant, OplogEntry_of.
  destruct (negb (_mustShutdown q)); simpl; [| discriminate].
  destruct (parseOplogEntry op) as [e | | | | | |] eqn:Hparse; simpl; try discriminate; [| eauto].
  unfold back. cbn [_batch]. rewrite last_snoc.
  destruct (negb (getVersion (set_raw op e) =? kOplogVersion)); [discriminate |].
  unfold pop_back, back. cbn [_batch]. rewrite last_snoc. simpl.
  destruct (delayed limits (set_raw op e)); [discriminate |].
  destruct (mustBeProcessedAlone (set_raw op e)); [| discriminate].
  destruct (getCount _ =? 1); discriminate.
Qed.

Lemma fillBatch_fuel (env : BatcherEnv) (limits : BatchLimits) :
  forall (fuel1 fuel2 : nat) (oplogBuffer : OplogBuffer) (q : OpQueue),
    (length oplogBuffer < fuel1)%nat -> (length oplogBuffer < fuel2)%nat ->
    fillBatch fuel1 env oplogBuffer q limits = fillBatch fuel2 env oplogBuffer q limits.
Proof.
  induction fuel1 as [|fuel1 IH]; intros fuel2 oplogBuffer q H1 H2; [lia |].
  destruct fuel2 as [|fuel2]; [lia |]. simpl.
  destruct (tryPopAndWaitForMore env oplogBuffer q limits)
    as [[[[ended b1] q1] ev1] | | | | | |] eqn:Htry; simpl; try reflexivity.
  destruct ended; [reflexivity |].
  apply tryPopAndWaitForMore_cases in Htry as [(Hended & _) | (op & e & -> & _)];
    [discriminate |].
  simpl in H1, H2. rewrite (IH fuel2 b1 q1) by lia. reflexivity.
Qed.

Lemma fillBatch_OutOfFuel (env : BatcherEnv) (limits : BatchLimits) :
  forall (fuel : nat) (oplogBuffer : OplogBuffer) (q : OpQueue),
    (length oplogBuffer < fuel)%nat ->
    fillBatch fuel env oplogBuffer q limits = OutOfFuel ->
    exists op, parseOplogEntry op = OutOfFuel.
Proof.
  induction fuel as [|fuel IH]; intros oplogBuffer q Hfuel; [lia |]. simpl.
  destruct (tryPopAndWaitForMore env oplogBuffer q limits)
    as [[[[ended b1] q1] ev1] | | | | | |] eqn:Htry; simpl; try discriminate.
  - destruct ended; [discriminate |].
    apply tryPopAndWaitForMore_cases in Htry as [(Hended & _) | (op & e & -> & _)];
      [discriminate |].
    simpl in Hfuel. specialize (IH b1 q1 ltac:(lia)).
    destruct (fillBatch fuel env b1 q1 limits) as [[[b2 q2] ev2] | | | | | |];
      simpl; try discriminate. intros _. apply IH. reflexivity.
  - intros _. eapply tryPopAndWaitForMore_OutOfFuel, Htry.
Qed.

(** X11.  A round of the batcher ends: its loop calls
    [tryPopAndWaitForMore] at most once more than the buffer holds
    documents, so that with that much fuel the round has the outcome it has
    with any more; and as long as the parser of oplog entries ends, the
    round does not run out of fuel. *)
Theorem batcher_round_ends_within_the_length_of_the_buffer
    (fuel : nat) (env : BatcherEnv) (slaveDelaySecs : Z) (now : Date_t)
    (limitBytes limitOps : Z) (oplogBuffer : OplogBuffer) :
  (length oplogBuffer < fuel)%nat ->
  OpQueueBatcher_run_once fuel env slaveDelaySecs now limitBytes limitOps oplogBuffer
  = OpQueueBatcher_run_once (S (length oplogBuffer)) env slaveDelaySecs now limitBytes limitOps
      oplogBuffer
  /\ ((forall op, parseOplogEntry op <> OutOfFuel) ->
      OpQueueBatcher_run_once fuel env slaveDelaySecs now limitBytes limitOps oplogBuffer
      <> OutOfFuel).
Proof.
  intros Hfuel. unfold OpQueueBatcher_run_once. split.
  - rewrite (fillBatch_fuel env _ fuel (S (length oplogBuffer))) by lia. reflexivity.
  - intros Hparse Hout.
    destruct (fillBatch fuel env oplogBuffer OpQueue_new _) as [[[b q] ev] | | | | | |] eqn:Hfill;
      simpl in Hout; try discriminate.
    + destruct (empty q && negb (mustShutdown q)); discriminate.
    + apply fillBatch_OutOfFuel in Hfill as [op Hop]; [| exact Hfuel].
      exact (Hparse op Hop).
Qed.

(** *** The writer partitioner (sync_tail.cpp) *)

Record CollectionProperties : Type := mkCollectionProperties {
  isCapped : bool;
  collator : option Collator }.

Definition getCollectionPropertiesImpl (nsName : string) : CollectionProperties :=
  let collProperties := mkCollectionProperties false None in
  match getDb nsName with
  | None => collProperties
  | Some database =>
      match getCollection database nsName with
      | None => collProperties
      | Some collection =>
          mkCollectionProperties (Collection_isCapped collection)
            (Collection_getDefaultCollator collection)
      end
  end.

(** [CachedCollectionProperties::getCollectionProperties] *)
Definition getCollectionProperties (_cache : gmap string CollectionProperties)
  (nsName : string) : CollectionProperties * gmap string CollectionProperties :=
  match _cache !! nsName with
  | Some props => (props, _cache)
  | None =>
      let collProperties := getCollectionPropertiesImpl nsName in
      (collProperties, <[nsName := collProperties]> _cache)
  end.

(** What the partitioner fills: the operations of each writer thread, and
    the operations it derives along the way. *)
Record FillState : Type := mkFillState {
  writerVectors : list (list OplogEntry);
  derivedOps : list (list OplogEntry) }.

(** The locals of one call: the pending operations of each session and the
    cache of collection properties. *)
Record FillLocals : Type := mkFillLocals {
  pendingTxnOps : gmap LogicalSessionId (list OplogEntry);
  collPropertiesCache : gmap string CollectionProperties }.

Definition emplace_derived (d : list OplogEntry) (st : FillState) : FillState :=
  mkFillState (writerVectors st) (derivedOps st ++ [d]).

Definition push_to_writer (i : nat) (op : OplogEntry) (st : FillState) : FillState :=
  mkFillState (alter (fun writer => writer ++ [op]) i (writerVectors st)) (derivedOps st).

(** [try { ... } catch (...) { fassertFailedWithStatusNoTrace(msgid, ...) }] *)
Definition catchAll {A : Type} (msgid : Z) (m : Result A) : Result A :=
  match m with
  | Throw st => Fatal msgid (Some st)
  | r => r
  end.

Section Step.

(** The recursive call on a list of derived operations, without a session
    tracker, and the oplog and fuel of the reads of the transaction
    assembler. *)
Variable recur : list OplogEntry -> FillState -> Result FillState.
Variable oplog : Oplog.
Variable chainFuel : nat.

Definition trackSession (op : OplogEntry) (st : FillState)
  (sessionUpdateTracker : option SessionUpdateTracker)
  : Result (FillState * option SessionUpdateTracker) :=
  match sessionUpdateTracker with
  | None => Ret (st, None)
  | Some tracker =>
      let '(newOplogWrites, tracker') := updateOrFlush tracker op in
      match newOplogWrites with
      | Some writes =>
          st' ← recur writes (emplace_derived writes st); Ret (st', Some tracker')
      | None => Ret (st, Some tracker')
      end
  end.

(** The pending list of the session once [op] has been saved on it. *)
Definition heldWith (op : OplogEntry) (pendingList : list OplogEntry) : list OplogEntry :=
  match pendingList with
  | front :: _ =>
      if negb (bool_decide (getTxnNumber front = getTxnNumber op)) then [op]
      else pendingList ++ [op]
  | [] => [op]
  end.

Definition holdPending (op : OplogEntry) (pending : gmap LogicalSessionId (list OplogEntry))
  : Result (gmap LogicalSessionId (list OplogEntry)) :=
  match getSessionId op with
  | None => Undefined "*op.getSessionId()"
  | Some sid => Ret (<[sid := heldWith op (default [] (pending !! sid))]> pending)
  end.

(** The part of the loop body for CRUD operations: the hash refined by the
    document id, and the capped-collection mark. *)
Definition crudPart (op : OplogEntry) (hash : Z) (_cache : gmap string CollectionProperties)
  : OplogEntry * Z * gmap string CollectionProperties :=
  if isCrudOpType op then
    let '(collProperties, _cache') := getCollectionProperties _cache (ns (getNss op)) in
    let hash' :=
      if supportsDocLocking && negb (isCapped collProperties)
      then MurmurHash3_x86_32 (elementHasher_hash op (collator collProperties)) hash mod 2 ^ 32
      else hash in
    let op' :=
      if bool_decide (getOpType op = kInsert) && isCapped collProperties
      then set_isForCappedCollection true op else op in
    (op', hash', _cache')
  else (op, hash, _cache).

(** The body of the loop over the operations. *)
Definition fillStep (op : OplogEntry) (loc : FillLocals) (st : FillState)
  (sessionUpdateTracker : option SessionUpdateTracker)
  : Result (FillLocals * FillState * option SessionUpdateTracker) :=
  if OpTime_le (getOpTime op) beginApplyingOpTime then Ret (loc, st, sessionUpdateTracker)
  else
    let hash := StringMapHasher_hash (ns (getNss op)) mod 2 ^ 32 in
    '(st, sessionUpdateTracker) ← trackSession op st sessionUpdateTracker;
    if isInPendingTransaction op then
      pending' ← holdPending op (pendingTxnOps loc);
      Ret (mkFillLocals pending' (collPropertiesCache loc), st, sessionUpdateTracker)
    else
      let '(op, hash, _cache) := crudPart op hash (collPropertiesCache loc) in
      if isUnpreparedApplyOps op then
        st' ← catchAll 50711
                (d ← extractOperations op; recur d (emplace_derived d st));
        Ret (mkFillLocals (pendingTxnOps loc) _cache, st', sessionUpdateTracker)
      else if isUnpreparedCommit op then
        '(pending', st') ←
          catchAll 51116
            (match getSessionId op with
             | None => Undefined "*op.getSessionId()"
             | Some sid =>
                 let pendingList := default [] (pendingTxnOps loc !! sid) in
                 d ← readTransactionOperationsFromOplogChain chainFuel oplog op pendingList;
                 st' ← recur d (emplace_derived d st);
                 Ret (<[sid := []]> (pendingTxnOps loc), st')
             end);
        Ret (mkFillLocals pending' _cache, st', sessionUpdateTracker)
      else
        let numWriters := Z.of_nat (length (writerVectors st)) in
        if numWriters =? 0 then Undefined "hash % numWriters"
        else
          Ret (mkFillLocals (pendingTxnOps loc) _cache,
               push_to_writer (Z.to_nat (hash mod numWriters)) op st,
               sessionUpdateTracker).

(** [for (auto&& op : *ops)] *)
Fixpoint fillLoop (operations : list OplogEntry) (loc : FillLocals) (st : FillState)
  (sessionUpdateTracker : option SessionUpdateTracker)
  : Result (FillState * option SessionUpdateTracker) :=
  match operations with
  | [] => Ret (st, sessionUpdateTracker)
  | op :: rest =>
      '(loc', st', tracker') ← fillStep op loc st sessionUpdateTracker;
      fillLoop rest loc' st' tracker'
  end.

End Step.

(** [SyncTail::_fillWriterVectors] with a session tracker argument; [fuel]
    bounds the nesting of derived operations. *)
Fixpoint _fillWriterVectors (fuel : nat) (oplog : Oplog) (chainFuel : nat)
  (operations : list OplogEntry) (st : FillState)
  (sessionUpdateTracker : option SessionUpdateTracker)
  : Result (FillState * option SessionUpdateTracker) :=
  match fuel with
  | O => OutOfFuel
  | S fuel' =>
      fillLoop
        (fun d s => r ← _fillWriterVectors fuel' oplog chainFuel d s None; Ret (fst r))
        oplog chainFuel operations (mkFillLocals ∅ ∅) st sessionUpdateTracker
  end.

(** [SyncTail::_fillWriterVectors] without one: it tracks the sessions of
    the batch itself and partitions what the tracker still holds at the
    end. *)
Definition _fillWriterVectors_batch (fuel : nat) (oplog : Oplog) (chainFuel : nat)
  (operations : list OplogEntry) (st : FillState) : Result FillState :=
  '(st1, tracker) ← _fillWriterVectors fuel oplog chainFuel operations st
                      (Some SessionUpdateTracker_new);
  let newOplogWrites :=
    match tracker with Some t => flushAll t | None => [] end in
  match newOplogWrites with
  | [] => Ret st1
  | _ :: _ =>
      r ← _fillWriterVectors fuel oplog chainFuel newOplogWrites
            (emplace_derived newOplogWrites st1) None;
      Ret (fst r)
  end.

(** **** Properties of the partitioner *)

Lemma catchAll_Ret_inv {A : Type} (msgid : Z) (m : Result A) (a : A) :
  catchAll msgid m = Ret a -> m = Ret a.
Proof. destruct m; simpl; congruence. Qed.

Lemma crudPart_pending (op op' : OplogEntry) (hash hash' : Z)
    (c c' : gmap string CollectionProperties) :
  crudPart op hash c = (op', hash', c') ->
  isInPendingTransaction op' = isInPendingTransaction op.
Proof.
  unfold crudPart. destruct (isCrudOpType op).
  - destruct (getCollectionProperties c (ns (getNss op))) as [props c1].
    destruct (bool_decide (getOpType op = kInsert) && isCapped props);
      intros H; inversion H; reflexivity.
  - intros H; inversion H; reflexivity.
Qed.

Section PartitionInvariant.

(** A property of the writer vectors that survives the push of an entry
    that is not pending. *)
Variable Inv : list (list OplogEntry) -> Prop.
Hypothesis Inv_push :
  forall wv i op, isInPendingTransaction op = false -> Inv wv ->
                  Inv (alter (fun writer => writer ++ [op]) i wv).

Definition preserves (recur : list OplogEntry -> FillState -> Result FillState) : Prop :=
  forall d st st', Inv (writerVectors st) -> recur d st = Ret st' -> Inv (writerVectors st').

Lemma trackSession_preserves recur op st tracker st' tracker' :
  preserves recur -> Inv (writerVectors st) ->
  trackSession recur op st tracker = Ret (st', tracker') -> Inv (writerVectors st').
Proof.
  intros Hrec Hst. unfold trackSession. destruct tracker as [t |].
  - destruct (updateOrFlush t op) as [[w |] t'].
    + intros H. apply bindR_Ret_inv in H as (s1 & H1 & H2). inversion H2; subst.
      eapply Hrec; [| exact H1]. exact Hst.
    + intros H; inversion H; subst. exact Hst.
  - intros H; inversion H; subst. exact Hst.
Qed.

Lemma fillStep_preserves recur oplog chainFuel op loc st tracker loc' st' tracker' :
  preserves recur -> Inv (writerVectors st) ->
  fillStep recur oplog chainFuel op loc st tracker = Ret (loc', st', tracker') ->
  Inv (writerVectors st').
Proof.
  intros Hrec Hst. unfold fillStep.
  destruct (OpTime_le (getOpTime op) beginApplyingOpTime).
  { intros H; inversion H; subst. exact Hst. }
  intros H. apply bindR_Ret_inv in H as ([st1 tr1] & Htrack & H).
  pose proof (trackSession_preserves _ _ _ _ _ _ Hrec Hst Htrack) as Hst1.
  destruct (isInPendingTransaction op) eqn:Hpend.
  { apply bindR_Ret_inv in H as (p' & _ & H). inversion H; subst. exact Hst1. }
  destruct (crudPart op _ (collPropertiesCache loc)) as [[op' hash'] c'] eqn:Hcrud.
  pose proof (crudPart_pending _ _ _ _ _ _ Hcrud) as Hop'. rewrite Hpend in Hop'.
  destruct (isUnpreparedApplyOps op').
  { apply bindR_Ret_inv in H as (s2 & H2 & H). inversion H; subst.
    apply catchAll_Ret_inv, bindR_Ret_inv in H2 as (d & _ & H2).
    eapply Hrec; [| exact H2]. exact Hst1. }
  destruct (isUnpreparedCommit op').
  { apply bindR_Ret_inv in H as ([p2 s2] & H2 & H). inversion H; subst.
    apply catchAll_Ret_inv in H2. destruct (getSessionId op'); [| discriminate].
    apply bindR_Ret_inv in H2 as (d & _ & H2).
    apply bindR_Ret_inv in H2 as (s3 & H3 & H2). inversion H2; subst.
    eapply Hrec; [| exact H3]. exact Hst1. }
  destruct (Z.of_nat (length (writerVectors st1)) =? 0); [discriminate |].
  inversion H; subst. unfold push_to_writer. simpl.
  apply Inv_push; assumption.
Qed.

Lemma fillLoop_preserves recur oplog chainFuel operations :
  preserves recur ->
  forall loc st tracker st' tracker',
  Inv (writerVectors st) ->
  fillLoop recur oplog chainFuel operations loc st tracker = Ret (st', tracker') ->
  Inv (writerVectors st').
Proof.
  intros Hrec. induction operations as [|op rest IH]; intros loc st tracker st' tracker' Hst.
  - simpl. intros H; inversion H; subst. exact Hst.
  - simpl. intros H. apply bindR_Ret_inv in H as ([[loc1 st1] tr1] & Hstep & H).
    eapply IH; [| exact H]. eapply fillStep_preserves; eauto.
Qed.

Lemma _fillWriterVectors_preserves (fuel : nat) oplog chainFuel :
  forall operations st tracker st' tracker',
  Inv (writerVectors st) ->
  _fillWriterVectors fuel oplog chainFuel operations st tracker = Ret (st', tracker') ->
  Inv (writerVectors st').
Proof.
  induction fuel as [|fuel IH]; intros operations st tracker st' tracker' Hst; simpl.
  - discriminate.
  - apply fillLoop_preserves; [| exact Hst].
    intros d s s' Hs H. apply bindR_Ret_inv in H as ([s1 t1] & H1 & H). inversion H; subst.
    eapply IH; eauto.
Qed.

Lemma _fillWriterVectors_batch_preserves (fuel : nat) oplog chainFuel operations st st' :
  Inv (writerVectors st) ->
  _fillWriterVectors_batch fuel oplog chainFuel operations st = Ret st' ->
  Inv (writerVectors st').
Proof.
  intros Hst. unfold _fillWriterVectors_batch. intros H.
  apply bindR_Ret_inv in H as ([st1 tracker] & H1 & H).
  pose proof (_fillWriterVectors_preserves _ _ _ _ _ _ _ _ Hst H1) as Hst1.
  destruct (match tracker with Some t => flushAll t | None => [] end) as [|w ws].
  - inversion H; subst. exact Hst1.
  - apply bindR_Ret_inv in H as ([s2 t2] & H2 & H). inversion H; subst.
    eapply _fillWriterVectors_preserves; [| exact H2]. exact Hst1.
Qed.

End PartitionInvariant.

(** No writer vector holds an entry of a pending transaction. *)
Definition no_pending (st : FillState) : Prop :=
  Forall (Forall (fun e => isInPendingTransaction e = false)) (writerVectors st).

Lemma no_pending_push (wv : list (list OplogEntry)) (i : nat) (op : OplogEntry) :
  isInPendingTransaction op = false ->
  Forall (Forall (fun e => isInPendingTransaction e = false)) wv ->
  Forall (Forall (fun e => isInPendingTransaction e = false))
    (alter (fun writer => writer ++ [op]) i wv).
Proof.
  intros Hop Hwv. apply Forall_alter; [exact Hwv |].
  intros w _ Hw. apply Forall_app. split; [exact Hw | repeat constructor; exact Hop].
Qed.

Lemma _fillWriterVectors_no_pending (fuel : nat) oplog chainFuel :
  forall operations st tracker st' tracker',
  no_pending st ->
  _fillWriterVectors fuel oplog chainFuel operations st tracker = Ret (st', tracker') ->
  no_pending st'.
Proof. apply _fillWriterVectors_preserves. exact no_pending_push. Qed.

Lemma _fillWriterVectors_batch_length (fuel : nat) oplog chainFuel operations st st' :
  _fillWriterVectors_batch fuel oplog chainFuel operations st = Ret st' ->
  length (writerVectors st') = length (writerVectors st).
Proof.
  apply (_fillWriterVectors_batch_preserves
           (fun wv => length wv = length (writerVectors st))); [| reflexivity].
  intros wv i op _ Hwv. rewrite length_alter. exact Hwv.
Qed.

Lemma isUnpreparedCommit_not_applyOps (op : OplogEntry) :
  isUnpreparedCommit op = true -> isUnpreparedApplyOps op = false.
Proof.
  unfold isUnpreparedCommit, isUnpreparedApplyOps. intros H.
  apply andb_true_iff in H as [H _]. apply bool_decide_eq_true_1 in H.
  rewrite bool_decide_eq_false_2; [reflexivity | congruence].
Qed.

Lemma crudPart_tests (op op' : OplogEntry) (hash hash' : Z)
    (c c' : gmap string CollectionProperties) :
  crudPart op hash c = (op', hash', c') ->
  isUnpreparedApplyOps op' = isUnpreparedApplyOps op
  /\ isUnpreparedCommit op' = isUnpreparedCommit op
  /\ getSessionId op' = getSessionId op.
Proof.
  unfold crudPart. destruct (isCrudOpType op).
  - destruct (getCollectionProperties c (ns (getNss op))) as [props c1].
    destruct (bool_decide (getOpType op = kInsert) && isCapped props);
      intros H; inversion H; repeat split; reflexivity.
  - intros H; inversion H; repeat split; reflexivity.
Qed.

(** The loop over the first operations of the list, with the locals of the
    call as they stand when it has gone through them. *)
Fixpoint fillLoop_upto (recur : list OplogEntry -> FillState -> Result FillState)
  (oplog : Oplog) (chainFuel : nat) (operations : list OplogEntry) (loc : FillLocals)
  (st : FillState) (sessionUpdateTracker : option SessionUpdateTracker)
  : Result (FillLocals * FillState * option SessionUpdateTracker) :=
  match operations with
  | [] => Ret (loc, st, sessionUpdateTracker)
  | op :: rest =>
      '(loc', st', tracker') ← fillStep recur oplog chainFuel op loc st sessionUpdateTracker;
      fillLoop_upto recur oplog chainFuel rest loc' st' tracker'
  end.

(** Modelled from the spec: the pending list of the session [sid], as an
    operation of the batch leaves it.  An entry flagged as part of a pending
    transaction is held at the end of the list of its session, which is
    cleared first when it holds entries of another transaction number; the
    unprepared commit of the session takes the list and leaves it empty;
    anything else, and any operation of another session, leaves it alone.
    An operation at or before [beginApplyingOpTime] is skipped, whatever it
    is. *)
Definition pendingListWith (sid : LogicalSessionId) (pendingList : list OplogEntry)
  (op : OplogEntry) : list OplogEntry :=
  if OpTime_le (getOpTime op) beginApplyingOpTime then pendingList
  else if negb (bool_decide (getSessionId op = Some sid)) then pendingList
  else if isInPendingTransaction op then
    match pendingList with
    | [] => [op]
    | front :: _ =>
        if bool_decide (getTxnNumber front = getTxnNumber op) then pendingList ++ [op]
        else [op]
    end
  else if isUnpreparedCommit op then []
  else pendingList.

Definition pendingListAfter (sid : LogicalSessionId) (operations : list OplogEntry)
  (pendingList : list OplogEntry) : list OplogEntry :=
  fold_left (pendingListWith sid) operations pendingList.

Lemma fillLoop_app recur oplog chainFuel (before after : list OplogEntry) :
  forall loc st tracker,
  fillLoop recur oplog chainFuel (before ++ after) loc st tracker
  = ('(loc1, st1, tracker1) ← fillLoop_upto recur oplog chainFuel before loc st tracker;
     fillLoop recur oplog chainFuel after loc1 st1 tracker1).
Proof.
  induction before as [|op before IH]; intros loc st tracker; [reflexivity |].
  simpl. destruct (fillStep recur oplog chainFuel op loc st tracker) as [[[l1 s1] t1] | | | | | |];
    simpl; try reflexivity. apply IH.
Qed.

Lemma holdPending_lookup (op : OplogEntry) (pending pending' : gmap LogicalSessionId (list OplogEntry))
    (sid : LogicalSessionId) :
  isInPendingTransaction op = true ->
  OpTime_le (getOpTime op) beginApplyingOpTime = false ->
  holdPending op pending = Ret pending' ->
  default [] (pending' !! sid) = pendingListWith sid (default [] (pending !! sid)) op.
Proof.
  intros Hpend Hskip. unfold holdPending, pendingListWith. rewrite Hskip, Hpend.
  destruct (getSessionId op) as [s |]; [| discriminate].
  intros H; inversion H; subst. destruct (decide (s = sid)) as [-> | Hne].
  - rewrite lookup_insert_eq, bool_decide_eq_true_2 by reflexivity. simpl.
    unfold heldWith. destruct (default [] (pending !! sid)) as [|front rest]; [reflexivity |].
    destruct (bool_decide (getTxnNumber front = getTxnNumber op)); reflexivity.
  - rewrite lookup_insert_ne by exact Hne.
    rewrite bool_decide_eq_false_2 by congruence. reflexivity.
Qed.

Lemma fillStep_pendingList recur oplog chainFuel op loc st tracker loc' st' tracker'
    (sid : LogicalSessionId) :
  fillStep recur oplog chainFuel op loc st tracker = Ret (loc', st', tracker') ->
  default [] (pendingTxnOps loc' !! sid)
  = pendingListWith sid (default [] (pendingTxnOps loc !! sid)) op.
Proof.
  unfold fillStep.
  destruct (OpTime_le (getOpTime op) beginApplyingOpTime) eqn:Hskip.
  { intros H; inversion H; subst. unfold pendingListWith. rewrite Hskip. reflexivity. }
  intros H. apply bindR_Ret_inv in H as ([st1 tr1] & _ & H).
  destruct (isInPendingTransaction op) eqn:Hpend.
  { apply bindR_Ret_inv in H as (p' & Hhold & H). inversion H; subst. simpl.
    apply holdPending_lookup; assumption. }
  unfold pendingListWith. rewrite Hskip, Hpend.
  destruct (crudPart op _ (collPropertiesCache loc)) as [[op' hash'] c'] eqn:Hcrud.
  destruct (crudPart_tests _ _ _ _ _ _ Hcrud) as (Happly & Hcommit & Hsid).
  rewrite Happly, Hcommit, Hsid in H.
  destruct (isUnpreparedApplyOps op) eqn:Ha.
  { apply bindR_Ret_inv in H as (s2 & _ & H). inversion H; subst. simpl.
    destruct (isUnpreparedCommit op) eqn:Hc.
    - apply isUnpreparedCommit_not_applyOps in Hc. congruence.
    - destruct (negb _); reflexivity. }
  destruct (isUnpreparedCommit op) eqn:Hc.
  { apply bindR_Ret_inv in H as ([p2 s2] & H2 & H). inversion H; subst. simpl.
    apply catchAll_Ret_inv in H2. destruct (getSessionId op) as [s |]; [| discriminate].
    apply bindR_Ret_inv in H2 as (d & _ & H2).
    apply bindR_Ret_inv in H2 as (s3 & _ & H2). inversion H2; subst.
    destruct (decide (s = sid)) as [-> | Hne].
    - rewrite lookup_insert_eq, bool_decide_eq_true_2 by reflexivity. reflexivity.
    - rewrite lookup_insert_ne by exact Hne.
      rewrite bool_decide_eq_false_2 by congruence. reflexivity. }
  destruct (Z.of_nat (length (writerVectors st1)) =? 0); [discriminate |].
  inversion H; subst. simpl. destruct (negb _); reflexivity.
Qed.

Lemma fillLoop_upto_pendingList recur oplog chainFuel (operations : list OplogEntry)
    (sid : LogicalSessionId) :
  forall loc st tracker loc' st' tracker',
  fillLoop_upto recur oplog chainFuel operations loc st tracker = Ret (loc', st', tracker') ->
  default [] (pendingTxnOps loc' !! sid)
  = pendingListAfter sid operations (default [] (pendingTxnOps loc !! sid)).
Proof.
  unfold pendingListAfter.
  induction operations as [|op rest IH]; intros loc st tracker loc' st' tracker'; simpl.
  - intros H; inversion H; subst. reflexivity.
  - intros H. apply bindR_Ret_inv in H as ([[loc1 st1] tr1] & Hstep & H).
    rewrite (IH _ _ _ _ _ _ H), (fillStep_pendingList _ _ _ _ _ _ _ _ _ _ sid Hstep).
    reflexivity.
Qed.

Lemma fillStep_commit recur oplog chainFuel op loc st tracker st1 tracker1
    (sid : LogicalSessionId) (d : list OplogEntry) :
  OpTime_le (getOpTime op) beginApplyingOpTime = false ->
  getSessionId op = Some sid ->
  trackSession recur op st tracker = Ret (st1, tracker1) ->
  isInPendingTransaction op = false -> isCommand op = true -> isUnpreparedCommit op = true ->
  readTransactionOperationsFromOplogChain chainFuel oplog op
    (default [] (pendingTxnOps loc !! sid)) = Ret d ->
  fillStep recur oplog chainFuel op loc st tracker
  = (st2 ← catchAll 51116 (recur d (emplace_derived d st1));
     Ret (mkFillLocals (<[sid := []]> (pendingTxnOps loc)) (collPropertiesCache loc),
          st2, tracker1)).
Proof.
  intros Hskip Hsid Htrack Hpend Hcmd Hcommit Hread. unfold fillStep.
  rewrite Hskip, Htrack. simpl. rewrite Hpend.
  assert (Hcrud : isCrudOpType op = false).
  { unfold isCommand in Hcmd. apply bool_decide_eq_true_1 in Hcmd.
    unfold isCrudOpType. rewrite Hcmd. reflexivity. }
  unfold crudPart. rewrite Hcrud.
  rewrite (isUnpreparedCommit_not_applyOps _ Hcommit), Hcommit, Hsid, Hread. simpl.
  destruct (recur d (emplace_derived d st1)); reflexivity.
Qed.

(** C4. For an operation [op] of the batch that the lower bound
    [beginApplyingOpTime] does not skip and that carries a session id, once
    the session tracker has had its turn.  (1) If [op] is flagged as part of
    a pending transaction, the step puts it in no writer vector and changes
    nothing but the pending list of its session, which becomes: [op] alone
    if the list was empty or its first entry has another transaction
    number (the list is cleared first), and the list followed by [op]
    otherwise.  (2) If [op] is an unprepared commitTransaction command, the
    step assembles the transaction from the oplog chain and the session's
    pending list, records it among the derived operations, clears the list
    and partitions the assembled operations.  (3) Whatever the batch, and
    however deep the derived operations nest, the partitioner never puts an
    entry flagged as pending in a writer vector.  (4) When the loop has gone
    through any operations, the pending list of every session is the one the
    specification describes.  (5) So, in a batch, the unprepared commit of a
    session assembles the transaction from the entries of the session held
    since the batch began, its last commit or its last change of
    transaction number, and the loop goes on with that list empty. *)
Theorem pending_entries_held_until_commit
    (recur : list OplogEntry -> FillState -> Result FillState) (oplog : Oplog)
    (chainFuel : nat) (op : OplogEntry) (loc : FillLocals) (st st1 : FillState)
    (tracker tracker1 : option SessionUpdateTracker) (sid : LogicalSessionId) :
  OpTime_le (getOpTime op) beginApplyingOpTime = false ->
  getSessionId op = Some sid ->
  trackSession recur op st tracker = Ret (st1, tracker1) ->
  let pendingList := default [] (pendingTxnOps loc !! sid) in
  (isInPendingTransaction op = true ->
   exists loc' pendingList',
     fillStep recur oplog chainFuel op loc st tracker = Ret (loc', st1, tracker1)
     /\ collPropertiesCache loc' = collPropertiesCache loc
     /\ (forall sid', sid' <> sid -> pendingTxnOps loc' !! sid' = pendingTxnOps loc !! sid')
     /\ pendingTxnOps loc' !! sid = Some pendingList'
     /\ (pendingList = [] -> pendingList' = [op])
     /\ (forall front rest,
           pendingList = front :: rest -> getTxnNumber front = getTxnNumber op ->
           pendingList' = pendingList ++ [op])
     /\ (forall front rest,
           pendingList = front :: rest -> getTxnNumber front <> getTxnNumber op ->
           pendingList' = [op]))
  /\ (isInPendingTransaction op = false -> isCommand op = true ->
      isUnpreparedCommit op = true ->
      forall d,
        readTransactionOperationsFromOplogChain chainFuel oplog op pendingList = Ret d ->
        fillStep recur oplog chainFuel op loc st tracker
        = (st2 ← catchAll 51116 (recur d (emplace_derived d st1));
           Ret (mkFillLocals (<[sid := []]> (pendingTxnOps loc)) (collPropertiesCache loc),
                st2, tracker1)))
  /\ (forall fuel operations st0 tracker0 st' tracker',
        no_pending st0 ->
        _fillWriterVectors fuel oplog chainFuel operations st0 tracker0 = Ret (st', tracker') ->
        no_pending st')
  /\ (forall operations loc0 st0 tracker0 loc' st' tracker' sid0,
        fillLoop_upto recur oplog chainFuel operations loc0 st0 tracker0
        = Ret (loc', st', tracker') ->
        default [] (pendingTxnOps loc' !! sid0)
        = pendingListAfter sid0 operations (default [] (pendingTxnOps loc0 !! sid0)))
  /\ (isInPendingTransaction op = false -> isCommand op = true ->
      isUnpreparedCommit op = true ->
      forall before after st0 tracker0 d,
        fillLoop_upto recur oplog chainFuel before (mkFillLocals ∅ ∅) st0 tracker0
        = Ret (loc, st, tracker) ->
        readTransactionOperationsFromOplogChain chainFuel oplog op
          (pendingListAfter sid before []) = Ret d ->
        fillLoop recur oplog chainFuel (before ++ op :: after) (mkFillLocals ∅ ∅) st0 tracker0
        = (st2 ← catchAll 51116 (recur d (emplace_derived d st1));
           fillLoop recur oplog chainFuel after
             (mkFillLocals (<[sid := []]> (pendingTxnOps loc)) (collPropertiesCache loc))
             st2 tracker1)).
Proof.
  intros Hskip Hsid Htrack pendingList. split; [| split; [| split; [| split]]].
  - intros Hpend.
    exists (mkFillLocals (<[sid := heldWith op pendingList]> (pendingTxnOps loc))
              (collPropertiesCache loc)), (heldWith op pendingList).
    split.
    { unfold fillStep. rewrite Hskip, Htrack. simpl. rewrite Hpend.
      unfold holdPending. rewrite Hsid. reflexivity. }
    split; [reflexivity |]. split.
    { intros sid' Hne. simpl. apply lookup_insert_ne. congruence. }
    split; [simpl; apply lookup_insert_eq |].
    unfold heldWith. split; [| split].
    + intros ->. reflexivity.
    + intros front rest -> Htxn. rewrite (bool_decide_eq_true_2 _ Htxn). reflexivity.
    + intros front rest -> Htxn. rewrite (bool_decide_eq_false_2 _ Htxn). reflexivity.
  - intros Hpend Hcmd Hcommit d Hread. apply fillStep_commit; assumption.
  - intros fuel operations st0 tracker0 st' tracker'. apply _fillWriterVectors_no_pending.
  - intros operations loc0 st0 tracker0 loc' st' tracker' sid0.
    apply fillLoop_upto_pendingList.
  - intros Hpend Hcmd Hcommit before after st0 tracker0 d Hbefore Hread.
    rewrite fillLoop_app, Hbefore. simpl.
    assert (Hlist : pendingList = pendingListAfter sid before []).
    { unfold pendingList.
      rewrite (fillLoop_upto_pendingList _ _ _ _ sid _ _ _ _ _ _ Hbefore). simpl.
      rewrite lookup_empty. reflexivity. }
    rewrite <- Hlist in Hread.
    rewrite (fillStep_commit _ _ _ _ _ _ _ _ _ _ _ Hskip Hsid Htrack Hpend Hcmd Hcommit Hread).
    destruct (catchAll 51116 (recur d (emplace_derived d st1))); reflexivity.
Qed.

(** **** Which writer an operation goes to *)

(** The cache of collection properties holds what the catalog says. *)
Definition cache_ok (_cache : gmap string CollectionProperties) : Prop :=
  forall nsName props, _cache !! nsName = Some props -> props = getCollectionPropertiesImpl nsName.

(** Whether the hash of an operation takes in the [_id] of its document:
    for CRUD operations on a collection that is not capped, under a storage
    engine with document-level locking. *)
Definition hashesDocumentId (op : OplogEntry) : bool :=
  isCrudOpType op && supportsDocLocking
  && negb (isCapped (getCollectionPropertiesImpl (ns (getNss op)))).

Definition hashOf (op : OplogEntry) : Z :=
  let hash := StringMapHasher_hash (ns (getNss op)) mod 2 ^ 32 in
  if hashesDocumentId op
  then MurmurHash3_x86_32
         (elementHasher_hash op (collator (getCollectionPropertiesImpl (ns (getNss op))))) hash
       mod 2 ^ 32
  else hash.

(** The index of the writer vector of an operation, among [numWriters]. *)
Definition writerOf (numWriters : nat) (op : OplogEntry) : nat :=
  Z.to_nat (hashOf op mod Z.of_nat numWriters).

(** The operation as it is stored: an insert into a capped collection is
    marked. *)
Definition cappedMark (op : OplogEntry) : OplogEntry :=
  if isCrudOpType op && bool_decide (getOpType op = kInsert)
     && isCapped (getCollectionPropertiesImpl (ns (getNss op)))
  then set_isForCappedCollection true op else op.

Lemma cache_ok_empty : cache_ok ∅.
Proof. intros n p H. rewrite lookup_empty in H. discriminate. Qed.

Lemma getCollectionProperties_ok (_cache : gmap string CollectionProperties) (nsName : string) :
  cache_ok _cache ->
  fst (getCollectionProperties _cache nsName) = getCollectionPropertiesImpl nsName
  /\ cache_ok (snd (getCollectionProperties _cache nsName)).
Proof.
  intros Hc. unfold getCollectionProperties.
  destruct (_cache !! nsName) as [props |] eqn:Hlook; simpl.
  - split; [apply Hc; exact Hlook | exact Hc].
  - split; [reflexivity |]. intros n p H.
    apply lookup_insert_Some in H as [[<- <-] | [_ H]]; [reflexivity | apply Hc; exact H].
Qed.

Lemma crudPart_ok (op : OplogEntry) (_cache : gmap string CollectionProperties) :
  cache_ok _cache ->
  exists _cache',
    crudPart op (StringMapHasher_hash (ns (getNss op)) mod 2 ^ 32) _cache
    = (cappedMark op, hashOf op, _cache')
    /\ cache_ok _cache'.
Proof.
  intros Hc. unfold crudPart, cappedMark, hashOf, hashesDocumentId.
  destruct (isCrudOpType op); simpl; [| eauto].
  destruct (getCollectionProperties_ok _cache (ns (getNss op)) Hc) as [Hp Hc'].
  destruct (getCollectionProperties _cache (ns (getNss op))) as [props c']. simpl in *.
  subst props. eauto.
Qed.

Lemma cappedMark_fields (op : OplogEntry) :
  getNss (cappedMark op) = getNss op /\ getOpType (cappedMark op) = getOpType op
  /\ getOpTime (cappedMark op) = getOpTime op
  /\ isInPendingTransaction (cappedMark op) = isInPendingTransaction op
  /\ isUnpreparedApplyOps (cappedMark op) = isUnpreparedApplyOps op
  /\ isUnpreparedCommit (cappedMark op) = isUnpreparedCommit op.
Proof.
  unfold cappedMark. destruct (_ && _ && _); repeat split; reflexivity.
Qed.

Lemma hashOf_cappedMark (op : OplogEntry) : hashOf (cappedMark op) = hashOf op.
Proof.
  unfold cappedMark.
  destruct (isCrudOpType op && bool_decide (getOpType op = kInsert)
            && isCapped (getCollectionPropertiesImpl (ns (getNss op)))) eqn:Hmark;
    [| reflexivity].
  apply andb_true_iff in Hmark as [_ Hcapped].
  unfold hashOf, hashesDocumentId, isCrudOpType. cbn [getNss getOpType set_isForCappedCollection].
  rewrite Hcapped. rewrite !andb_false_r. reflexivity.
Qed.

Section PartitionPush.

(** A property of the writer vectors that survives the push of an
    operation that the partitioner neither skips, holds back nor expands,
    onto the writer vector of its hash. *)
Variable Inv : list (list OplogEntry) -> Prop.
Hypothesis Inv_push :
  forall wv op,
    OpTime_le (getOpTime op) beginApplyingOpTime = false ->
    isInPendingTransaction op = false ->
    isUnpreparedApplyOps op = false -> isUnpreparedCommit op = false ->
    wv <> [] -> Inv wv ->
    Inv (alter (fun writer => writer ++ [cappedMark op]) (writerOf (length wv) op) wv).

Definition keeps (recur : list OplogEntry -> FillState -> Result FillState) : Prop :=
  forall d st st', Inv (writerVectors st) -> recur d st = Ret st' -> Inv (writerVectors st').

Lemma trackSession_keeps recur op st tracker st' tracker' :
  keeps recur -> Inv (writerVectors st) ->
  trackSession recur op st tracker = Ret (st', tracker') -> Inv (writerVectors st').
Proof.
  intros Hrec Hst. unfold trackSession. destruct tracker as [t |].
  - destruct (updateOrFlush t op) as [[w |] t'].
    + intros H. apply bindR_Ret_inv in H as (s1 & H1 & H2). inversion H2; subst.
      eapply Hrec; [| exact H1]. exact Hst.
    + intros H; inversion H; subst. exact Hst.
  - intros H; inversion H; subst. exact Hst.
Qed.

Lemma fillStep_keeps recur oplog chainFuel op loc st tracker loc' st' tracker' :
  keeps recur -> cache_ok (collPropertiesCache loc) -> Inv (writerVectors st) ->
  fillStep recur oplog chainFuel op loc st tracker = Ret (loc', st', tracker') ->
  cache_ok (collPropertiesCache loc') /\ Inv (writerVectors st').
Proof.
  intros Hrec Hcache Hst. unfold fillStep.
  destruct (OpTime_le (getOpTime op) beginApplyingOpTime) eqn:Hskip.
  { intros H; inversion H; subst. auto. }
  intros H. apply bindR_Ret_inv in H as ([st1 tr1] & Htrack & H).
  pose proof (trackSession_keeps _ _ _ _ _ _ Hrec Hst Htrack) as Hst1.
  destruct (isInPendingTransaction op) eqn:Hpend.
  { apply bindR_Ret_inv in H as (p' & _ & H). inversion H; subst. auto. }
  destruct (crudPart_ok op _ Hcache) as (c' & Hcrud & Hc').
  rewrite Hcrud in H.
  destruct (cappedMark_fields op) as (_ & _ & _ & _ & Happly & Hcommit).
  rewrite Happly, Hcommit in H.
  destruct (isUnpreparedApplyOps op) eqn:Ha.
  { apply bindR_Ret_inv in H as (s2 & H2 & H). inversion H; subst.
    apply catchAll_Ret_inv, bindR_Ret_inv in H2 as (d & _ & H2).
    split; [exact Hc' |]. eapply Hrec; [| exact H2]. exact Hst1. }
  destruct (isUnpreparedCommit op) eqn:Hc.
  { apply bindR_Ret_inv in H as ([p2 s2] & H2 & H). inversion H; subst.
    apply catchAll_Ret_inv in H2. destruct (getSessionId (cappedMark op)); [| discriminate].
    apply bindR_Ret_inv in H2 as (d & _ & H2).
    apply bindR_Ret_inv in H2 as (s3 & H3 & H2). inversion H2; subst.
    split; [exact Hc' |]. eapply Hrec; [| exact H3]. exact Hst1. }
  destruct (Z.eqb_spec (Z.of_nat (length (writerVectors st1))) 0) as [E | E]; [discriminate |].
  inversion H; subst. split; [exact Hc' |]. unfold push_to_writer. simpl.
  apply Inv_push; auto. intros Hnil. rewrite Hnil in E. simpl in E. lia.
Qed.

Lemma fillLoop_keeps recur oplog chainFuel operations :
  keeps recur ->
  forall loc st tracker st' tracker',
  cache_ok (collPropertiesCache loc) -> Inv (writerVectors st) ->
  fillLoop recur oplog chainFuel operations loc st tracker = Ret (st', tracker') ->
  Inv (writerVectors st').
Proof.
  intros Hrec. induction operations as [|op rest IH];
    intros loc st tracker st' tracker' Hcache Hst.
  - simpl. intros H; inversion H; subst. exact Hst.
  - simpl. intros H. apply bindR_Ret_inv in H as ([[loc1 st1] tr1] & Hstep & H).
    destruct (fillStep_keeps _ _ _ _ _ _ _ _ _ _ Hrec Hcache Hst Hstep) as [Hc1 Hs1].
    eapply IH; eauto.
Qed.

Lemma _fillWriterVectors_keeps (fuel : nat) oplog chainFuel :
  forall operations st tracker st' tracker',
  Inv (writerVectors st) ->
  _fillWriterVectors fuel oplog chainFuel operations st tracker = Ret (st', tracker') ->
  Inv (writerVectors st').
Proof.
  induction fuel as [|fuel IH]; intros operations st tracker st' tracker' Hst; simpl.
  - discriminate.
  - apply fillLoop_keeps; [| exact cache_ok_empty | exact Hst].
    intros d s s' Hs H. apply bindR_Ret_inv in H as ([s1 t1] & H1 & H). inversion H; subst.
    eapply IH; eauto.
Qed.

Lemma _fillWriterVectors_batch_keeps (fuel : nat) oplog chainFuel operations st st' :
  Inv (writerVectors st) ->
  _fillWriterVectors_batch fuel oplog chainFuel operations st = Ret st' ->
  Inv (writerVectors st').
Proof.
  intros Hst. unfold _fillWriterVectors_batch. intros H.
  apply bindR_Ret_inv in H as ([st1 tracker] & H1 & H).
  pose proof (_fillWriterVectors_keeps _ _ _ _ _ _ _ _ Hst H1) as Hst1.
  destruct (match tracker with Some t => flushAll t | None => [] end) as [|w ws].
  - inversion H; subst. exact Hst1.
  - apply bindR_Ret_inv in H as ([s2 t2] & H2 & H). inversion H; subst.
    eapply _fillWriterVectors_keeps; [| exact H2]. exact Hst1.
Qed.

End PartitionPush.

(** An entry that is applied as it stands: later than the lower bound
    [beginApplyingOpTime], and neither an unprepared applyOps nor an
    unprepared commitTransaction, which are applied through the operations
    they expand to. *)
Definition applied_as_it_stands (e : OplogEntry) : Prop :=
  OpTime_le (getOpTime e) beginApplyingOpTime = false
  /\ isUnpreparedApplyOps e = false /\ isUnpreparedCommit e = false.

(** X12.  Whatever the batch and however deep the derived operations
    nest, the partitioner puts in a writer vector no entry at or before
    [beginApplyingOpTime], no unprepared applyOps and no unprepared
    commitTransaction. *)
Theorem writers_get_no_skipped_nor_expanded_entry
    (fuel : nat) (oplog : Oplog) (chainFuel : nat) (operations : list OplogEntry)
    (st st' : FillState) :
  Forall (Forall applied_as_it_stands) (writerVectors st) ->
  _fillWriterVectors_batch fuel oplog chainFuel operations st = Ret st' ->
  Forall (Forall applied_as_it_stands) (writerVectors st').
Proof.
  apply (_fillWriterVectors_batch_keeps (Forall (Forall applied_as_it_stands))).
  intros wv op Hskip _ Happly Hcommit _ Hwv.
  apply Forall_alter; [exact Hwv |]. intros w _ Hw.
  apply Forall_app. split; [exact Hw |]. constructor; [| constructor].
  destruct (cappedMark_fields op) as (_ & _ & Ht & _ & Ha & Hc).
  unfold applied_as_it_stands. rewrite Ht, Ha, Hc. auto.
Qed.

(** Every entry of a writer vector sits in the vector of its hash. *)
Definition sorted_by_hash (numWriters : nat) (wv : list (list OplogEntry)) : Prop :=
  length wv = numWriters
  /\ forall i w e, wv !! i = Some w -> In e w -> i = writerOf numWriters e.

Lemma sorted_by_hash_push (numWriters : nat) (wv : list (list OplogEntry)) (op : OplogEntry) :
  sorted_by_hash numWriters wv ->
  sorted_by_hash numWriters
    (alter (fun writer => writer ++ [cappedMark op]) (writerOf (length wv) op) wv).
Proof.
  intros [Hlen Hwv]. split; [rewrite length_alter; exact Hlen |].
  intros i w e Hlook Hin. rewrite Hlen, list_lookup_alter in Hlook.
  destruct (decide (writerOf numWriters op = i)) as [<- | Hne].
  - destruct (wv !! writerOf numWriters op) as [w0 |] eqn:Hw0; [| discriminate].
    simpl in Hlook. inversion Hlook; subst. apply in_app_or in Hin as [Hin | [<- | []]].
    + eapply Hwv; eauto.
    + unfold writerOf. rewrite hashOf_cappedMark. reflexivity.
  - eapply Hwv; eauto.
Qed.

Lemma sorted_by_hash_replicate (numWriters : nat) :
  sorted_by_hash numWriters (replicate numWriters []).
Proof.
  split; [apply length_replicate |]. intros i w e Hlook Hin.
  apply lookup_replicate in Hlook as [-> _]. destruct Hin.
Qed.

(** X13.  Partitioning a batch over [numWriters] empty writer vectors
    puts every entry in the vector of its hash, and the hash of an entry is
    that of its namespace alone unless the entry is a CRUD operation on a
    collection that is not capped, under a storage engine with
    document-level locking.  So two entries on the same namespace whose
    hashes do not take in the document id (commands and no-ops; every
    operation, without document-level locking; operations on a capped
    collection) are in the same writer vector. *)
Theorem entries_hashed_by_namespace_share_a_writer
    (fuel : nat) (oplog : Oplog) (chainFuel : nat) (operations : list OplogEntry)
    (numWriters : nat) (st' : FillState) :
  _fillWriterVectors_batch fuel oplog chainFuel operations
    (mkFillState (replicate numWriters []) []) = Ret st' ->
  (forall i w e, writerVectors st' !! i = Some w -> In e w -> i = writerOf numWriters e)
  /\ (forall i j wi wj e1 e2,
        writerVectors st' !! i = Some wi -> writerVectors st' !! j = Some wj ->
        In e1 wi -> In e2 wj ->
        getNss e1 = getNss e2 -> hashesDocumentId e1 = false -> hashesDocumentId e2 = false ->
        i = j).
Proof.
  intros Hfill.
  assert (Hsorted : sorted_by_hash numWriters (writerVectors st')).
  { revert Hfill. apply (_fillWriterVectors_batch_keeps (sorted_by_hash numWriters)).
    - intros wv op _ _ _ _ _ Hwv. apply sorted_by_hash_push. exact Hwv.
    - apply sorted_by_hash_replicate. }
  destruct Hsorted as [_ Hsorted]. split; [exact Hsorted |].
  intros i j wi wj e1 e2 Hi Hj H1 H2 Hns Hd1 Hd2.
  rewrite (Hsorted _ _ _ Hi H1), (Hsorted _ _ _ Hj H2).
  unfold writerOf, hashOf. rewrite Hd1, Hd2, Hns. reflexivity.
Qed.

(** An insert into a capped collection. *)
Definition cappedInsert (e : OplogEntry) : Prop :=
  getOpType e = kInsert /\ isCapped (getCollectionPropertiesImpl (ns (getNss e))) = true.

Definition capped_inserts_marked (wv : list (list OplogEntry)) : Prop :=
  Forall (Forall (fun e => cappedInsert e -> isForCappedCollection e = true)) wv.

(** X14.  Partitioning a batch over [numWriters] empty writer vectors
    stores every insert into a capped collection with the mark
    [isForCappedCollection], which keeps it out of bulk inserts, and in the
    writer vector that the hash of its namespace selects: the inserts into
    one capped collection all go to one writer, which keeps them in order. *)
Theorem capped_inserts_are_marked_and_share_a_writer
    (fuel : nat) (oplog : Oplog) (chainFuel : nat) (operations : list OplogEntry)
    (numWriters : nat) (st' : FillState) (i : nat) (w : list OplogEntry) (e : OplogEntry) :
  _fillWriterVectors_batch fuel oplog chainFuel operations
    (mkFillState (replicate numWriters []) []) = Ret st' ->
  writerVectors st' !! i = Some w -> In e w -> cappedInsert e ->
  isForCappedCollection e = true
  /\ i = Z.to_nat ((StringMapHasher_hash (ns (getNss e)) mod 2 ^ 32) mod Z.of_nat numWriters).
Proof.
  intros Hfill Hlook Hin [Hins Hcapped].
  assert (Hinv : capped_inserts_marked (writerVectors st')
                 /\ sorted_by_hash numWriters (writerVectors st')).
  { revert Hfill.
    apply (_fillWriterVectors_batch_keeps
             (fun wv => capped_inserts_marked wv /\ sorted_by_hash numWriters wv)).
    - intros wv op _ _ _ _ _ [Hmarked Hsorted]. split; [| apply sorted_by_hash_push; exact Hsorted].
      apply Forall_alter; [exact Hmarked |]. intros w0 _ Hw0.
      apply Forall_app. split; [exact Hw0 |]. constructor; [| constructor].
      intros [Hi Hc]. destruct (cappedMark_fields op) as (Hn & Ht & _).
      rewrite Hn in Hc. rewrite Ht in Hi. unfold cappedMark, isCrudOpType.
      rewrite Hi, Hc, bool_decide_eq_true_2 by reflexivity. reflexivity.
    - split; [| apply sorted_by_hash_replicate].
      apply Forall_forall. intros w0 Hw0. apply elem_of_replicate in Hw0 as [-> _]. constructor. }
  destruct Hinv as [Hmarked [_ Hsorted]]. split.
  - unfold capped_inserts_marked in Hmarked. rewrite Forall_forall in Hmarked.
    assert (Hw : w ∈ writerVectors st') by (eapply list_elem_of_lookup_2; eauto).
    specialize (Hmarked w Hw). rewrite List.Forall_forall in Hmarked.
    apply Hmarked; [exact Hin | split; assumption].
  - rewrite (Hsorted _ _ _ Hlook Hin). unfold writerOf, hashOf, hashesDocumentId.
    rewrite Hcapped, andb_false_r. reflexivity.
Qed.

(** An operation that goes to a writer as it stands. *)
Definition plain (op : OplogEntry) : Prop :=
  OpTime_le (getOpTime op) beginApplyingOpTime = false
  /\ isInPendingTransaction op = false
  /\ isUnpreparedApplyOps op = false /\ isUnpreparedCommit op = false.

(** The writer vectors once each of [operations], marked if it is an insert
    into a capped collection, has been appended to the vector of its
    hash. *)
Definition shared_out (operations : list OplogEntry) (wv : list (list OplogEntry))
  : list (list OplogEntry) :=
  imap (fun i writer =>
          writer ++ filter (fun e => writerOf (length wv) e = i) (map cappedMark operations))
    wv.

Lemma shared_out_nil (wv : list (list OplogEntry)) : shared_out [] wv = wv.
Proof.
  unfold shared_out. apply list_eq. intros i. rewrite list_lookup_imap.
  destruct (wv !! i); simpl; [rewrite app_nil_r |]; reflexivity.
Qed.

Lemma shared_out_cons (op : OplogEntry) (rest : list OplogEntry) (wv : list (list OplogEntry)) :
  shared_out rest (alter (fun writer => writer ++ [cappedMark op]) (writerOf (length wv) op) wv)
  = shared_out (op :: rest) wv.
Proof.
  assert (Hm : writerOf (length wv) (cappedMark op) = writerOf (length wv) op).
  { unfold writerOf. rewrite hashOf_cappedMark. reflexivity. }
  unfold shared_out. apply list_eq. intros i.
  rewrite !list_lookup_imap, list_lookup_alter, length_alter.
  destruct (decide (writerOf (length wv) op = i)) as [<- | Hne].
  - destruct (wv !! writerOf (length wv) op); simpl; [| reflexivity].
    rewrite filter_cons_True by exact Hm. rewrite <- app_assoc. reflexivity.
  - destruct (wv !! i); simpl; [| reflexivity].
    rewrite filter_cons_False by (rewrite Hm; exact Hne). reflexivity.
Qed.

Lemma fillStep_plain recur oplog chainFuel op loc st :
  cache_ok (collPropertiesCache loc) -> plain op -> writerVectors st <> [] ->
  exists loc',
    fillStep recur oplog chainFuel op loc st None
    = Ret (loc',
           push_to_writer (writerOf (length (writerVectors st)) op) (cappedMark op) st,
           None)
    /\ cache_ok (collPropertiesCache loc').
Proof.
  intros Hcache (Hskip & Hpend & Happly & Hcommit) Hwv.
  destruct (crudPart_ok op _ Hcache) as (c' & Hcrud & Hc').
  destruct (cappedMark_fields op) as (_ & _ & _ & _ & Ha & Hc).
  exists (mkFillLocals (pendingTxnOps loc) c'). split; [| exact Hc'].
  unfold fillStep. rewrite Hskip. simpl. rewrite Hpend, Hcrud, Ha, Hc, Happly, Hcommit.
  destruct (Z.eqb_spec (Z.of_nat (length (writerVectors st))) 0) as [E | E]; [| reflexivity].
  destruct (writerVectors st); [contradiction | simpl in E; lia].
Qed.

Lemma fillLoop_plain recur oplog chainFuel (operations : list OplogEntry) :
  forall loc wv d,
    cache_ok (collPropertiesCache loc) -> Forall plain operations -> wv <> [] ->
    fillLoop recur oplog chainFuel operations loc (mkFillState wv d) None
    = Ret (mkFillState (shared_out operations wv) d, None).
Proof.
  induction operations as [|op rest IH]; intros loc wv d Hcache Hplain Hwv.
  - simpl. rewrite shared_out_nil. reflexivity.
  - inversion Hplain as [|? ? Hop Hrest]; subst. simpl.
    destruct (fillStep_plain recur oplog chainFuel op loc (mkFillState wv d) Hcache Hop Hwv)
      as (loc' & Hstep & Hc').
    rewrite Hstep. simpl. unfold push_to_writer. cbn [writerVectors derivedOps].
    rewrite IH; [rewrite shared_out_cons; reflexivity | exact Hc' | exact Hrest |].
    intros Hnil. apply (f_equal length) in Hnil. rewrite length_alter in Hnil.
    destruct wv; [contradiction | discriminate].
Qed.

(** X15.  Operations that are neither skipped, held back nor expanded,
    partitioned without a session tracker (as the operations of an applyOps
    or of an assembled transaction are) over at least one writer vector:
    the call returns, derives no operation, and appends each operation, in
    the order of the list, to the one writer vector that its hash selects,
    marked if it is an insert into a capped collection; no operation is
    lost or repeated, and no writer vector is reordered. *)
Theorem plain_operations_are_shared_out_in_order
    (fuel : nat) (oplog : Oplog) (chainFuel : nat) (operations : list OplogEntry)
    (wv : list (list OplogEntry)) (d : list (list OplogEntry)) :
  Forall plain operations -> wv <> [] ->
  _fillWriterVectors (S fuel) oplog chainFuel operations (mkFillState wv d) None
  = Ret (mkFillState (shared_out operations wv) d, None).
Proof.
  intros Hplain Hwv. simpl. apply fillLoop_plain; auto. exact cache_ok_empty.
Qed.

(** *** The replication coordinator, as the applier uses it *)

Inductive MemberState : Type :=
| RS_STARTUP | RS_PRIMARY | RS_SECONDARY | RS_RECOVERING | RS_STARTUP2
| RS_UNKNOWN | RS_ARBITER | RS_DOWN | RS_ROLLBACK | RS_REMOVED.

#[global] Instance MemberState_eq_dec : EqDecision MemberState.
Proof. solve_decision. Defined.

Definition primary (s : MemberState) : bool := bool_decide (s = RS_PRIMARY).
Definition secondary (s : MemberState) : bool := bool_decide (s = RS_SECONDARY).
Definition recovering (s : MemberState) : bool := bool_decide (s = RS_RECOVERING).

Inductive ApplierState : Type := Running | Draining | Stopped.

#[global] Instance ApplierState_eq_dec : EqDecision ApplierState.
Proof. solve_decision. Defined.

Inductive DataConsistency : Type := Consistent | Inconsistent.

(** The part of the [ReplicationCoordinator] interface that oplog
    application calls.  A method that changes the coordinator returns the
    coordinator afterwards. *)
Class ReplicationCoordinator (R : Type) : Type := {
  isInPrimaryOrSecondaryState_UNSAFE : R -> bool;
  isInPrimaryOrSecondaryState : R -> bool;
  getMaintenanceMode : R -> bool;
  getMemberState : R -> MemberState;
  getMyLastAppliedOpTime : R -> OpTime;
  setFollowerMode : MemberState -> R -> Status * R;
  getTerm : R -> Z;
  getApplierState : R -> ApplierState;
  signalDrainComplete : Z -> R -> R;
  setMyLastAppliedOpTimeAndWallTimeForward : OpTime * Date_t -> DataConsistency -> R -> R;
  getSlaveDelaySecs : R -> Z }.

(** [ReplicationCoordinatorMock] (replication_coordinator_mock.cpp). *)
Record ReplicationCoordinatorMock : Type := mkMock {
  _memberState : MemberState;
  _myLastAppliedOpTime : OpTime;
  _myLastAppliedWallTime : Date_t;
  _term : Z }.

#[global] Instance ReplicationCoordinatorMock_coordinator
  : ReplicationCoordinator ReplicationCoordinatorMock := {|
  isInPrimaryOrSecondaryState_UNSAFE m := primary (_memberState m) || secondary (_memberState m);
  isInPrimaryOrSecondaryState m := primary (_memberState m) || secondary (_memberState m);
  getMaintenanceMode _ := false;
  getMemberState m := _memberState m;
  getMyLastAppliedOpTime m := _myLastAppliedOpTime m;
  setFollowerMode newState m :=
    (Status_OK, mkMock newState (_myLastAppliedOpTime m) (_myLastAppliedWallTime m) (_term m));
  getTerm m := _term m;
  getApplierState _ := Running;
  signalDrainComplete _ m := m;
  setMyLastAppliedOpTimeAndWallTimeForward opTimeAndWallTime _ m :=
    if OpTime_gt (fst opTimeAndWallTime) (_myLastAppliedOpTime m)
    then mkMock (_memberState m) (fst opTimeAndWallTime) (snd opTimeAndWallTime) (_term m)
    else m;
  getSlaveDelaySecs _ := 0 |}.

(** *** The transition from RECOVERING to SECONDARY (sync_tail.cpp) *)

Inductive GoLiveEvent : Type :=
| AcquiredRSTL
| Logged (level : Z) (msg : string)
| CalledSetFollowerMode (newState : MemberState) (result : Status)
| Warned (st : Status)
| AttemptCounted.

(** The body under the replication state transition lock. *)
Definition goLiveUnderLock {R : Type} `{ReplicationCoordinator R} (replCoord : R)
  (minValid : OpTime) : R * list GoLiveEvent :=
  if isInPrimaryOrSecondaryState replCoord then (replCoord, [])
  else if getMaintenanceMode replCoord then
    (replCoord,
     [Logged 1 "We cannot transition to SECONDARY state while in maintenance mode."])
  else if negb (recovering (getMemberState replCoord)) then
    (replCoord,
     [Logged 2 "We cannot transition to SECONDARY state since we are not currently in RECOVERING state."])
  else
    let lastApplied := getMyLastAppliedOpTime replCoord in
    if OpTime_lt lastApplied minValid then
      (replCoord,
       [Logged 2 "We cannot transition to SECONDARY state because our 'lastApplied' optime is less than the 'minValid' optime."])
    else
      let '(status, replCoord') := setFollowerMode RS_SECONDARY replCoord in
      (replCoord',
       CalledSetFollowerMode RS_SECONDARY status
       :: (if isOK status then [] else [Warned status])).

Definition tryToGoLiveAsASecondary {R : Type} `{ReplicationCoordinator R} (replCoord : R)
  (minValid : OpTime) : Result (R * list GoLiveEvent) :=
  if isInPrimaryOrSecondaryState_UNSAFE replCoord then Ret (replCoord, [])
  else
    let '(replCoord', events) := goLiveUnderLock replCoord minValid in
    Ret (replCoord', AcquiredRSTL :: events ++ [AttemptCounted]).

(** **** Properties of the transition *)

(** The preconditions of the transition, in the words of the
    specification. *)
Definition mayGoLive {R : Type} `{ReplicationCoordinator R} (replCoord : R) (minValid : OpTime)
  : Prop :=
  isInPrimaryOrSecondaryState_UNSAFE replCoord = false
  /\ isInPrimaryOrSecondaryState replCoord = false
  /\ getMaintenanceMode replCoord = false
  /\ getMemberState replCoord = RS_RECOVERING
  /\ OpTime_ge (getMyLastAppliedOpTime replCoord) minValid = true.

Lemma goLiveUnderLock_calls {R : Type} `{ReplicationCoordinator R} (replCoord : R)
    (minValid : OpTime) (s : MemberState) (st : Status) :
  In (CalledSetFollowerMode s st) (snd (goLiveUnderLock replCoord minValid))
  <-> (s = RS_SECONDARY /\ st = fst (setFollowerMode RS_SECONDARY replCoord)
       /\ isInPrimaryOrSecondaryState replCoord = false
       /\ getMaintenanceMode replCoord = false
       /\ getMemberState replCoord = RS_RECOVERING
       /\ OpTime_ge (getMyLastAppliedOpTime replCoord) minValid = true).
Proof.
  unfold goLiveUnderLock, OpTime_ge, recovering.
  destruct (isInPrimaryOrSecondaryState replCoord);
    [simpl; split; [tauto | intros (_ & _ & ? & _); discriminate] |].
  destruct (getMaintenanceMode replCoord);
    [simpl; split; [intros [? | []]; discriminate | intros (_ & _ & _ & ? & _); discriminate] |].
  destruct (decide (getMemberState replCoord = RS_RECOVERING)) as [Hrec | Hrec].
  2: { rewrite (bool_decide_eq_false_2 _ Hrec). simpl.
       split; [intros [? | []]; discriminate | intros (_ & _ & _ & _ & ? & _); contradiction]. }
  rewrite (bool_decide_eq_true_2 _ Hrec). simpl.
  destruct (OpTime_lt (getMyLastAppliedOpTime replCoord) minValid).
  { simpl. split; [intros [? | []]; discriminate | intros (_ & _ & _ & _ & _ & ?); discriminate]. }
  destruct (setFollowerMode RS_SECONDARY replCoord) as [status r']. simpl. split.
  - intros [Heq | Hin].
    + inversion Heq; subst. repeat split; auto.
    + destruct (isOK status); simpl in Hin; [tauto | destruct Hin as [? | []]; discriminate].
  - intros (-> & -> & _). left. reflexivity.
Qed.

(** C2. A call of [tryToGoLiveAsASecondary] always returns normally, and
    it calls [setFollowerMode] exactly when the node is neither primary nor
    secondary (checked without and then with the lock), is not in
    maintenance mode, is in state RECOVERING and has [lastApplied >=
    minValid]; the call asks for SECONDARY; so the transition never fires
    while [lastApplied < minValid]; and when [setFollowerMode] fails, the
    failure is logged as a warning and nothing else happens. *)
Theorem secondary_only_when_recovering_and_caught_up
    {R : Type} `{ReplicationCoordinator R} (replCoord : R) (minValid : OpTime) :
  exists replCoord' events,
    tryToGoLiveAsASecondary replCoord minValid = Ret (replCoord', events)
    /\ (forall s st,
          In (CalledSetFollowerMode s st) events
          <-> (s = RS_SECONDARY /\ st = fst (setFollowerMode RS_SECONDARY replCoord)
               /\ mayGoLive replCoord minValid))
    /\ (OpTime_lt (getMyLastAppliedOpTime replCoord) minValid = true ->
        forall s st, ~ In (CalledSetFollowerMode s st) events)
    /\ (forall s st,
          In (CalledSetFollowerMode s st) events ->
          replCoord' = snd (setFollowerMode RS_SECONDARY replCoord)
          /\ (isOK st = false -> In (Warned st) events)).
Proof.
  unfold tryToGoLiveAsASecondary, mayGoLive.
  destruct (isInPrimaryOrSecondaryState_UNSAFE replCoord) eqn:Hunsafe.
  { exists replCoord, []. split; [reflexivity |]. split; [| split].
    - intros s st. simpl. split; [tauto | intros (_ & _ & ? & _); discriminate].
    - intros _ s st [].
    - intros s st []. }
  pose proof (goLiveUnderLock_calls replCoord minValid) as Hcalls.
  destruct (goLiveUnderLock replCoord minValid) as [r' evs] eqn:Hgo. simpl in Hcalls.
  exists r', (AcquiredRSTL :: evs ++ [AttemptCounted]). split; [reflexivity |].
  assert (Hin : forall s st,
             In (CalledSetFollowerMode s st) (AcquiredRSTL :: evs ++ [AttemptCounted])
             <-> In (CalledSetFollowerMode s st) evs).
  { intros s st. simpl. rewrite in_app_iff. simpl. split.
    - intros [? | [? | [? | []]]]; try discriminate. assumption.
    - auto. }
  split; [| split].
  - intros s st. rewrite Hin, Hcalls. tauto.
  - intros Hlt s st. rewrite Hin, Hcalls. unfold OpTime_ge. rewrite Hlt.
    intros (_ & _ & _ & _ & _ & ?). discriminate.
  - intros s st Hcall. apply Hin, Hcalls in Hcall as (-> & -> & Hs & Hm & Hr & Hge).
    revert Hgo. unfold goLiveUnderLock, recovering. rewrite Hs, Hm, Hr. simpl.
    unfold OpTime_ge in Hge. apply negb_true_iff in Hge. rewrite Hge.
    destruct (setFollowerMode RS_SECONDARY replCoord) as [status r2]. simpl.
    intros Hgo. inversion Hgo; subst. split; [reflexivity |].
    intros Hbad. rewrite Hbad. simpl. tauto.
Qed.

(** *** Writing the batch to the oplog (sync_tail.cpp) *)

Definition insertStatementOf (op : OplogEntry) : InsertStatement :=
  mkInsertStatement (raw op) (getTimestamp (getOpTime op)) (OpTime_getTerm (getOpTime op)).

(** [for (size_t i = begin; i < end; i++) docs.emplace_back(...ops[i]...)];
    reading [ops[i]] past the end of the vector is undefined. *)
Fixpoint docsOfRange (operations : list OplogEntry) (i count : nat)
  : Result (list InsertStatement) :=
  match count with
  | O => Ret []
  | S count' =>
      match operations !! i with
      | None => Undefined "ops[i]"
      | Some op =>
          docs ← docsOfRange operations (S i) count'; Ret (insertStatementOf op :: docs)
      end
  end.

(** The documents that the writer of the range [[begin, end)] hands to
    [insertDocuments]. *)
Definition makeOplogWriterForRange (operations : list OplogEntry) (range : Z * Z)
  : Result (list InsertStatement) :=
  docsOfRange operations (Z.to_nat (fst range)) (Z.to_nat (snd range - fst range)).

Definition kMinOplogEntriesPerThread : Z := 16.

(** [scheduleWritesToOplog]: the ranges of the writers it schedules, in the
    order in which it schedules them, on a pool of [numThreads] threads that
    takes every task; [multiApply] below adds the assertion on the answer of
    the pool, and runs the writers. *)
Definition scheduleWritesToOplog (numThreads : nat) (operations : list OplogEntry)
  : Result (list (Z * Z)) :=
  let size := Z.of_nat (length operations) in
  let enoughToMultiThread :=
    size_t (kMinOplogEntriesPerThread * Z.of_nat numThreads) <=? size in
  if negb enoughToMultiThread || negb supportsDocLocking then Ret [(0, size)]
  else
    let numOplogThreads := Z.of_nat numThreads in
    if numOplogThreads =? 0 then Undefined "ops.size() / numOplogThreads"
    else
      let numOpsPerThread := size / numOplogThreads in
      Ret (map (fun thread : nat =>
                  let begin := size_t (Z.of_nat thread * numOpsPerThread) in
                  let end_ :=
                    if Z.of_nat thread =? size_t (numOplogThreads - 1) then size
                    else size_t (begin + numOpsPerThread) in
                  (begin, end_))
             (seq 0 numThreads)).

(** **** Properties of the oplog writers *)

Lemma docsOfRange_slice (operations : list OplogEntry) (count : nat) :
  forall i : nat,
    (i + count <= length operations)%nat ->
    docsOfRange operations i count
    = Ret (map insertStatementOf (take count (drop i operations))).
Proof.
  induction count as [|count IH]; intros i Hle; cbn [docsOfRange].
  - rewrite take_0. reflexivity.
  - destruct (operations !! i) as [op |] eqn:Hop.
    + rewrite IH by lia. rewrite (drop_S _ _ _ Hop). reflexivity.
    + apply lookup_ge_None in Hop. lia.
Qed.

Lemma chunks_concat {A B : Type} (f : A -> B) (l : list A) (k m : nat) :
  concat (map (fun t => map f (take k (drop (t * k) l))) (seq 0 m))
  = map f (take (m * k) l).
Proof.
  induction m as [|m IH]; [reflexivity |].
  rewrite seq_S, map_app, concat_app, IH. simpl. rewrite app_nil_r, <- map_app.
  rewrite take_take_drop. f_equal. f_equal. lia.
Qed.

(** The range of the writer [thread], of [numThreads], over [size]
    operations. *)
Definition rangeOf (size numThreads thread : nat) : nat * nat :=
  ((thread * (size / numThreads))%nat,
   if (thread =? numThreads - 1)%nat then size
   else (thread * (size / numThreads) + size / numThreads)%nat).

Lemma rangeOf_bounds (size numThreads thread : nat) :
  (0 < numThreads)%nat -> (thread < numThreads)%nat ->
  (fst (rangeOf size numThreads thread) <= snd (rangeOf size numThreads thread))%nat
  /\ (snd (rangeOf size numThreads thread) <= size)%nat
  /\ (size / numThreads <= snd (rangeOf size numThreads thread)
                           - fst (rangeOf size numThreads thread))%nat.
Proof.
  intros Hn Ht. unfold rangeOf. simpl.
  assert (Hk : (numThreads * (size / numThreads) <= size)%nat)
    by (apply Nat.Div0.mul_div_le).
  assert (Hlast : ((numThreads - 1) * (size / numThreads) + size / numThreads <= size)%nat) by nia.
  destruct (Nat.eqb_spec thread (numThreads - 1)) as [-> | Hne].
  - repeat split; nia.
  - assert ((thread + 1) * (size / numThreads) <= (numThreads - 1) * (size / numThreads))%nat
      by (apply Nat.mul_le_mono_r; lia).
    repeat split; nia.
Qed.

Lemma makeOplogWriterForRange_slice (operations : list OplogEntry) (b e : nat) :
  (b <= e)%nat -> (e <= length operations)%nat ->
  makeOplogWriterForRange operations (Z.of_nat b, Z.of_nat e)
  = Ret (map insertStatementOf (take (e - b) (drop b operations))).
Proof.
  intros Hbe He. unfold makeOplogWriterForRange. cbn [fst snd].
  rewrite <- Nat2Z.inj_sub by exact Hbe. rewrite !Nat2Z.id.
  apply docsOfRange_slice. lia.
Qed.

Lemma scheduled_range (size numThreads thread : nat) :
  (0 < numThreads)%nat -> (thread < numThreads)%nat -> Z.of_nat size < 2 ^ 64 ->
  Z.of_nat numThreads < 2 ^ 64 ->
  let numOpsPerThread := Z.of_nat size / Z.of_nat numThreads in
  let begin := size_t (Z.of_nat thread * numOpsPerThread) in
  (begin,
   if Z.of_nat thread =? size_t (Z.of_nat numThreads - 1) then Z.of_nat size
   else size_t (begin + numOpsPerThread))
  = (Z.of_nat (fst (rangeOf size numThreads thread)),
     Z.of_nat (snd (rangeOf size numThreads thread))).
Proof.
  intros Hn Ht Hsize Hthreads numOpsPerThread begin.
  destruct (rangeOf_bounds size numThreads thread Hn Ht) as (Hbe & Hes & _).
  unfold rangeOf in *. cbn [fst snd] in *.
  assert (Hk : numOpsPerThread = Z.of_nat (size / numThreads)).
  { unfold numOpsPerThread. symmetry. apply Nat2Z.inj_div. }
  assert (Hbegin : begin = Z.of_nat (thread * (size / numThreads))).
  { unfold begin. rewrite Hk, <- Nat2Z.inj_mul. apply size_t_small. lia. }
  rewrite Hbegin, Hk. rewrite (size_t_small (Z.of_nat numThreads - 1)) by lia.
  f_equal.
  destruct (Nat.eqb_spec thread (numThreads - 1)) as [E | E].
  - destruct (Z.eqb_spec (Z.of_nat thread) (Z.of_nat numThreads - 1)); [reflexivity | lia].
  - destruct (Z.eqb_spec (Z.of_nat thread) (Z.of_nat numThreads - 1)); [lia |].
    rewrite <- Nat2Z.inj_add. apply size_t_small. lia.
Qed.

(** The documents of the writer [thread]. *)
Definition docsOf (operations : list OplogEntry) (numThreads thread : nat)
  : list InsertStatement :=
  map insertStatementOf
    (take (snd (rangeOf (length operations) numThreads thread)
           - fst (rangeOf (length operations) numThreads thread))
       (drop (fst (rangeOf (length operations) numThreads thread)) operations)).

Lemma docsOf_concat (operations : list OplogEntry) (numThreads : nat) :
  (0 < numThreads)%nat ->
  concat (map (docsOf operations numThreads) (seq 0 numThreads))
  = map insertStatementOf operations.
Proof.
  intros Hn. destruct numThreads as [|m]; [lia |].
  set (k := (length operations / S m)%nat).
  assert (Hk : (m * k + k <= length operations)%nat).
  { pose proof (Nat.Div0.mul_div_le (length operations) (S m)). fold k in H. lia. }
  rewrite seq_S, map_app, concat_app. simpl.
  rewrite (map_ext_in _ (fun t => map insertStatementOf (take k (drop (t * k) operations)))).
  - rewrite chunks_concat, app_nil_r. unfold docsOf, rangeOf. cbn [fst snd]. fold k.
    replace (m =? S m - 1)%nat with true by (symmetry; apply Nat.eqb_eq; lia).
    rewrite (take_ge (drop (m * k) operations)) by (rewrite length_drop; lia).
    rewrite <- map_app, take_drop. reflexivity.
  - intros t Hin. apply in_seq in Hin. unfold docsOf, rangeOf. cbn [fst snd]. fold k.
    replace (t =? S m - 1)%nat with false by (symmetry; apply Nat.eqb_neq; lia).
    do 2 f_equal. lia.
Qed.

(** X16.  On a pool of at least one thread (fewer than 2^60 threads and a
    batch of fewer than 2^64 operations, so that the arithmetic on [size_t]
    does not wrap), [scheduleWritesToOplog] schedules writers whose ranges lie within the batch (no writer reads
    past its end) and whose documents, taken in the order of the writers,
    are the documents of the batch in its order: every operation is written
    to the oplog by exactly one writer.  There is one writer, or one per
    thread, and then each writes at least 16 documents; a storage engine
    without document-level locking gets the one writer. *)
Theorem oplog_writers_cover_the_batch_once
    (numThreads : nat) (operations : list OplogEntry) :
  (0 < numThreads)%nat -> Z.of_nat numThreads < 2 ^ 60 ->
  Z.of_nat (length operations) < 2 ^ 64 ->
  exists (ranges : list (Z * Z)) (docs : list (list InsertStatement)),
    scheduleWritesToOplog numThreads operations = Ret ranges
    /\ Forall2 (fun range d => makeOplogWriterForRange operations range = Ret d) ranges docs
    /\ concat docs = map insertStatementOf operations
    /\ (length ranges = 1%nat
        \/ (length ranges = numThreads /\ Forall (fun d => (16 <= length d)%nat) docs))
    /\ (supportsDocLocking = false -> ranges = [(0, Z.of_nat (length operations))]).
Proof.
  intros Hn Hthreads Hsize. unfold scheduleWritesToOplog.
  destruct (negb (size_t (kMinOplogEntriesPerThread * Z.of_nat numThreads)
                  <=? Z.of_nat (length operations)) || negb supportsDocLocking) eqn:Hone.
  - exists [(0, Z.of_nat (length operations))], [map insertStatementOf operations].
    split; [reflexivity |]. split; [| split; [| split]].
    + constructor; [| constructor].
      change (0, Z.of_nat (length operations))
        with (Z.of_nat 0, Z.of_nat (length operations)).
      rewrite (makeOplogWriterForRange_slice operations 0 (length operations)) by lia.
      rewrite drop_0, take_ge by lia. reflexivity.
    + simpl. apply app_nil_r.
    + left. reflexivity.
    + reflexivity.
  - apply orb_false_iff in Hone as [Henough Hdoc].
    apply negb_false_iff in Henough. apply negb_false_iff in Hdoc.
    unfold kMinOplogEntriesPerThread in Henough.
    rewrite size_t_small in Henough by lia. apply Z.leb_le in Henough.
    destruct (Z.eqb_spec (Z.of_nat numThreads) 0) as [E | _]; [lia |].
    exists (map (fun t => (Z.of_nat (fst (rangeOf (length operations) numThreads t)),
                           Z.of_nat (snd (rangeOf (length operations) numThreads t))))
              (seq 0 numThreads)),
           (map (docsOf operations numThreads) (seq 0 numThreads)).
    split; [| split; [| split; [| split]]].
    + f_equal. apply map_ext_in. intros t Hin. apply in_seq in Hin.
      apply (scheduled_range (length operations) numThreads t); [lia | lia | exact Hsize | lia].
    + apply Forall2_fmap, Forall_Forall2_diag, Forall_forall. intros t Hin.
      apply elem_of_seq in Hin.
      destruct (rangeOf_bounds (length operations) numThreads t) as (Hbe & Hes & _); [lia.. |].
      apply makeOplogWriterForRange_slice; assumption.
    + apply docsOf_concat. exact Hn.
    + right. split; [rewrite length_map, length_seq; reflexivity |].
      apply Forall_fmap, Forall_forall. intros t Hin. apply elem_of_seq in Hin.
      destruct (rangeOf_bounds (length operations) numThreads t) as (Hbe & Hes & Hk); [lia.. |].
      simpl. unfold docsOf. rewrite length_map, length_take, length_drop.
      assert (16 <= length operations / numThreads)%nat
        by (apply Nat.div_le_lower_bound; lia).
      lia.
    + intros Hno. congruence.
Qed.

(** *** [multiApply] and the pipeline driver (sync_tail.cpp) *)

(** Modelled from the spec: the consistency markers [appliedThrough],
    [minValid] and [oplogTruncateAfterPoint], and [setMinValidToAtLeast],
    which raises [minValid] to its maximum with the given optime
    (replication_consistency_markers.h lies outside the files embedded here). *)
Record ConsistencyMarkers : Type := mkMarkers {
  appliedThrough : OpTime;
  minValid : OpTime;
  oplogTruncateAfterPoint : Timestamp }.

Definition setOplogTruncateAfterPoint (t : Timestamp) (m : ConsistencyMarkers)
  : ConsistencyMarkers :=
  mkMarkers (appliedThrough m) (minValid m) t.

Definition setMinValidToAtLeast (t : OpTime) (m : ConsistencyMarkers) : ConsistencyMarkers :=
  mkMarkers (appliedThrough m) (if OpTime_gt t (minValid m) then t else minValid m)
    (oplogTruncateAfterPoint m).

Definition setAppliedThrough (t : OpTime) (m : ConsistencyMarkers) : ConsistencyMarkers :=
  mkMarkers t (minValid m) (oplogTruncateAfterPoint m).

(** The writer pool, the applier's options and the fail points and
    shutdown flag [multiApply] and the driver read.  Of the pool:
    [getStats().numThreads], and the status [schedule] answers when it is
    handed a task, the same for the whole of a turn: OK, or the error of a
    pool that is shut down. *)
Record ApplierEnv : Type := mkApplierEnv {
  numThreads : nat;
  ThreadPool_schedule : Status;
  skipWritesToOplog : bool;
  pauseBatchApplicationAfterWritingOplogEntries : bool;
  pauseBatchApplicationBeforeCompletion : bool;
  syncTailInShutdown : bool;
  driver_rsSyncApplyStop : bool;
  globalInShutdown : bool }.

(** The writers of the oplog that [scheduleWritesToOplog] hands to the pool
    run in the threads of the pool while [multiApply] partitions the batch,
    and each ends in [fassert(40141, storageInterface->insertDocuments(...))].
    They are run here where [multiApply] waits for the pool, in the order in
    which they were scheduled: of a fatal failure of the partitioner and one
    of a writer, the partitioner's is the one reported. *)
Fixpoint runOplogWriters (operations : list OplogEntry) (ranges : list (Z * Z))
  : Result unit :=
  match ranges with
  | [] => Ret tt
  | range :: rest =>
      docs ← makeOplogWriterForRange operations range;
      let status := insertDocuments docs in
      if isOK status then runOplogWriters operations rest else Fatal 40141 (Some status)
  end.

(** What [_applyOps] followed by [waitForIdle] leaves for a writer: one
    with nothing to do is not scheduled, and keeps the initial
    [Status::OK()] and no multikey paths. *)
Definition workerResult (writer : list OplogEntry) : Status * list MultikeyPathInfo :=
  match writer with
  | [] => (Status_OK, [])
  | _ :: _ => _applyFunc writer
  end.

(** [_applyOps]: each writer with something to do is handed to the pool
    under [invariant(_writerPool->schedule(...))]. *)
Definition _applyOps (env : ApplierEnv) (writerVectors : list (list OplogEntry))
  : Result (list Status * list (list MultikeyPathInfo)) :=
  _ ← invariant (bool_decide (length writerVectors = numThreads env))
        "writerVectors.size() == statusVector->size()";
  _ ← invariant (forallb (fun writer => match writer with
                                        | [] => true
                                        | _ :: _ => isOK (ThreadPool_schedule env)
                                        end) writerVectors)
        "_writerPool->schedule(...)";
  Ret (map (fun w => fst (workerResult w)) writerVectors,
       map (fun w => snd (workerResult w)) writerVectors).

(** [for (auto it = statusVector.cbegin(); ...) if (!status.isOK()) return status;] *)
Fixpoint firstNotOK (statusVector : list Status) : option Status :=
  match statusVector with
  | [] => None
  | status :: rest => if negb (isOK status) then Some status else firstNotOK rest
  end.

(** [fassert(50686, setIndexIsMultikey(...))] over every path of every
    writer. *)
Fixpoint setMultikeys (firstTimeInBatch : Timestamp) (infos : list MultikeyPathInfo)
  : Result unit :=
  match infos with
  | [] => Ret tt
  | info :: rest =>
      let status := setIndexIsMultikey info firstTimeInBatch in
      if isOK status then setMultikeys firstTimeInBatch rest else Fatal 50686 (Some status)
  end.

Definition markersAfterWrites (env : ApplierEnv) (lastOpTimeInBatch : OpTime)
  (m : ConsistencyMarkers) : ConsistencyMarkers :=
  if negb (skipWritesToOplog env)
  then setMinValidToAtLeast lastOpTimeInBatch (setOplogTruncateAfterPoint (mkTimestamp 0 0) m)
  else m.

Definition StatusWith (A : Type) : Type := Status + A.

Definition multiApply (fuel : nat) (oplog : Oplog) (chainFuel : nat) (env : ApplierEnv)
  (applierState : ApplierState) (markers : ConsistencyMarkers) (operations : list OplogEntry)
  : Result (StatusWith OpTime * ConsistencyMarkers) :=
  match operations with
  | [] => InvariantFailure "!ops.empty()"
  | front :: _ =>
      let backOp := List.last operations front in
      if bool_decide (applierState = Stopped) then
        Ret (inl (mkStatus CannotApplyOplogWhilePrimary
                    "attempting to replicate ops while primary"), markers)
      else
        let markers1 :=
          if negb (skipWritesToOplog env)
          then setOplogTruncateAfterPoint (getTimestamp (getOpTime front)) markers
          else markers in
        ranges ←
          (if negb (skipWritesToOplog env) then
             ranges ← scheduleWritesToOplog (numThreads env) operations;
             _ ← invariant (isOK (ThreadPool_schedule env)) "threadPool->schedule(...)";
             Ret ranges
           else Ret []);
        st ← _fillWriterVectors_batch fuel oplog chainFuel operations
               (mkFillState (replicate (numThreads env) []) []);
        _ ← runOplogWriters operations ranges;
        if pauseBatchApplicationAfterWritingOplogEntries env
        then Blocked "pauseBatchApplicationAfterWritingOplogEntries"
        else
          let markers2 := markersAfterWrites env (getOpTime backOp) markers1 in
          '(statusVector, multikeyVector) ← _applyOps env (writerVectors st);
          match firstNotOK statusVector with
          | Some status => Ret (inl status, markers2)
          | None =>
              if pauseBatchApplicationBeforeCompletion env then
                if syncTailInShutdown env then Fatal 50798 None
                else Blocked "pauseBatchApplicationBeforeCompletion"
              else
                _ ← setMultikeys (getTimestamp (getOpTime front)) (concat multikeyVector);
                Ret (inr (getOpTime backOp), markers2)
          end
  end.

(** What one turn of the driver's loop leaves behind. *)
Inductive DriverEvent : Type :=
| GoLive (e : GoLiveEvent)
| SignalledDrainComplete (term : Z)
| OplogDiskLocRegistered (t : Timestamp) (orderedCommit : bool)
| FinalizerRecorded (t : OpTime) (wall : Date_t) (consistency : DataConsistency).

Inductive LoopControl : Type := ExitLoop | NextIteration.

Definition outOfOrderStatus (firstOpTimeInBatch lastApplied : OpTime) : Status :=
  mkStatus OplogOutOfOrder
    (String.append "Attempted to apply an oplog entry ("
       (String.append (OpTime_toString firstOpTimeInBatch)
          (String.append ") which is not greater than our last applied OpTime ("
             (String.append (OpTime_toString lastApplied) ").")))).

(** The driver's turn from the call of [multiApply] on: the batch is
    applied and the markers, the oplog visibility and the last applied
    optime are advanced. *)
Definition applyBatch {R : Type} `{ReplicationCoordinator R} (fuel : nat) (oplog : Oplog)
  (chainFuel : nat) (env : ApplierEnv) (replCoord : R) (markers : ConsistencyMarkers)
  (minValidNow : OpTime) (operations : list OplogEntry) (front : OplogEntry)
  (events : list DriverEvent)
  : Result (LoopControl * R * ConsistencyMarkers * list DriverEvent) :=
  let lastOpInBatch := List.last operations front in
  let lastOpTimeInBatch := getOpTime lastOpInBatch in
  let lastWallTimeInBatch := getWallClockTime lastOpInBatch in
  let lastAppliedOpTimeAtStartOfBatch := getMyLastAppliedOpTime replCoord in
  '(applied, markers1) ←
     multiApply fuel oplog chainFuel env (getApplierState replCoord) markers operations;
  match applied with
  | inl status => Fatal 34437 (Some status)
  | inr lastOpTimeAppliedInBatch =>
      _ ← invariant (OpTime_eq lastOpTimeAppliedInBatch lastOpTimeInBatch)
            "lastOpTimeAppliedInBatch == lastOpTimeInBatch";
      let minValidNow :=
        if OpTime_gt lastOpTimeInBatch minValidNow then lastOpTimeInBatch else minValidNow in
      let markers2 := setAppliedThrough lastOpTimeInBatch markers1 in
      _ ← invariant (OpTime_eq lastAppliedOpTimeAtStartOfBatch (getMyLastAppliedOpTime replCoord))
            "the last known applied OpTime has changed in the middle of batch application";
      let consistency :=
        if OpTime_ge lastOpTimeInBatch minValidNow then Consistent else Inconsistent in
      match lastWallTimeInBatch with
      | None => InvariantFailure "lastWallTimeInBatch"
      | Some wall =>
          Ret (NextIteration,
               setMyLastAppliedOpTimeAndWallTimeForward (lastOpTimeInBatch, wall) consistency
                 replCoord,
               markers2,
               events ++ [OplogDiskLocRegistered (getTimestamp lastOpTimeInBatch) true;
                          FinalizerRecorded lastOpTimeInBatch wall consistency])
      end
  end.

(** One turn of the loop of [_oplogApplication], given the batch that
    [getNextBatch] hands over. *)
Definition _oplogApplication_iteration {R : Type} `{ReplicationCoordinator R} (fuel : nat)
  (oplog : Oplog) (chainFuel : nat) (env : ApplierEnv) (replCoord : R)
  (markers : ConsistencyMarkers) (batch : OpQueue)
  : Result (LoopControl * R * ConsistencyMarkers * list DriverEvent) :=
  if driver_rsSyncApplyStop env then
    if globalInShutdown env then Fatal 40304 None else Blocked "rsSyncApplyStop"
  else
    let minValidNow := minValid markers in
    '(replCoord, goLive) ← tryToGoLiveAsASecondary replCoord minValidNow;
    let events := map GoLive goLive in
    let termWhenBufferIsEmpty := getTerm replCoord in
    match _batch batch with
    | [] =>
        if mustShutdown batch then Ret (ExitLoop, replCoord, markers, events)
        else if driver_rsSyncApplyStop env then Ret (NextIteration, replCoord, markers, events)
        else Ret (NextIteration, signalDrainComplete termWhenBufferIsEmpty replCoord, markers,
                  events ++ [SignalledDrainComplete termWhenBufferIsEmpty])
    | front :: _ =>
        let firstOpTimeInBatch := getOpTime front in
        let lastAppliedOpTimeAtStartOfBatch := getMyLastAppliedOpTime replCoord in
        if OpTime_le firstOpTimeInBatch lastAppliedOpTimeAtStartOfBatch then
          Fatal 34361 (Some (outOfOrderStatus firstOpTimeInBatch lastAppliedOpTimeAtStartOfBatch))
        else
          applyBatch fuel oplog chainFuel env replCoord markers minValidNow (_batch batch) front
            events
    end.

(** **** Properties of [multiApply] and of the driver *)

Lemma firstNotOK_first (pre post : list Status) (status : Status) :
  Forall (fun s => isOK s = true) pre -> isOK status = false ->
  firstNotOK (pre ++ status :: post) = Some status.
Proof.
  intros Hpre Hbad. induction Hpre as [|s pre Hs _ IH]; simpl.
  - rewrite Hbad. reflexivity.
  - rewrite Hs. exact IH.
Qed.

Lemma firstNotOK_none (statusVector : list Status) :
  Forall (fun s => isOK s = true) statusVector -> firstNotOK statusVector = None.
Proof.
  induction 1 as [|s l Hs _ IH]; simpl; [reflexivity |]. rewrite Hs. exact IH.
Qed.

Lemma setMultikeys_ok (t : Timestamp) (infos : list MultikeyPathInfo) :
  Forall (fun info => isOK (setIndexIsMultikey info t) = true) infos ->
  setMultikeys t infos = Ret tt.
Proof.
  induction 1 as [|i l Hi _ IH]; simpl; [reflexivity |]. rewrite Hi. exact IH.
Qed.

(** A pool that takes every task takes every writer. *)
Lemma forallb_scheduled (env : ApplierEnv) (writerVectors : list (list OplogEntry)) :
  isOK (ThreadPool_schedule env) = true ->
  forallb (fun writer => match writer with
                         | [] => true
                         | _ :: _ => isOK (ThreadPool_schedule env)
                         end) writerVectors = true.
Proof.
  intros Hpool. induction writerVectors as [|w l IH]; [reflexivity |].
  simpl. rewrite IH. destruct w; [reflexivity | rewrite Hpool; reflexivity].
Qed.

(** C8. Once the batch is written to the oplog and partitioned (the applier
    not being stopped, the pool taking every task it is handed, the writers
    of the oplog scheduled and each of their inserts succeeding, unless
    writes to the oplog are skipped, and the pause-after-writing fail point
    off), [multiApply] has one status per writer thread, each the status its
    worker returned (or OK for an idle one); if some status is not OK it
    returns the first such status as the result of the whole batch; if all
    are OK (and the pause-before-completion fail point is off and the
    multikey updates succeed) it returns the optime of the last operation of
    the batch. *)
Theorem multiApply_returns_first_failure_or_last_optime
    (fuel : nat) (oplog : Oplog) (chainFuel : nat) (env : ApplierEnv)
    (applierState : ApplierState) (markers : ConsistencyMarkers)
    (front : OplogEntry) (rest : list OplogEntry) (ranges : list (Z * Z)) (st : FillState) :
  applierState <> Stopped ->
  isOK (ThreadPool_schedule env) = true ->
  (if skipWritesToOplog env then Ret []
   else scheduleWritesToOplog (numThreads env) (front :: rest)) = Ret ranges ->
  _fillWriterVectors_batch fuel oplog chainFuel (front :: rest)
    (mkFillState (replicate (numThreads env) []) []) = Ret st ->
  runOplogWriters (front :: rest) ranges = Ret tt ->
  pauseBatchApplicationAfterWritingOplogEntries env = false ->
  let operations := front :: rest in
  let lastOpTimeInBatch := getOpTime (List.last operations front) in
  let statusVector := map (fun w => fst (workerResult w)) (writerVectors st) in
  let multikeyVector := map (fun w => snd (workerResult w)) (writerVectors st) in
  let markers' :=
    markersAfterWrites env lastOpTimeInBatch
      (if negb (skipWritesToOplog env)
       then setOplogTruncateAfterPoint (getTimestamp (getOpTime front)) markers
       else markers) in
  length statusVector = numThreads env
  /\ (forall pre status post,
        statusVector = pre ++ status :: post ->
        Forall (fun s => isOK s = true) pre -> isOK status = false ->
        multiApply fuel oplog chainFuel env applierState markers operations
        = Ret (inl status, markers'))
  /\ (Forall (fun s => isOK s = true) statusVector ->
      pauseBatchApplicationBeforeCompletion env = false ->
      Forall (fun info => isOK (setIndexIsMultikey info (getTimestamp (getOpTime front))) = true)
        (concat multikeyVector) ->
      multiApply fuel oplog chainFuel env applierState markers operations
      = Ret (inr lastOpTimeInBatch, markers')).
Proof.
  intros Hrun Hpool Hsched Hfill Hwrite Hpause
    operations lastOpTimeInBatch statusVector multikeyVector markers'.
  assert (Hlen : length (writerVectors st) = numThreads env).
  { rewrite (_fillWriterVectors_batch_length _ _ _ _ _ _ Hfill). simpl.
    apply length_replicate. }
  assert (Hprefix : multiApply fuel oplog chainFuel env applierState markers operations
                    = match firstNotOK statusVector with
                      | Some status => Ret (inl status, markers')
                      | None =>
                          if pauseBatchApplicationBeforeCompletion env then
                            if syncTailInShutdown env then Fatal 50798 None
                            else Blocked "pauseBatchApplicationBeforeCompletion"
                          else
                            _ ← setMultikeys (getTimestamp (getOpTime front))
                                  (concat multikeyVector);
                            Ret (inr lastOpTimeInBatch, markers')
                      end).
  { unfold multiApply, markers', lastOpTimeInBatch, statusVector, multikeyVector, operations.
    rewrite (bool_decide_eq_false_2 _ Hrun).
    assert (Hranges : (if negb (skipWritesToOplog env)
                       then ranges0 ← scheduleWritesToOplog (numThreads env) (front :: rest);
                            _ ← invariant (isOK (ThreadPool_schedule env))
                                  "threadPool->schedule(...)";
                            Ret ranges0
                       else Ret []) = Ret ranges).
    { destruct (skipWritesToOplog env); simpl; [exact Hsched |].
      rewrite Hsched. simpl. rewrite Hpool. reflexivity. }
    rewrite Hranges. simpl. rewrite Hfill. simpl. rewrite Hwrite. simpl.
    rewrite Hpause. unfold _applyOps. rewrite (bool_decide_eq_true_2 _ Hlen). simpl.
    rewrite (forallb_scheduled _ _ Hpool). simpl.
    reflexivity. }
  split; [| split].
  - unfold statusVector. rewrite length_map. exact Hlen.
  - intros pre status post Hsplit Hpre Hbad. rewrite Hprefix, Hsplit.
    rewrite (firstNotOK_first _ _ _ Hpre Hbad). reflexivity.
  - intros Hall Hpause2 Hmk. rewrite Hprefix, (firstNotOK_none _ Hall), Hpause2.
    rewrite (setMultikeys_ok _ _ Hmk). reflexivity.
Qed.

(** C3. For a non-empty batch that the driver takes (the stop fail point
    being off), with [lastApplied] the coordinator's last applied optime
    when the batch is taken: if the first optime of the batch is not
    strictly greater than [lastApplied], the turn ends in the fatal
    assertion 34361 with an [OplogOutOfOrder] status; otherwise the batch
    is handed to [multiApply]; so a turn that completes has applied a
    batch whose first optime is strictly greater than [lastApplied]. *)
Theorem out_of_order_batch_is_fatal
    {R : Type} `{ReplicationCoordinator R} (fuel : nat) (oplog : Oplog) (chainFuel : nat)
    (env : ApplierEnv) (replCoord replCoord1 : R) (markers : ConsistencyMarkers)
    (batch : OpQueue) (front : OplogEntry) (rest : list OplogEntry)
    (goLive : list GoLiveEvent) :
  driver_rsSyncApplyStop env = false ->
  _batch batch = front :: rest ->
  tryToGoLiveAsASecondary replCoord (minValid markers) = Ret (replCoord1, goLive) ->
  let lastApplied := getMyLastAppliedOpTime replCoord1 in
  let turn := _oplogApplication_iteration fuel oplog chainFuel env replCoord markers batch in
  (OpTime_gt (getOpTime front) lastApplied = false ->
   turn = Fatal 34361 (Some (outOfOrderStatus (getOpTime front) lastApplied))
   /\ code (outOfOrderStatus (getOpTime front) lastApplied) = OplogOutOfOrder)
  /\ (OpTime_gt (getOpTime front) lastApplied = true ->
      turn = applyBatch fuel oplog chainFuel env replCoord1 markers (minValid markers)
               (front :: rest) front (map GoLive goLive))
  /\ (forall r, turn = Ret r -> OpTime_gt (getOpTime front) lastApplied = true).
Proof.
  intros Hfp Hbatch Hgo lastApplied turn.
  assert (Hturn : turn
                  = if OpTime_le (getOpTime front) lastApplied
                    then Fatal 34361 (Some (outOfOrderStatus (getOpTime front) lastApplied))
                    else applyBatch fuel oplog chainFuel env replCoord1 markers
                           (minValid markers) (front :: rest) front (map GoLive goLive)).
  { unfold turn, _oplogApplication_iteration. rewrite Hfp, Hgo. simpl.
    rewrite Hbatch. reflexivity. }
  unfold OpTime_gt. split; [| split].
  - intros Hgt. apply negb_false_iff in Hgt. rewrite Hturn, Hgt. split; reflexivity.
  - intros Hgt. apply negb_true_iff in Hgt. rewrite Hturn, Hgt. reflexivity.
  - intros r Hr. rewrite Hturn in Hr.
    destruct (OpTime_le (getOpTime front) lastApplied); [discriminate | reflexivity].
Qed.

(** **** What a turn of the driver leaves behind *)

Lemma OpTime_le_refl (t : OpTime) : OpTime_le t t = true.
Proof. unfold OpTime_le, OpTime_eq. rewrite bool_decide_eq_true_2 by reflexivity. apply orb_true_r. Qed.

(** The order of optimes is total. *)
Lemma OpTime_gt_le (a b : OpTime) : OpTime_gt a b = true -> OpTime_le b a = true.
Proof.
  destruct a as [[sa ia] ta], b as [[sb ib] tb].
  unfold OpTime_gt, OpTime_le, OpTime_lt, OpTime_eq, Timestamp_lt. simpl.
  rewrite negb_true_iff, !orb_false_iff, !andb_false_iff.
  intros [[[Hs Hi] Ht] Heq].
  apply Z.ltb_ge in Hs. apply bool_decide_eq_false_1 in Heq.
  destruct (Z.ltb_spec sb sa) as [Hlt | Hge]; [reflexivity |].
  assert (sa = sb) as -> by lia. rewrite Z.eqb_refl in *. simpl.
  destruct Hi as [Hi | Hi]; [discriminate |]. apply Z.ltb_ge in Hi.
  destruct (Z.ltb_spec ib ia) as [Hlt | Hge2]; [reflexivity |].
  assert (ia = ib) as -> by lia. simpl.
  rewrite (bool_decide_eq_true_2 (mkTimestamp sb ib = mkTimestamp sb ib)) in * by reflexivity.
  simpl in *. destruct Ht as [Ht | Ht]; [discriminate |]. apply Z.ltb_ge in Ht.
  destruct (Z.ltb_spec tb ta) as [Hlt | Hge3]; [reflexivity |].
  assert (ta = tb) as -> by lia. contradiction.
Qed.

(** X17.  [setMyLastAppliedOpTimeAndWallTimeForward] of the mock
    coordinator leaves as last applied optime the later of the one it had
    and the one it is given: the last applied optime never moves backwards,
    is at least the optime given, and is one of the two; the member state
    and the term are untouched. *)
Theorem mock_last_applied_only_moves_forward
    (m : ReplicationCoordinatorMock) (t : OpTime) (wall : Date_t) (consistency : DataConsistency) :
  let m' := setMyLastAppliedOpTimeAndWallTimeForward (t, wall) consistency m in
  OpTime_le (getMyLastAppliedOpTime m) (getMyLastAppliedOpTime m') = true
  /\ OpTime_le t (getMyLastAppliedOpTime m') = true
  /\ (getMyLastAppliedOpTime m' = t \/ m' = m)
  /\ getMemberState m' = getMemberState m /\ getTerm m' = getTerm m.
Proof.
  simpl. destruct (OpTime_gt t (_myLastAppliedOpTime m)) eqn:Hgt; simpl.
  - repeat split; auto using OpTime_gt_le, OpTime_le_refl.
  - repeat split; auto using OpTime_le_refl.
    unfold OpTime_gt in Hgt. apply negb_false_iff in Hgt. exact Hgt.
Qed.

Lemma multiApply_Ret_inv (fuel : nat) (oplog : Oplog) (chainFuel : nat) (env : ApplierEnv)
    (applierState : ApplierState) (markers : ConsistencyMarkers)
    (operations : list OplogEntry) result markers' :
  multiApply fuel oplog chainFuel env applierState markers operations = Ret (result, markers') ->
  exists front rest,
    operations = front :: rest
    /\ ((applierState = Stopped /\ markers' = markers
         /\ exists status, result = inl status /\ code status = CannotApplyOplogWhilePrimary)
        \/ (applierState <> Stopped
            /\ markers'
               = markersAfterWrites env (getOpTime (List.last operations front))
                   (if negb (skipWritesToOplog env)
                    then setOplogTruncateAfterPoint (getTimestamp (getOpTime front)) markers
                    else markers)
            /\ ((exists status, result = inl status /\ isOK status = false)
                \/ result = inr (getOpTime (List.last operations front))))).
Proof.
  unfold multiApply. destruct operations as [|front rest]; [discriminate |].
  intros H. exists front, rest. split; [reflexivity |].
  destruct (decide (applierState = Stopped)) as [Hs | Hs].
  - rewrite (bool_decide_eq_true_2 _ Hs) in H. inversion H; subst. left.
    repeat split. eexists. split; reflexivity.
  - rewrite (bool_decide_eq_false_2 _ Hs) in H. right. split; [exact Hs |].
    apply bindR_Ret_inv in H as (ranges & _ & H).
    apply bindR_Ret_inv in H as (st & _ & H).
    apply bindR_Ret_inv in H as ([] & _ & H).
    destruct (pauseBatchApplicationAfterWritingOplogEntries env); [discriminate |].
    apply bindR_Ret_inv in H as ([statusVector multikeyVector] & _ & H).
    destruct (firstNotOK statusVector) as [status |] eqn:Hfirst.
    + inversion H; subst. split; [reflexivity |]. left. exists status. split; [reflexivity |].
      clear H. induction statusVector as [|s l IH]; [discriminate |].
      simpl in Hfirst. destruct (isOK s) eqn:Hs'; simpl in Hfirst.
      * apply IH. exact Hfirst.
      * inversion Hfirst; subst. exact Hs'.
    + destruct (pauseBatchApplicationBeforeCompletion env).
      { destruct (syncTailInShutdown env); discriminate. }
      apply bindR_Ret_inv in H as ([] & _ & H). inversion H; subst. auto.
Qed.

(** X18.  Whenever [multiApply] returns, with a failure or with an
    optime, it has left [appliedThrough] alone.  It has left all the markers
    alone when it refused the batch (the applier being stopped) or when
    writes to the oplog are skipped.  Otherwise the truncate-after point,
    set to the first timestamp of the batch while the oplog was written, is
    null again, and [minValid] has not moved backwards and is at least the
    optime of the last operation of the batch. *)
Theorem multiApply_clears_the_truncate_point_and_raises_minValid
    (fuel : nat) (oplog : Oplog) (chainFuel : nat) (env : ApplierEnv)
    (applierState : ApplierState) (markers : ConsistencyMarkers)
    (operations : list OplogEntry) (result : StatusWith OpTime) (markers' : ConsistencyMarkers) :
  multiApply fuel oplog chainFuel env applierState markers operations = Ret (result, markers') ->
  appliedThrough markers' = appliedThrough markers
  /\ (applierState = Stopped \/ skipWritesToOplog env = true -> markers' = markers)
  /\ (applierState <> Stopped -> skipWritesToOplog env = false ->
      oplogTruncateAfterPoint markers' = mkTimestamp 0 0
      /\ OpTime_le (minValid markers) (minValid markers') = true
      /\ exists front rest,
           operations = front :: rest
           /\ OpTime_le (getOpTime (List.last operations front)) (minValid markers') = true).
Proof.
  intros H. apply multiApply_Ret_inv in H as (front & rest & Hops & H).
  destruct H as [(Hs & -> & _) | (Hs & -> & _)].
  - split; [reflexivity |]. split; [reflexivity |]. contradiction.
  - unfold markersAfterWrites. destruct (skipWritesToOplog env) eqn:Hskip; simpl.
    + split; [reflexivity |]. split; [reflexivity |]. discriminate.
    + split; [reflexivity |]. split; [intros [? | ?]; [contradiction | discriminate] |].
      intros _ _. split; [reflexivity |].
      destruct (OpTime_gt (getOpTime (List.last operations front)) (minValid markers)) eqn:Hgt.
      * split; [apply OpTime_gt_le; exact Hgt |]. exists front, rest.
        split; [exact Hops | apply OpTime_le_refl].
      * split; [apply OpTime_le_refl |]. exists front, rest. split; [exact Hops |].
        unfold OpTime_gt in Hgt. apply negb_false_iff in Hgt. exact Hgt.
Qed.

Lemma applyBatch_Ret_inv {R : Type} `{ReplicationCoordinator R} (fuel : nat) (oplog : Oplog)
    (chainFuel : nat) (env : ApplierEnv) (replCoord : R) (markers : ConsistencyMarkers)
    (minValidNow : OpTime) (front : OplogEntry) (rest : list OplogEntry)
    (events : list DriverEvent) ctl replCoord' markers' events' :
  applyBatch fuel oplog chainFuel env replCoord markers minValidNow (front :: rest) front events
  = Ret (ctl, replCoord', markers', events') ->
  let lastOp := List.last (front :: rest) front in
  exists wall consistency markers1,
    ctl = NextIteration
    /\ getApplierState replCoord <> Stopped
    /\ multiApply fuel oplog chainFuel env (getApplierState replCoord) markers (front :: rest)
       = Ret (inr (getOpTime lastOp), markers1)
    /\ markers' = setAppliedThrough (getOpTime lastOp) markers1
    /\ getWallClockTime lastOp = Some wall
    /\ replCoord'
       = setMyLastAppliedOpTimeAndWallTimeForward (getOpTime lastOp, wall) consistency replCoord
    /\ events'
       = events ++ [OplogDiskLocRegistered (getTimestamp (getOpTime lastOp)) true;
                    FinalizerRecorded (getOpTime lastOp) wall consistency].
Proof.
  intros H0 lastOp. unfold applyBatch in H0.
  apply bindR_Ret_inv in H0 as ([applied markers1] & Hmulti & H0).
  pose proof (multiApply_Ret_inv _ _ _ _ _ _ _ _ _ Hmulti) as (f & r & Hops & Hcases).
  inversion Hops; subst f r. clear Hops.
  destruct applied as [status | t]; [discriminate |].
  destruct Hcases as [(_ & _ & status & Hbad & _) | (Hrun & _ & [(status & Hbad & _) | Ht])];
    try discriminate.
  inversion Ht; subst t. fold lastOp in Hmulti, H0.
  apply bindR_Ret_inv in H0 as ([] & _ & H0).
  apply bindR_Ret_inv in H0 as ([] & _ & H0).
  destruct (getWallClockTime lastOp) as [wall |] eqn:Hwall; [| discriminate].
  inversion H0; subst. eexists wall, _, markers1. repeat split; auto.
Qed.

(** X19.  A turn of the driver that completes on a batch with entries
    goes on to the next turn, and has: applied the batch through
    [multiApply], the applier not being stopped and the first optime of the
    batch being later than the last applied one; set [appliedThrough] to the
    optime of the last entry of the batch; asked the coordinator to move its
    last applied optime forward to that optime, with the wall clock time of
    that entry; and registered that optime with the oplog and the
    finalizer, after the events of the attempt to go live. *)
Theorem completed_turn_records_the_last_optime_of_the_batch
    {R : Type} `{ReplicationCoordinator R} (fuel : nat) (oplog : Oplog) (chainFuel : nat)
    (env : ApplierEnv) (replCoord replCoord' : R) (markers markers' : ConsistencyMarkers)
    (batch : OpQueue) (front : OplogEntry) (rest : list OplogEntry) (ctl : LoopControl)
    (events : list DriverEvent) :
  _batch batch = front :: rest ->
  _oplogApplication_iteration fuel oplog chainFuel env replCoord markers batch
  = Ret (ctl, replCoord', markers', events) ->
  let lastOp := List.last (front :: rest) front in
  ctl = NextIteration
  /\ appliedThrough markers' = getOpTime lastOp
  /\ exists replCoord1 goLive wall consistency,
       tryToGoLiveAsASecondary replCoord (minValid markers) = Ret (replCoord1, goLive)
       /\ getApplierState replCoord1 <> Stopped
       /\ OpTime_gt (getOpTime front) (getMyLastAppliedOpTime replCoord1) = true
       /\ getWallClockTime lastOp = Some wall
       /\ replCoord'
          = setMyLastAppliedOpTimeAndWallTimeForward (getOpTime lastOp, wall) consistency
              replCoord1
       /\ events
          = map GoLive goLive
            ++ [OplogDiskLocRegistered (getTimestamp (getOpTime lastOp)) true;
                FinalizerRecorded (getOpTime lastOp) wall consistency].
Proof.
  intros Hbatch Hturn lastOp. unfold _oplogApplication_iteration in Hturn.
  destruct (driver_rsSyncApplyStop env).
  { destruct (globalInShutdown env); discriminate. }
  apply bindR_Ret_inv in Hturn as ([replCoord1 goLive] & Hgo & Hturn).
  rewrite Hbatch in Hturn.
  destruct (OpTime_le (getOpTime front) (getMyLastAppliedOpTime replCoord1)) eqn:Hle;
    [discriminate |].
  apply applyBatch_Ret_inv in Hturn
    as (wall & consistency & markers1 & -> & Hrun & _ & -> & Hwall & -> & ->).
  split; [reflexivity |]. split; [reflexivity |].
  exists replCoord1, goLive, wall, consistency. repeat split; auto.
  unfold OpTime_gt. rewrite Hle. reflexivity.
Qed.

Lemma tryToGoLiveAsASecondary_mock (m : ReplicationCoordinatorMock) (minValidOpTime : OpTime) :
  exists events,
    tryToGoLiveAsASecondary m minValidOpTime
    = Ret (mkMock
             (if recovering (_memberState m)
                 && OpTime_ge (_myLastAppliedOpTime m) minValidOpTime
              then RS_SECONDARY else _memberState m)
             (_myLastAppliedOpTime m) (_myLastAppliedWallTime m) (_term m), events).
Proof.
  destruct m as [s t w tm]. unfold tryToGoLiveAsASecondary, goLiveUnderLock, OpTime_ge. simpl.
  destruct s; simpl; try (eexists; reflexivity).
  destruct (OpTime_lt t minValidOpTime); simpl; eexists; reflexivity.
Qed.

(** X20.  Run against the mock coordinator, a turn of the driver that
    completes never moves the last applied optime backwards, and leaves the
    term alone.  On an empty batch it leaves the last applied optime and the
    markers as they were.  On a batch with entries, the first optime of the
    batch was later than the last applied optime, and the last applied
    optime becomes the optime of the last entry of the batch if that is
    later than the one before, and otherwise stays. *)
Theorem turn_on_the_mock_moves_last_applied_forward
    (fuel : nat) (oplog : Oplog) (chainFuel : nat) (env : ApplierEnv)
    (m m' : ReplicationCoordinatorMock) (markers markers' : ConsistencyMarkers)
    (batch : OpQueue) (ctl : LoopControl) (events : list DriverEvent) :
  _oplogApplication_iteration fuel oplog chainFuel env m markers batch
  = Ret (ctl, m', markers', events) ->
  OpTime_le (_myLastAppliedOpTime m) (_myLastAppliedOpTime m') = true
  /\ _term m' = _term m
  /\ (_batch batch = [] -> _myLastAppliedOpTime m' = _myLastAppliedOpTime m /\ markers' = markers)
  /\ (forall front rest,
        _batch batch = front :: rest ->
        OpTime_gt (getOpTime front) (_myLastAppliedOpTime m) = true
        /\ _myLastAppliedOpTime m'
           = if OpTime_gt (getOpTime (List.last (front :: rest) front)) (_myLastAppliedOpTime m)
             then getOpTime (List.last (front :: rest) front)
             else _myLastAppliedOpTime m).
Proof.
  intros Hturn. unfold _oplogApplication_iteration in Hturn.
  destruct (driver_rsSyncApplyStop env) eqn:Hstop.
  { destruct (globalInShutdown env); discriminate. }
  destruct (tryToGoLiveAsASecondary_mock m (minValid markers)) as [goLive Hgo].
  rewrite Hgo in Hturn. simpl in Hturn.
  set (m1 := mkMock _ (_myLastAppliedOpTime m) (_myLastAppliedWallTime m) (_term m)) in Hturn.
  destruct (_batch batch) as [|front rest] eqn:Hbatch.
  - assert (Hsame : _myLastAppliedOpTime m' = _myLastAppliedOpTime m /\ markers' = markers
                    /\ _term m' = _term m).
    { destruct (mustShutdown batch); inversion Hturn; subst; auto. }
    destruct Hsame as (Ht & Hm & Htm). rewrite Ht.
    split; [apply OpTime_le_refl |]. split; [exact Htm |]. split; [auto |]. discriminate.
  - destruct (OpTime_le (getOpTime front) (_myLastAppliedOpTime m)) eqn:Hle; [discriminate |].
    apply applyBatch_Ret_inv in Hturn
      as (wall & consistency & markers1 & _ & _ & _ & _ & _ & -> & _).
    remember (getOpTime (List.last (front :: rest) front)) as lastOpTimeInBatch eqn:Hlast.
    unfold m1.
    cbn [setMyLastAppliedOpTimeAndWallTimeForward ReplicationCoordinatorMock_coordinator
         fst snd _myLastAppliedOpTime _term].
    clear m1 Hgo.
    destruct (OpTime_gt lastOpTimeInBatch (_myLastAppliedOpTime m)) eqn:Hgt;
      cbn [_myLastAppliedOpTime _term].
    + split; [apply OpTime_gt_le; exact Hgt |]. split; [reflexivity |].
      split; [discriminate |]. intros f r Hfr. inversion Hfr; subst f r.
      unfold OpTime_gt at 1. rewrite Hle, <- Hlast, Hgt. auto.
    + split; [apply OpTime_le_refl |]. split; [reflexivity |].
      split; [discriminate |]. intros f r Hfr. inversion Hfr; subst f r.
      unfold OpTime_gt at 1. rewrite Hle, <- Hlast, Hgt. auto.
Qed.

(** X21.  On the mock coordinator, an attempt to go live always returns, and
    it leaves the node SECONDARY exactly when the node was RECOVERING with
    a last applied optime at or past [minValid] (or was SECONDARY already);
    in every other case the member state is what it was; the last applied
    optime, its wall clock time and the term are never touched. *)
Theorem mock_goes_live_when_recovering_and_caught_up
    (m : ReplicationCoordinatorMock) (minValidOpTime : OpTime) :
  exists m' events,
    tryToGoLiveAsASecondary m minValidOpTime = Ret (m', events)
    /\ (_memberState m' = RS_SECONDARY
        <-> _memberState m = RS_SECONDARY
            \/ (_memberState m = RS_RECOVERING
                /\ OpTime_lt (_myLastAppliedOpTime m) minValidOpTime = false))
    /\ (_memberState m' <> RS_SECONDARY -> _memberState m' = _memberState m)
    /\ _myLastAppliedOpTime m' = _myLastAppliedOpTime m
    /\ _myLastAppliedWallTime m' = _myLastAppliedWallTime m
    /\ _term m' = _term m.
Proof.
  destruct (tryToGoLiveAsASecondary_mock m minValidOpTime) as [events Hgo].
  eexists _, events. split; [exact Hgo |]. simpl.
  unfold recovering, OpTime_ge.
  destruct (decide (_memberState m = RS_RECOVERING)) as [Hrec | Hrec].
  - rewrite (bool_decide_eq_true_2 _ Hrec). simpl.
    destruct (OpTime_lt (_myLastAppliedOpTime m) minValidOpTime); simpl.
    + repeat split; auto; try congruence.
      intros [Hs | [_ Hf]]; [congruence | discriminate].
    + repeat split; auto; try congruence.
  - rewrite (bool_decide_eq_false_2 _ Hrec). simpl.
    repeat split; auto. intros [Hs | [Hr _]]; [exact Hs | contradiction].
Qed.

(** *** Fetching a missing document during initial sync (sync_tail.cpp) *)

Inductive ConnectOutcome : Type :=
| Connected
| ConnectFailed              (* [connect] returned false *)
| ConnectNetworkException
| ConnectException (e : Status).   (* any other exception, which is not caught *)

Inductive FindOutcome : Type :=
| Found (missingObj : BSONObj)
| FindNetworkException
| FindDBException (e : Status).

Section MissingDocument.

(** What lies outside the files embedded here: [OplogEntry::getIdElement]
    ([None] for an end-of-object element); the sync source as the reader
    finds it at each attempt, counted from one: what [connect] does, and
    what [findOne] and [findOneByUUID] do with the query; and the status of
    the exception that [msgasserted(15916, ...)] throws, whose code is that
    number. *)
Variable getIdElement : OplogEntry -> option BSONValue.
Variable connect : Z -> ConnectOutcome.
Variable OplogReader_findOne : Z -> string -> BSONObj -> FindOutcome.
Variable OplogReader_findOneByUUID : Z -> string -> Z -> BSONObj -> FindOutcome.
Variable msgasserted_15916 : Status.

(** One attempt: [None] stands for [continue]. *)
Definition getMissingDoc_attempt (retryCount : Z) (oplogEntry : OplogEntry)
  : Result (option BSONObj) :=
  match connect retryCount with
  | ConnectFailed | ConnectNetworkException => Ret None
  | ConnectException e => Throw e
  | Connected =>
      match getIdElement oplogEntry with
      | None => Fatal 28742 None
      | Some idElem =>
          let query : BSONObj := [("_id"%string, idElem)] in
          let nss := getNss oplogEntry in
          let found :=
            match getUuid oplogEntry with
            | None => OplogReader_findOne retryCount (ns nss) query
            | Some uuid => OplogReader_findOneByUUID retryCount (db nss) uuid query
            end in
          match found with
          | FindNetworkException => Ret None
          | FindDBException e => Throw e
          | Found missingObj => Ret (Some missingObj)
          end
      end
  end.

(** [for (int retryCount = 1; retryCount <= retryMax; ++retryCount)], with
    [remaining] the number of turns left; the result comes with the seconds
    slept, in order. *)
Fixpoint getMissingDoc_loop (remaining : nat) (retryCount : Z) (oplogEntry : OplogEntry)
  : Result (BSONObj * list Z) :=
  match remaining with
  | O => Throw msgasserted_15916
  | S remaining' =>
      let slept := if negb (retryCount =? 1) then [retryCount * retryCount] else [] in
      attempt ← getMissingDoc_attempt retryCount oplogEntry;
      match attempt with
      | Some missingObj => Ret (missingObj, slept)
      | None =>
          '(missingObj, sleptLater) ← getMissingDoc_loop remaining' (retryCount + 1) oplogEntry;
          Ret (missingObj, slept ++ sleptLater)
      end
  end.

Definition retryMax : nat := 3.

(** [source] tells whether the option [missingDocumentSourceForInitialSync]
    is set. *)
Definition getMissingDoc (initialSyncHangBeforeGettingMissingDocument : bool) (source : bool)
  (oplogEntry : OplogEntry) : Result (BSONObj * list Z) :=
  if initialSyncHangBeforeGettingMissingDocument
  then Blocked "initialSyncHangBeforeGettingMissingDocument"
  else
    _ ← invariant source "source";
    getMissingDoc_loop retryMax 1 oplogEntry.

(** **** Properties of the retries *)

(** An attempt that a network problem cuts short. *)
Definition networkProblem (retryCount : Z) (oplogEntry : OplogEntry) : Prop :=
  getMissingDoc_attempt retryCount oplogEntry = Ret None.

(** X24.  [getMissingDoc] tries the sync source at most three times.  When
    it returns a document, that document is the one found at an attempt
    [k], from the first to the third, every attempt before it having been
    cut short by a network problem, and it has slept, before each attempt
    after the first, the square of the attempt's number in seconds: in all
    nothing, 4 or 13 seconds.  When all three attempts are cut short by a
    network problem, it throws the assertion 15916 (the fail point being off
    and the source set). *)
Theorem getMissingDoc_returns_the_first_document_fetched
    (hang source : bool) (oplogEntry : OplogEntry) :
  (forall missingObj slept,
      getMissingDoc hang source oplogEntry = Ret (missingObj, slept) ->
      exists k : Z,
        1 <= k <= 3
        /\ getMissingDoc_attempt k oplogEntry = Ret (Some missingObj)
        /\ (forall j, 1 <= j < k -> networkProblem j oplogEntry)
        /\ slept = map (fun j => j * j) (seqZ 2 (k - 1))
        /\ (fold_right Z.add 0 slept = 0 \/ fold_right Z.add 0 slept = 4
            \/ fold_right Z.add 0 slept = 13))
  /\ (hang = false -> source = true ->
      (forall j, 1 <= j <= 3 -> networkProblem j oplogEntry) ->
      getMissingDoc hang source oplogEntry = Throw msgasserted_15916).
Proof.
  unfold getMissingDoc, networkProblem. split.
  - intros missingObj slept H. destruct hang; [discriminate |].
    apply bindR_Ret_inv in H as (u & _ & H). unfold retryMax in H. simpl in H.
    change (1 + 1 + 1) with 3 in H. change (1 + 1) with 2 in H.
    destruct (getMissingDoc_attempt 1 oplogEntry) as [[o1 |] | | | | | |] eqn:H1;
      simpl in H; try discriminate.
    { inversion H; subst. exists 1.
      split; [lia |]. split; [exact H1 |]. split; [intros j Hj; lia |].
      split; [reflexivity | left; reflexivity]. }
    destruct (getMissingDoc_attempt 2 oplogEntry) as [[o2 |] | | | | | |] eqn:H2;
      simpl in H; try discriminate.
    { inversion H; subst. exists 2.
      split; [lia |]. split; [exact H2 |]. split.
      { intros j Hj. assert (j = 1) as -> by lia. exact H1. }
      split; [reflexivity | right; left; reflexivity]. }
    destruct (getMissingDoc_attempt 3 oplogEntry) as [[o3 |] | | | | | |] eqn:H3;
      simpl in H; try discriminate.
    inversion H; subst. exists 3.
    split; [lia |]. split; [exact H3 |]. split.
    { intros j Hj. assert (j = 1 \/ j = 2) as [-> | ->] by lia; assumption. }
    split; [reflexivity | right; right; reflexivity].
  - intros -> -> Hall. simpl. unfold retryMax. simpl.
    change (1 + 1 + 1) with 3. change (1 + 1) with 2.
    rewrite (Hall 1), (Hall 2), (Hall 3) by lia. reflexivity.
Qed.

End MissingDocument.

End OplogApplication.

(** *** A small replica to run the code on *)

Module Example.

(** Modelled from the spec: the oplog entry format of the producer
    contract, with fields [ts], [t], [v], [op], [ns], [ui], [o], [o2],
    [wall], [lsid], [txnNumber], [prevOpTime] and the flags [prepare] and
    [partialTxn], read here by a small parser that stands for the generated
    one. *)
Fixpoint split_at_dot (s : string) : string * string :=
  match s with
  | EmptyString => (EmptyString, EmptyString)
  | String c s' =>
      if Ascii.eqb c "."%char then (EmptyString, s')
      else let '(d, c') := split_at_dot s' in (String c d, c')
  end.

Definition fieldOpTime (v : option BSONValue) : option OpTime :=
  match v with
  | Some (BObject [(_, BTimestamp ts); (_, BNumber t)]) => Some (mkOpTime ts t)
  | _ => None
  end.

Definition fieldObject (v : option BSONValue) : option BSONObj :=
  match v with Some (BObject o) => Some o | _ => None end.

Definition fieldNumber (v : option BSONValue) : option Z :=
  match v with Some (BNumber n) => Some n | _ => None end.

Definition fieldBool (v : option BSONValue) : bool :=
  match v with Some (BBool b) => b | _ => false end.

Definition commandTypeOf (o : BSONObj) : CommandType :=
  match o with
  | (n, _) :: _ =>
      if String.eqb n "applyOps" then kApplyOps
      else if String.eqb n "commitTransaction" then kCommitTransaction
      else if String.eqb n "abortTransaction" then kAbortTransaction
      else if String.eqb n "create" then kCreate
      else if String.eqb n "drop" then kDrop
      else kNotCommand
  | [] => kNotCommand
  end.

Definition malformed : Status := mkStatus FailedToParse "malformed oplog entry".

Definition parseDocument (b : BSONObj) : Result OplogEntry :=
  match getField b "ts", getField b "t", getField b "op", getField b "ns",
        getField b "o" with
  | Some (BTimestamp ts), Some (BNumber t), Some (BString opName), Some (BString nsName),
    Some (BObject o) =>
      let '(d, c) := split_at_dot nsName in
      let opType :=
        if String.eqb opName "c" then Some kCommand
        else if String.eqb opName "i" then Some kInsert
        else if String.eqb opName "u" then Some kUpdate
        else if String.eqb opName "d" then Some kDelete
        else if String.eqb opName "n" then Some kNoop
        else None in
      match opType with
      | None => Throw malformed
      | Some opType =>
          Ret (mkOplogEntry b (mkOpTime ts t)
                 (match getField b "wall" with Some (BDate w) => Some w | _ => None end)
                 opType (mkNss d c) (fieldNumber (getField b "ui")) o
                 (fieldObject (getField b "o2")) (fieldNumber (getField b "lsid"))
                 (fieldNumber (getField b "txnNumber")) (fieldOpTime (getField b "prevOpTime"))
                 (match getField b "v" with Some (BNumber v) => v | _ => 0 end)
                 (fieldBool (getField b "partialTxn"))
                 (if bool_decide (opType = kCommand) then commandTypeOf o else kNotCommand)
                 (fieldBool (getField b "prepare"))
                 false)
      end
  | _, _, _, _, _ => Throw malformed
  end.

(** The replicated operation: the fields [op], [ns], [ui], [o] and [o2]. *)
Definition replOperationFields (e : OplogEntry) : BSONObj :=
  List.filter (fun f => has_name ["op"; "ns"; "ui"; "o"; "o2"]%string (fst f)) (raw e).

(** A stand-in for the encoded size: a header and a fixed cost per
    top-level element, plus the length of the payload [o]. *)
Definition encodedSize (b : BSONObj) : Z :=
  5 + 16 * Z.of_nat (length b)
  + match getField b "o" with Some (BObject o) => 100 * Z.of_nat (length o) | _ => 0 end.

#[export] Instance exampleCodec : OplogCodec := {|
  parseOplogEntry := parseDocument;
  ReplOperation_toBSON := replOperationFields;
  kOplogVersion := 2;
  objsize := encodedSize;
  OpTime_toString := fun _ => "(optime)"%string |}.

(** No session tracking, no applyOps payloads, one uncapped collection per
    namespace, and writers that fail on the namespace [test.bad]. *)
Definition failsOnBad (writer : list OplogEntry) : Status * list unit :=
  if existsb (fun e => String.eqb (ns (getNss e)) "test.bad") writer
  then (mkStatus InternalError "cannot apply to test.bad", [])
  else (Status_OK, []).

#[export] Instance exampleContext : ApplierContext := {|
  SessionUpdateTracker := unit;
  SessionUpdateTracker_new := tt;
  updateOrFlush := fun t _ => (None, t);
  flushAll := fun _ => [];
  extractOperations := fun _ => Ret [];
  StringMapHasher_hash := fun s => Z.of_nat (String.length s);
  Collator := unit;
  elementHasher_hash := fun e _ =>
    match getField (getObject e) "_id" with Some (BNumber n) => n | _ => 0 end;
  MurmurHash3_x86_32 := fun key seed => key + seed;
  Database := unit;
  Collection := unit;
  getDb := fun _ => Some tt;
  getCollection := fun _ _ => Some tt;
  Collection_isCapped := fun _ => false;
  Collection_getDefaultCollator := fun _ => None;
  supportsDocLocking := true;
  beginApplyingOpTime := OpTime_null;
  MultikeyPathInfo := unit;
  _applyFunc := failsOnBad;
  setIndexIsMultikey := fun _ _ => Status_OK;
  insertDocuments := fun _ => Status_OK |}.

Definition optimeValue (secs t : Z) : BSONValue :=
  BObject [("ts"%string, BTimestamp (mkTimestamp secs 0)); ("t"%string, BNumber t)].

(** The link to the previous entry of the transaction; [0] stands for no
    previous entry, the null optime. *)
Definition prevOpTimeValue (prev : Z) : BSONValue :=
  if prev =? 0 then optimeValue 0 (-1) else optimeValue prev 1.

(** An insert into [test.c] that is part of a pending transaction of
    session 5. *)
Definition pendingInsert (secs txn prev id : Z) : BSONObj :=
  [("ts", BTimestamp (mkTimestamp secs 0)); ("t", BNumber 1); ("v", BNumber 2);
   ("op", BString "i"); ("ns", BString "test.c");
   ("o", BObject [("_id", BNumber id)]);
   ("wall", BDate (secs * 1000)%Z); ("lsid", BNumber 5); ("txnNumber", BNumber txn);
   ("prevOpTime", prevOpTimeValue prev);
   ("partialTxn", BBool true)]%string.

(** A plain insert into [test.c]. *)
Definition plainInsert (secs id : Z) : BSONObj :=
  [("ts", BTimestamp (mkTimestamp secs 0)); ("t", BNumber 1); ("v", BNumber 2);
   ("op", BString "i"); ("ns", BString "test.c");
   ("o", BObject [("_id", BNumber id)]);
   ("wall", BDate (secs * 1000)%Z)]%string.

(** The unprepared commit of the transaction of session 5. *)
Definition commitDoc (secs txn prev : Z) : BSONObj :=
  [("ts", BTimestamp (mkTimestamp secs 0)); ("t", BNumber 1); ("v", BNumber 2);
   ("op", BString "c"); ("ns", BString "admin.$cmd");
   ("o", BObject [("commitTransaction", BNumber 1); ("prepared", BBool false)]);
   ("wall", BDate (secs * 1000)%Z); ("lsid", BNumber 5); ("txnNumber", BNumber txn);
   ("prevOpTime", prevOpTimeValue prev)]%string.

(** The prepare of a transaction: an applyOps entry flagged [prepare]. *)
Definition prepareDoc (secs txn prev : Z) : BSONObj :=
  [("ts", BTimestamp (mkTimestamp secs 0)); ("t", BNumber 1); ("v", BNumber 2);
   ("op", BString "c"); ("ns", BString "admin.$cmd");
   ("o", BObject [("applyOps", BArray [])]);
   ("wall", BDate (secs * 1000)%Z); ("lsid", BNumber 5); ("txnNumber", BNumber txn);
   ("prevOpTime", prevOpTimeValue prev);
   ("prepare", BBool true)]%string.

Definition noEntry : OplogEntry :=
  mkOplogEntry [] OpTime_null None kNoop (mkNss "" "") None [] None None None None 0 false
    kNotCommand false false.

Definition entry (b : BSONObj) : OplogEntry :=
  match OplogEntry_of b with
  | Ret e => e
  | _ => noEntry
  end.

(** Session 5, transaction 7: P1 at 10, P2 at 11, P3 at 12, commit at 13. *)
Definition P1 : OplogEntry := entry (pendingInsert 10 7 0 1).
Definition P2 : OplogEntry := entry (pendingInsert 11 7 10 2).
Definition P3 : OplogEntry := entry (pendingInsert 12 7 11 3).
Definition C13 : OplogEntry := entry (commitDoc 13 7 12).

(** The oplog when the commit is applied: P1 and P2 are on disk, P3 comes
    with the batch of the commit. *)
Definition oplogOnDisk : Oplog := [P1; P2].

(** **** The transaction assembler on the example *)

Definition R1 : OplogEntry := entry (envelope C13 P1).
Definition R2 : OplogEntry := entry (envelope C13 P2).
Definition R3 : OplogEntry := entry (envelope C13 P3).

Definition t13 : OpTime := mkOpTime (mkTimestamp 13 0) 1.

Example rebuilt_at_commit_time :
  map getOpTime [R1; R2; R3] = [t13; t13; t13]
  /\ map getObject [R1; R2; R3]
     = [[("_id", BNumber 1)]; [("_id", BNumber 2)]; [("_id", BNumber 3)]]%string
  /\ map getSessionId [R1; R2; R3] = [Some 5; Some 5; Some 5]
  /\ map getTxnNumber [R1; R2; R3] = [Some 7; Some 7; Some 7]
  /\ map isInPendingTransaction [R1; R2; R3] = [false; false; false].
Proof. vm_compute. repeat split. Qed.

Lemma assembler_returns_operations_in_order_witness :
  linked OpTime_null [P1; P2]
  /\ getPrevWriteOpTimeInTransaction P3 = Some (getOpTime P2)
  /\ Forall2 (rebuilt C13) [P1; P2; P3] [R1; R2; R3]
  /\ readTransactionOperationsFromOplogChain 3 oplogOnDisk C13 [P3] = Ret [R1; R2; R3].
Proof.
  assert (H1 : linked OpTime_null [P1; P2]) by (vm_compute; repeat split).
  assert (H2 : getPrevWriteOpTimeInTransaction (List.hd C13 [P3])
               = Some (lastOpTime OpTime_null [P1; P2])) by reflexivity.
  assert (H3 : Forall (fun e => findOne oplogOnDisk (getOpTime e) = Some e
                                /\ OpTime_isNull (getOpTime e) = false) [P1; P2])
    by (repeat constructor).
  assert (H4 : Forall (fun e => isInPendingTransaction e = true) ([P1; P2] ++ [P3]))
    by (repeat constructor).
  assert (H5 : OpTime_lt (lastOpTime OpTime_null [P1; P2]) (getOpTime C13) = true)
    by reflexivity.
  assert (H6 : getCommandType C13 = kCommitTransaction -> [P1; P2] ++ [P3] <> [])
    by (intros _; discriminate).
  assert (H7 : Forall2 (rebuilt C13) ([P1; P2] ++ [P3]) [R1; R2; R3])
    by (repeat constructor).
  assert (H8 : (length [P1; P2] < 3)%nat) by (simpl; lia).
  split; [exact H1 |]. split; [reflexivity |]. split; [exact H7 |].
  exact (proj1 (assembler_returns_operations_in_order oplogOnDisk C13 [P1; P2] [P3]
                  [R1; R2; R3] 3 H1 H2 H3 H4 H5 H6 H7 H8)).
Defined.

(** A commit and a prepare of a transaction without operations. *)
Definition emptyCommit : OplogEntry := entry (commitDoc 13 7 0).
Definition emptyPrepare : OplogEntry := entry (prepareDoc 13 7 0).

Lemma empty_commit_asserts_empty_prepare_allowed_witness :
  readTransactionOperationsFromOplogChain 0 oplogOnDisk emptyCommit []
  = InvariantFailure emptyCommitsNotAllowed
  /\ readTransactionOperationsFromOplogChain 0 oplogOnDisk emptyPrepare [] = Ret [].
Proof.
  split.
  - apply (proj1 (empty_commit_asserts_empty_prepare_allowed oplogOnDisk emptyCommit []
                    OpTime_null 0 eq_refl eq_refl)); reflexivity.
  - apply (proj1 (proj2 (empty_commit_asserts_empty_prepare_allowed oplogOnDisk emptyPrepare []
                           OpTime_null 0 eq_refl eq_refl))); [discriminate | reflexivity
                                                             | reflexivity].
Defined.

(** **** The batcher on the example *)

Definition running : BatcherEnv := mkBatcherEnv false false.

Definition insert19 : OplogEntry := entry (plainInsert 19 0).
Definition insert20 : OplogEntry := entry (plainInsert 20 1).
Definition insert21 : OplogEntry := entry (plainInsert 21 2).

Example encodedSize_insert : objsize (plainInsert 20 1) = 217.
Proof. reflexivity. Qed.

(** Every example insert takes 217 bytes; the limit is 100 bytes. *)
Lemma byte_limit_ends_batch_unless_empty_witness :
  tryPopAndWaitForMore running [plainInsert 20 1; plainInsert 21 2]
    (mkOpQueue [insert19] 217 false) (mkBatchLimits 100 10 None)
  = Ret (true, [plainInsert 20 1; plainInsert 21 2], mkOpQueue [insert19] 217 false, [])
  /\ OpQueueBatcher_run_once 2 running 0 25000 100 10 [plainInsert 20 1; plainInsert 21 2]
     = Ret ([plainInsert 21 2], Some (mkOpQueue [insert20] 217 false), []).
Proof.
  assert (Hop : 0 <= objsize (plainInsert 20 1) < 2 ^ 31) by (vm_compute; split; congruence).
  assert (Hrest : Forall (fun b => 0 <= objsize b < 2 ^ 31) [plainInsert 21 2])
    by (repeat constructor; vm_compute; congruence).
  assert (Hlim : 0 <= 100) by lia.
  pose proof (byte_limit_ends_batch_unless_empty running (plainInsert 20 1) [plainInsert 21 2]
                (mkOpQueue [insert19] 217 false) 100 10 0 25000 insert20 2 Hop Hrest Hlim)
    as [HA HB].
  split.
  - apply HA; [reflexivity | vm_compute; split; congruence | vm_compute; reflexivity].
  - apply HB; [vm_compute; reflexivity | reflexivity | reflexivity | reflexivity | reflexivity
              | lia].
Defined.

(** Slave delay of 5 seconds at the clock reading 25 seconds: the latest
    admissible date is 20 seconds. *)
Example latest_admissible : _calculateSlaveDelayLatestTimestamp 5 25000 = Some 20000.
Proof. reflexivity. Qed.

(** C7, as stated, fails: the entry stamped 20 seconds, whose
    timestamp-as-date is exactly the latest admissible date, is consumed
    into the batch that the batcher publishes. *)
Lemma entry_at_the_threshold_is_batched :
  entryTime insert20 = 20000
  /\ _calculateSlaveDelayLatestTimestamp 5 25000 = Some 20000
  /\ OpQueueBatcher_run_once 2 running 5 25000 1000 10 [plainInsert 20 1]
     = Ret ([], Some (mkOpQueue [insert20] 217 false), []).
Proof. vm_compute. repeat split. Qed.

Lemma slave_delay_holds_back_strictly_later_entries_witness :
  tryPopAndWaitForMore running [plainInsert 21 2] OpQueue_new
    (mkBatchLimits 1000 10 (Some 20000))
  = Ret (true, [plainInsert 21 2], OpQueue_new, [SleepSecs 1])
  /\ tryPopAndWaitForMore running [plainInsert 20 1] OpQueue_new
       (mkBatchLimits 1000 10 (Some 20000))
     = Ret (false, [], mkOpQueue [insert20] 217 false, []).
Proof.
  assert (Hb : 0 <= _bytes OpQueue_new < 2 ^ 64) by (vm_compute; split; congruence).
  assert (H21 : OplogEntry_of (plainInsert 21 2) = Ret insert21) by reflexivity.
  assert (H20 : OplogEntry_of (plainInsert 20 1) = Ret insert20) by reflexivity.
  split.
  - apply (proj1 (slave_delay_holds_back_strictly_later_entries running (plainInsert 21 2) []
                    OpQueue_new (mkBatchLimits 1000 10 (Some 20000)) 20000 insert21
                    eq_refl eq_refl eq_refl eq_refl Hb H21 eq_refl)).
    vm_compute. reflexivity.
  - apply (proj2 (slave_delay_holds_back_strictly_later_entries running (plainInsert 20 1) []
                    OpQueue_new (mkBatchLimits 1000 10 (Some 20000)) 20000 insert20
                    eq_refl eq_refl eq_refl eq_refl Hb H20 eq_refl)).
    + vm_compute. congruence.
    + reflexivity.
Defined.

(** A command that must be processed alone: the creation of a
    collection. *)
Definition createDoc (secs : Z) : BSONObj :=
  [("ts", BTimestamp (mkTimestamp secs 0)); ("t", BNumber 1); ("v", BNumber 2);
   ("op", BString "c"); ("ns", BString "test.$cmd");
   ("o", BObject [("create", BString "c")]);
   ("wall", BDate (secs * 1000)%Z)]%string.

Definition create21 : OplogEntry := entry (createDoc 21).
Definition insert22 : OplogEntry := entry (plainInsert 22 3).

(** Two inserts, the creation of a collection, and one more insert. *)
Definition backlog : OplogBuffer :=
  [plainInsert 19 0; plainInsert 20 1; createDoc 21; plainInsert 22 3].

Example backlog_first_round :
  OpQueueBatcher_run_once 5 running 0 25000 1000 10 backlog
  = Ret ([createDoc 21; plainInsert 22 3], Some (mkOpQueue [insert19; insert20] 434 false), []).
Proof. vm_compute. reflexivity. Qed.

Example backlog_second_round :
  OpQueueBatcher_run_once 5 running 0 25000 1000 10 [createDoc 21; plainInsert 22 3]
  = Ret ([plainInsert 22 3], Some (mkOpQueue [create21] 217 false), []).
Proof. vm_compute. reflexivity. Qed.

Lemma batch_is_the_parsed_head_of_the_buffer_witness :
  OpQueueBatcher_run_once 5 running 0 25000 1000 10 backlog
  = Ret ([createDoc 21; plainInsert 22 3], Some (mkOpQueue [insert19; insert20] 434 false), [])
  /\ map raw [insert19; insert20] ++ [createDoc 21; plainInsert 22 3] = backlog
  /\ Forall (fun e => OplogEntry_of (raw e) = Ret e /\ getVersion e = kOplogVersion)
       [insert19; insert20].
Proof.
  split; [exact backlog_first_round |].
  exact (batch_is_the_parsed_head_of_the_buffer 5 running 0 25000 1000 10 backlog _
           (Some (mkOpQueue [insert19; insert20] 434 false)) _ backlog_first_round).
Defined.

Lemma entry_to_process_alone_is_alone_in_its_batch_witness :
  In create21 (published (Some (mkOpQueue [create21] 217 false)))
  /\ mustBeProcessedAlone create21 = true
  /\ published (Some (mkOpQueue [create21] 217 false)) = [create21].
Proof.
  split; [left; reflexivity |]. split; [reflexivity |].
  apply (entry_to_process_alone_is_alone_in_its_batch 5 running 0 25000 1000 10
           [createDoc 21; plainInsert 22 3] _ _ _ create21 backlog_second_round);
    [left; reflexivity | reflexivity].
Defined.

Lemma batch_keeps_within_the_limits_witness :
  OpQueueBatcher_run_once 5 running 0 25000 500 10 backlog
  = Ret ([createDoc 21; plainInsert 22 3], Some (mkOpQueue [insert19; insert20] 434 false), [])
  /\ getCount (mkOpQueue [insert19; insert20] 434 false) <= Z.max 1 10
  /\ (1 < getCount (mkOpQueue [insert19; insert20] 434 false) ->
      getBytes (mkOpQueue [insert19; insert20] 434 false) <= 500).
Proof.
  assert (H : OpQueueBatcher_run_once 5 running 0 25000 500 10 backlog
              = Ret ([createDoc 21; plainInsert 22 3],
                     Some (mkOpQueue [insert19; insert20] 434 false), []))
    by (vm_compute; reflexivity).
  split; [exact H |].
  exact (batch_keeps_within_the_limits 5 running 0 25000 500 10 backlog _ _ _ H).
Defined.

Definition shuttingDown : BatcherEnv := mkBatcherEnv true false.

Lemma batcher_publishes_an_empty_batch_only_at_shutdown_witness :
  OpQueueBatcher_run_once 5 shuttingDown 0 25000 1000 10 []
  = Ret ([], Some (mkOpQueue [] 0 true), [])
  /\ inShutdown shuttingDown = true
  /\ _batch (mkOpQueue [insert19; insert20] 434 false) <> [].
Proof.
  assert (H : OpQueueBatcher_run_once 5 shuttingDown 0 25000 1000 10 []
              = Ret ([], Some (mkOpQueue [] 0 true), [])) by (vm_compute; reflexivity).
  split; [exact H |]. split.
  - exact (proj1 (batcher_publishes_an_empty_batch_only_at_shutdown 5 shuttingDown 0 25000
                    1000 10 [] _ _ _ H)).
  - exact (batcher_publishes_an_empty_batch_only_at_shutdown 5 running 0 25000 1000 10
             backlog _ _ _ backlog_first_round).
Defined.

(** With a slave delay of 5 seconds at the clock reading 25 seconds, the
    creation stamped 21 seconds stays in the buffer. *)
Lemma batch_holds_no_entry_that_slave_delay_holds_back_witness :
  0 < 5
  /\ OpQueueBatcher_run_once 5 running 5 25000 1000 10 backlog
     = Ret ([createDoc 21; plainInsert 22 3], Some (mkOpQueue [insert19; insert20] 434 false),
            [])
  /\ Forall (fun e => entryTime e <= 25000 - 5 * 1000) [insert19; insert20].
Proof.
  assert (H : OpQueueBatcher_run_once 5 running 5 25000 1000 10 backlog
              = Ret ([createDoc 21; plainInsert 22 3],
                     Some (mkOpQueue [insert19; insert20] 434 false), []))
    by (vm_compute; reflexivity).
  split; [lia |]. split; [exact H |].
  exact (batch_holds_no_entry_that_slave_delay_holds_back 5 running 5 25000 1000 10 backlog _
           (Some (mkOpQueue [insert19; insert20] 434 false)) _ ltac:(lia) H).
Defined.

Lemma parseDocument_ends (b : BSONObj) : parseDocument b <> OutOfFuel.
Proof. unfold parseDocument. repeat case_match; discriminate. Qed.

Lemma batcher_round_ends_within_the_length_of_the_buffer_witness :
  (length backlog < 9)%nat
  /\ OpQueueBatcher_run_once 9 running 0 25000 1000 10 backlog
     = OpQueueBatcher_run_once 5 running 0 25000 1000 10 backlog
  /\ OpQueueBatcher_run_once 9 running 0 25000 1000 10 backlog <> OutOfFuel.
Proof.
  assert (Hfuel : (length backlog < 9)%nat) by (simpl; lia).
  pose proof (batcher_round_ends_within_the_length_of_the_buffer 9 running 0 25000 1000 10
                backlog Hfuel) as [Hsame Hends].
  split; [exact Hfuel |]. split; [exact Hsame |]. apply Hends. exact parseDocument_ends.
Defined.

(** **** The partitioner on the example *)

Definition twoWriters : FillState := mkFillState [[]; []] [].

(** The recursive call on derived operations, one level deep. *)
Definition nested (d : list OplogEntry) (st : FillState) : Result FillState :=
  r ← _fillWriterVectors 1 oplogOnDisk 3 d st None; Ret (fst r).

Definition noLocals : FillLocals := mkFillLocals ∅ ∅.

(** The batch [P3; C13]: P3 is held, and at the commit the transaction is
    assembled from P1 and P2 on disk and P3, and its three operations are
    shared between the two writers. *)
Example transaction_partitioned_at_commit :
  _fillWriterVectors_batch 2 oplogOnDisk 3 [P3; C13] twoWriters
  = Ret (mkFillState [[R2]; [R1; R3]] [[R1; R2; R3]]).
Proof. vm_compute. reflexivity. Qed.

Definition holdingP3 : FillLocals := mkFillLocals (<[5 := [P3]]> ∅) ∅.

(** An entry of an earlier transaction of session 5, number 6, that has not
    been committed: when P3, of transaction 7, arrives, the list is cleared
    of it. *)
Definition Q11 : OplogEntry := entry (pendingInsert 11 6 0 9).

Definition holdingQ : FillLocals := mkFillLocals (<[5 := [Q11]]> ∅) ∅.

Definition holdingP3afterQ : FillLocals := mkFillLocals (<[5 := [P3]]> (<[5 := [Q11]]> ∅)) ∅.

Example pending_list_cleared_at_a_new_transaction :
  fillLoop_upto nested oplogOnDisk 3 [Q11; P3] noLocals twoWriters None
  = Ret (holdingP3afterQ, twoWriters, None)
  /\ pendingTxnOps holdingP3afterQ !! 5 = Some [P3].
Proof. vm_compute. split; reflexivity. Qed.

Lemma pending_entries_held_until_commit_witness :
  (exists loc',
      fillStep nested oplogOnDisk 3 P3 holdingQ twoWriters None = Ret (loc', twoWriters, None)
      /\ pendingTxnOps loc' !! 5 = Some [P3])
  /\ (exists loc',
         fillStep nested oplogOnDisk 3 P3 holdingP3 twoWriters None
         = Ret (loc', twoWriters, None)
         /\ pendingTxnOps loc' !! 5 = Some [P3; P3])
  /\ pendingListAfter 5 [Q11; P3] [] = [P3]
  /\ fillLoop nested oplogOnDisk 3 ([Q11; P3] ++ C13 :: []) noLocals twoWriters None
     = Ret (mkFillState [[R2]; [R1; R3]] [[R1; R2; R3]], None)
  /\ no_pending (mkFillState [[R2]; [R1; R3]] [[R1; R2; R3]]).
Proof.
  split; [| split; [| split; [vm_compute; reflexivity | split; [| repeat constructor]]]].
  - destruct (proj1 (pending_entries_held_until_commit nested oplogOnDisk 3 P3 holdingQ
                       twoWriters twoWriters None None 5 eq_refl eq_refl eq_refl) eq_refl)
      as (loc' & pendingList' & Hstep & _ & _ & Hlook & _ & _ & Hclear).
    exists loc'. split; [exact Hstep |]. etransitivity; [exact Hlook |]. f_equal.
    apply (Hclear Q11 []); [vm_compute; reflexivity | vm_compute; congruence].
  - destruct (proj1 (pending_entries_held_until_commit nested oplogOnDisk 3 P3 holdingP3
                       twoWriters twoWriters None None 5 eq_refl eq_refl eq_refl) eq_refl)
      as (loc' & pendingList' & Hstep & _ & _ & Hlook & _ & Hsame & _).
    exists loc'. split; [exact Hstep |]. etransitivity; [exact Hlook |]. f_equal.
    rewrite (Hsame P3 []); [| vm_compute; reflexivity | reflexivity].
    vm_compute. reflexivity.
  - rewrite (proj2 (proj2 (proj2 (proj2
               (pending_entries_held_until_commit nested oplogOnDisk 3 C13 holdingP3afterQ
                  twoWriters twoWriters None None 5 eq_refl eq_refl eq_refl))))
               eq_refl eq_refl eq_refl [Q11; P3] [] twoWriters None [R1; R2; R3]).
    + vm_compute. reflexivity.
    + vm_compute. reflexivity.
    + vm_compute. reflexivity.
Defined.

(** The example replica resumed from a point where everything up to 12
    seconds is applied already. *)
Definition t12 : OpTime := mkOpTime (mkTimestamp 12 0) 1.

Definition resumedAt12 : ApplierContext := {|
  SessionUpdateTracker := unit;
  SessionUpdateTracker_new := tt;
  updateOrFlush := fun t _ => (None, t);
  flushAll := fun _ => [];
  extractOperations := fun _ => Ret [];
  StringMapHasher_hash := fun s => Z.of_nat (String.length s);
  Collator := unit;
  elementHasher_hash := fun e _ =>
    match getField (getObject e) "_id" with Some (BNumber n) => n | _ => 0 end;
  MurmurHash3_x86_32 := fun key seed => key + seed;
  Database := unit;
  Collection := unit;
  getDb := fun _ => Some tt;
  getCollection := fun _ _ => Some tt;
  Collection_isCapped := fun _ => false;
  Collection_getDefaultCollator := fun _ => None;
  supportsDocLocking := true;
  beginApplyingOpTime := t12;
  MultikeyPathInfo := unit;
  _applyFunc := failsOnBad;
  setIndexIsMultikey := fun _ _ => Status_OK;
  insertDocuments := fun _ => Status_OK |}.

Definition nestedFrom12 (d : list OplogEntry) (st : FillState) : Result FillState :=
  r ← @_fillWriterVectors exampleCodec resumedAt12 1 [P1; P2; P3] 3 d st None; Ret (fst r).

(** C4, as stated, fails: P3 is flagged as part of a pending transaction
    and carries the session id 5, and yet, its optime being no later than
    [beginApplyingOpTime], the partitioner skips it: it is not held on the
    pending list of its session, which stays empty, and when the commit
    comes the transaction is assembled from the oplog alone. *)
Lemma pending_entry_at_the_lower_bound_is_not_held :
  isInPendingTransaction P3 = true
  /\ getSessionId P3 = Some 5
  /\ OpTime_le (getOpTime P3) (@beginApplyingOpTime resumedAt12) = true
  /\ @fillLoop_upto exampleCodec resumedAt12 nestedFrom12 [P1; P2; P3] 3 [P3]
       (mkFillLocals ∅ ∅) (mkFillState [[]; []] []) None
     = Ret (mkFillLocals ∅ ∅, mkFillState [[]; []] [], None)
  /\ @pendingTxnOps resumedAt12 (mkFillLocals ∅ ∅) !! 5 = None
  /\ @readTransactionOperationsFromOplogChain exampleCodec 3 [P1; P2; P3] C13 []
     = Ret [R1; R2; R3]
  /\ @_fillWriterVectors_batch exampleCodec resumedAt12 2 [P1; P2; P3] 3 [P3; C13]
       (mkFillState [[]; []] [])
     = Ret (mkFillState [[R2]; [R1; R3]] [[R1; R2; R3]]).
Proof. vm_compute. repeat split. Qed.

Lemma writers_get_no_skipped_nor_expanded_entry_witness :
  Forall (Forall applied_as_it_stands) (writerVectors twoWriters)
  /\ _fillWriterVectors_batch 2 oplogOnDisk 3 [P3; C13] twoWriters
     = Ret (mkFillState [[R2]; [R1; R3]] [[R1; R2; R3]])
  /\ Forall (Forall applied_as_it_stands) [[R2]; [R1; R3]].
Proof.
  assert (H0 : Forall (Forall applied_as_it_stands) (writerVectors twoWriters))
    by (repeat constructor).
  split; [exact H0 |]. split; [exact transaction_partitioned_at_commit |].
  exact (writers_get_no_skipped_nor_expanded_entry 2 oplogOnDisk 3 [P3; C13] twoWriters _ H0
           transaction_partitioned_at_commit).
Defined.

(** The example replica on a storage engine without document-level
    locking, and with every collection capped. *)
Definition noDocLocking : ApplierContext := {|
  SessionUpdateTracker := unit;
  SessionUpdateTracker_new := tt;
  updateOrFlush := fun t _ => (None, t);
  flushAll := fun _ => [];
  extractOperations := fun _ => Ret [];
  StringMapHasher_hash := fun s => Z.of_nat (String.length s);
  Collator := unit;
  elementHasher_hash := fun e _ =>
    match getField (getObject e) "_id" with Some (BNumber n) => n | _ => 0 end;
  MurmurHash3_x86_32 := fun key seed => key + seed;
  Database := unit;
  Collection := unit;
  getDb := fun _ => Some tt;
  getCollection := fun _ _ => Some tt;
  Collection_isCapped := fun _ => false;
  Collection_getDefaultCollator := fun _ => None;
  supportsDocLocking := false;
  beginApplyingOpTime := OpTime_null;
  MultikeyPathInfo := unit;
  _applyFunc := failsOnBad;
  setIndexIsMultikey := fun _ _ => Status_OK;
  insertDocuments := fun _ => Status_OK |}.

Definition cappedCollections : ApplierContext := {|
  SessionUpdateTracker := unit;
  SessionUpdateTracker_new := tt;
  updateOrFlush := fun t _ => (None, t);
  flushAll := fun _ => [];
  extractOperations := fun _ => Ret [];
  StringMapHasher_hash := fun s => Z.of_nat (String.length s);
  Collator := unit;
  elementHasher_hash := fun e _ =>
    match getField (getObject e) "_id" with Some (BNumber n) => n | _ => 0 end;
  MurmurHash3_x86_32 := fun key seed => key + seed;
  Database := unit;
  Collection := unit;
  getDb := fun _ => Some tt;
  getCollection := fun _ _ => Some tt;
  Collection_isCapped := fun _ => true;
  Collection_getDefaultCollator := fun _ => None;
  supportsDocLocking := true;
  beginApplyingOpTime := OpTime_null;
  MultikeyPathInfo := unit;
  _applyFunc := failsOnBad;
  setIndexIsMultikey := fun _ _ => Status_OK;
  insertDocuments := fun _ => Status_OK |}.

(** Without document-level locking the three inserts into [test.c] share
    the first writer; with it, they are spread by their [_id]. *)
Example inserts_without_document_locking :
  @_fillWriterVectors_batch exampleCodec noDocLocking 2 [] 3 [insert19; insert20; insert21]
    (mkFillState (replicate 2 []) [])
  = Ret (mkFillState [[insert19; insert20; insert21]; []] []).
Proof. vm_compute. reflexivity. Qed.

Lemma entries_hashed_by_namespace_share_a_writer_witness :
  @_fillWriterVectors_batch exampleCodec noDocLocking 2 [] 3 [insert19; insert20; insert21]
    (mkFillState (replicate 2 []) [])
  = Ret (mkFillState [[insert19; insert20; insert21]; []] [])
  /\ (0 = @writerOf noDocLocking 2 insert21)%nat
  /\ forall i j wi wj e1 e2,
       [[insert19; insert20; insert21]; []] !! i = Some wi ->
       [[insert19; insert20; insert21]; []] !! j = Some wj ->
       In e1 wi -> In e2 wj -> getNss e1 = getNss e2 ->
       @hashesDocumentId noDocLocking e1 = false -> @hashesDocumentId noDocLocking e2 = false ->
       i = j.
Proof.
  split; [exact inserts_without_document_locking |].
  pose proof (@entries_hashed_by_namespace_share_a_writer exampleCodec noDocLocking 2 [] 3
                [insert19; insert20; insert21] 2 _ inserts_without_document_locking)
    as [Hhash Hsame].
  split; [| exact Hsame].
  apply (Hhash 0%nat [insert19; insert20; insert21] insert21); [reflexivity |].
  simpl. auto.
Defined.

Example inserts_into_a_capped_collection :
  @_fillWriterVectors_batch exampleCodec cappedCollections 2 [] 3 [insert19; insert20]
    (mkFillState (replicate 2 []) [])
  = Ret (mkFillState [[set_isForCappedCollection true insert19;
                       set_isForCappedCollection true insert20]; []] []).
Proof. vm_compute. reflexivity. Qed.

Lemma capped_inserts_are_marked_and_share_a_writer_witness :
  @_fillWriterVectors_batch exampleCodec cappedCollections 2 [] 3 [insert19; insert20]
    (mkFillState (replicate 2 []) [])
  = Ret (mkFillState [[set_isForCappedCollection true insert19;
                       set_isForCappedCollection true insert20]; []] [])
  /\ @cappedInsert cappedCollections (set_isForCappedCollection true insert20)
  /\ isForCappedCollection (set_isForCappedCollection true insert20) = true
  /\ 0%nat = Z.to_nat ((6 mod 2 ^ 32) mod Z.of_nat 2).
Proof.
  assert (Hc : @cappedInsert cappedCollections (set_isForCappedCollection true insert20))
    by (split; reflexivity).
  split; [exact inserts_into_a_capped_collection |]. split; [exact Hc |].
  apply (@capped_inserts_are_marked_and_share_a_writer exampleCodec cappedCollections 2 [] 3
           [insert19; insert20] 2 _ 0%nat
           [set_isForCappedCollection true insert19; set_isForCappedCollection true insert20]
           (set_isForCappedCollection true insert20) inserts_into_a_capped_collection);
    [reflexivity | simpl; auto | exact Hc].
Defined.

Lemma plain_operations_are_shared_out_in_order_witness :
  Forall plain [insert19; insert20; insert21] /\ writerVectors twoWriters <> []
  /\ _fillWriterVectors 1 [] 3 [insert19; insert20; insert21] twoWriters None
     = Ret (mkFillState (shared_out [insert19; insert20; insert21] [[]; []]) [], None)
  /\ shared_out [insert19; insert20; insert21] [[]; []] = [[insert19; insert21]; [insert20]].
Proof.
  assert (Hplain : Forall plain [insert19; insert20; insert21])
    by (repeat constructor).
  assert (Hwv : writerVectors twoWriters <> []) by discriminate.
  split; [exact Hplain |]. split; [exact Hwv |]. split; [| vm_compute; reflexivity].
  exact (plain_operations_are_shared_out_in_order 0 [] 3 [insert19; insert20; insert21]
           [[]; []] [] Hplain Hwv).
Defined.

(** **** [multiApply] and the driver on the example *)

Definition badInsert (secs id : Z) : BSONObj :=
  [("ts", BTimestamp (mkTimestamp secs 0)); ("t", BNumber 1); ("v", BNumber 2);
   ("op", BString "i"); ("ns", BString "test.bad");
   ("o", BObject [("_id", BNumber id)]);
   ("wall", BDate (secs * 1000)%Z)]%string.

Definition bad21 : OplogEntry := entry (badInsert 21 2).

Definition twoThreads : ApplierEnv :=
  mkApplierEnv 2 Status_OK false false false false false false.

Definition noMarkers : ConsistencyMarkers := mkMarkers OpTime_null OpTime_null (mkTimestamp 0 0).

Definition t20 : OpTime := mkOpTime (mkTimestamp 20 0) 1.
Definition t21 : OpTime := mkOpTime (mkTimestamp 21 0) 1.

Definition cannotApply : Status := mkStatus InternalError "cannot apply to test.bad".

Lemma multiApply_returns_first_failure_or_last_optime_witness :
  multiApply 2 [] 3 twoThreads Running noMarkers [insert20; bad21]
  = Ret (inl cannotApply, mkMarkers OpTime_null t21 (mkTimestamp 0 0))
  /\ multiApply 2 [] 3 twoThreads Running noMarkers [insert20; insert21]
     = Ret (inr t21, mkMarkers OpTime_null t21 (mkTimestamp 0 0)).
Proof.
  assert (Hrun : Running <> Stopped) by discriminate.
  assert (Hpool : isOK (ThreadPool_schedule twoThreads) = true) by reflexivity.
  split.
  - assert (Hsched : (if skipWritesToOplog twoThreads then Ret []
                      else scheduleWritesToOplog (numThreads twoThreads) [insert20; bad21])
                     = Ret [(0, 2)]) by (vm_compute; reflexivity).
    assert (Hfill : _fillWriterVectors_batch 2 [] 3 [insert20; bad21]
                      (mkFillState (replicate (numThreads twoThreads) []) [])
                    = Ret (mkFillState [[bad21]; [insert20]] []))
      by (vm_compute; reflexivity).
    assert (Hwrite : runOplogWriters [insert20; bad21] [(0, 2)] = Ret tt)
      by (vm_compute; reflexivity).
    pose proof (multiApply_returns_first_failure_or_last_optime 2 [] 3 twoThreads Running
                  noMarkers insert20 [bad21] _ _ Hrun Hpool Hsched Hfill Hwrite eq_refl)
      as (_ & Hfail & _).
    apply (Hfail [] cannotApply [Status_OK]); [reflexivity | constructor | reflexivity].
  - assert (Hsched : (if skipWritesToOplog twoThreads then Ret []
                      else scheduleWritesToOplog (numThreads twoThreads) [insert20; insert21])
                     = Ret [(0, 2)]) by (vm_compute; reflexivity).
    assert (Hfill : _fillWriterVectors_batch 2 [] 3 [insert20; insert21]
                      (mkFillState (replicate (numThreads twoThreads) []) [])
                    = Ret (mkFillState [[insert21]; [insert20]] []))
      by (vm_compute; reflexivity).
    assert (Hwrite : runOplogWriters [insert20; insert21] [(0, 2)] = Ret tt)
      by (vm_compute; reflexivity).
    pose proof (multiApply_returns_first_failure_or_last_optime 2 [] 3 twoThreads Running
                  noMarkers insert20 [insert21] _ _ Hrun Hpool Hsched Hfill Hwrite eq_refl)
      as (_ & _ & Hok).
    apply Hok; [repeat constructor | reflexivity | constructor].
Defined.

(** What ends [multiApply] before it applies anything: a pool without
    threads, whose share of the batch is a division by zero; a pool that is
    shut down and refuses the writer of the oplog; an insert into the oplog
    that fails. *)
Definition noThreads : ApplierEnv :=
  mkApplierEnv 0 Status_OK false false false false false false.

Definition poolShutDown : ApplierEnv :=
  mkApplierEnv 2 (mkStatus InternalError "Shutdown in progress") false false false false false
    false.

Definition oplogFull : ApplierContext := {|
  SessionUpdateTracker := unit;
  SessionUpdateTracker_new := tt;
  updateOrFlush := fun t _ => (None, t);
  flushAll := fun _ => [];
  extractOperations := fun _ => Ret [];
  StringMapHasher_hash := fun s => Z.of_nat (String.length s);
  Collator := unit;
  elementHasher_hash := fun e _ =>
    match getField (getObject e) "_id" with Some (BNumber n) => n | _ => 0 end;
  MurmurHash3_x86_32 := fun key seed => key + seed;
  Database := unit;
  Collection := unit;
  getDb := fun _ => Some tt;
  getCollection := fun _ _ => Some tt;
  Collection_isCapped := fun _ => false;
  Collection_getDefaultCollator := fun _ => None;
  supportsDocLocking := true;
  beginApplyingOpTime := OpTime_null;
  MultikeyPathInfo := unit;
  _applyFunc := failsOnBad;
  setIndexIsMultikey := fun _ _ => Status_OK;
  insertDocuments := fun _ => mkStatus InternalError "cannot insert into the oplog" |}.

Example multiApply_ends_before_applying :
  multiApply 2 [] 3 noThreads Running noMarkers [insert20; insert21]
  = Undefined "ops.size() / numOplogThreads"
  /\ multiApply 2 [] 3 poolShutDown Running noMarkers [insert20; insert21]
     = InvariantFailure "threadPool->schedule(...)"
  /\ @multiApply exampleCodec oplogFull 2 [] 3 twoThreads Running noMarkers [insert20; insert21]
     = Fatal 40141 (Some (mkStatus InternalError "cannot insert into the oplog")).
Proof. vm_compute. repeat split. Qed.

(** A secondary that has applied everything up to 20 seconds. *)
Definition secondaryAt20 : ReplicationCoordinatorMock := mkMock RS_SECONDARY t20 20000 1.

Lemma out_of_order_batch_is_fatal_witness :
  _oplogApplication_iteration 2 [] 3 twoThreads secondaryAt20 noMarkers
    (mkOpQueue [insert20] 217 false)
  = Fatal 34361 (Some (outOfOrderStatus t20 t20))
  /\ _oplogApplication_iteration 2 [] 3 twoThreads secondaryAt20 noMarkers
       (mkOpQueue [insert21] 217 false)
     = Ret (NextIteration, mkMock RS_SECONDARY t21 21000 1,
            mkMarkers t21 t21 (mkTimestamp 0 0),
            [OplogDiskLocRegistered (mkTimestamp 21 0) true;
             FinalizerRecorded t21 21000 Consistent]).
Proof.
  assert (Hgo : tryToGoLiveAsASecondary secondaryAt20 (minValid noMarkers)
                = Ret (secondaryAt20, [])) by reflexivity.
  split.
  - apply (proj1 (out_of_order_batch_is_fatal 2 [] 3 twoThreads secondaryAt20 secondaryAt20
                    noMarkers (mkOpQueue [insert20] 217 false) insert20 [] []
                    eq_refl eq_refl Hgo)).
    reflexivity.
  - rewrite (proj1 (proj2 (out_of_order_batch_is_fatal 2 [] 3 twoThreads secondaryAt20
                             secondaryAt20 noMarkers (mkOpQueue [insert21] 217 false)
                             insert21 [] [] eq_refl eq_refl Hgo)) eq_refl).
    vm_compute. reflexivity.
Defined.

(** The batch of the single oversized entry, once published by the
    batcher, is applied by the driver. *)
Example oversized_batch_is_applied :
  _oplogApplication_iteration 2 [] 3 twoThreads (mkMock RS_SECONDARY OpTime_null 0 1)
    noMarkers (mkOpQueue [insert20] 217 false)
  = Ret (NextIteration, mkMock RS_SECONDARY t20 20000 1,
         mkMarkers t20 t20 (mkTimestamp 0 0),
         [OplogDiskLocRegistered (mkTimestamp 20 0) true;
          FinalizerRecorded t20 20000 Consistent]).
Proof. vm_compute. reflexivity. Qed.

(** A node in RECOVERING goes live once it has applied up to [minValid],
    and not before. *)
Example recovering_goes_live_at_minValid :
  tryToGoLiveAsASecondary (mkMock RS_RECOVERING t20 20000 1) t20
  = Ret (mkMock RS_SECONDARY t20 20000 1,
         [AcquiredRSTL; CalledSetFollowerMode RS_SECONDARY Status_OK; AttemptCounted])
  /\ tryToGoLiveAsASecondary (mkMock RS_RECOVERING t20 20000 1) t21
     = Ret (mkMock RS_RECOVERING t20 20000 1,
            [AcquiredRSTL;
             Logged 2 "We cannot transition to SECONDARY state because our 'lastApplied' optime is less than the 'minValid' optime.";
             AttemptCounted]).
Proof. vm_compute. split; reflexivity. Qed.

(** **** The markers and the last applied optime on the example *)

Example batch_of_two_is_applied :
  multiApply 2 [] 3 twoThreads Running noMarkers [insert20; insert21]
  = Ret (inr t21, mkMarkers OpTime_null t21 (mkTimestamp 0 0)).
Proof. vm_compute. reflexivity. Qed.

Lemma multiApply_clears_the_truncate_point_and_raises_minValid_witness :
  multiApply 2 [] 3 twoThreads Running noMarkers [insert20; insert21]
  = Ret (inr t21, mkMarkers OpTime_null t21 (mkTimestamp 0 0))
  /\ appliedThrough (mkMarkers OpTime_null t21 (mkTimestamp 0 0)) = appliedThrough noMarkers
  /\ oplogTruncateAfterPoint (mkMarkers OpTime_null t21 (mkTimestamp 0 0)) = mkTimestamp 0 0
  /\ OpTime_le (minValid noMarkers) (minValid (mkMarkers OpTime_null t21 (mkTimestamp 0 0)))
     = true.
Proof.
  pose proof (multiApply_clears_the_truncate_point_and_raises_minValid 2 [] 3 twoThreads
                Running noMarkers [insert20; insert21] _ _ batch_of_two_is_applied)
    as (Hthrough & _ & Hmarkers).
  destruct Hmarkers as (Htrunc & Hmin & _); [discriminate | reflexivity |].
  split; [exact batch_of_two_is_applied |]. auto.
Defined.

Definition secondaryAtNull : ReplicationCoordinatorMock := mkMock RS_SECONDARY OpTime_null 0 1.

Lemma completed_turn_records_the_last_optime_of_the_batch_witness :
  _batch (mkOpQueue [insert20] 217 false) = [insert20]
  /\ _oplogApplication_iteration 2 [] 3 twoThreads secondaryAtNull noMarkers
       (mkOpQueue [insert20] 217 false)
     = Ret (NextIteration, mkMock RS_SECONDARY t20 20000 1,
            mkMarkers t20 t20 (mkTimestamp 0 0),
            [OplogDiskLocRegistered (mkTimestamp 20 0) true;
             FinalizerRecorded t20 20000 Consistent])
  /\ appliedThrough (mkMarkers t20 t20 (mkTimestamp 0 0)) = getOpTime insert20.
Proof.
  split; [reflexivity |]. split; [exact oversized_batch_is_applied |].
  exact (proj1 (proj2 (completed_turn_records_the_last_optime_of_the_batch 2 [] 3 twoThreads
                         secondaryAtNull _ noMarkers _ (mkOpQueue [insert20] 217 false)
                         insert20 [] _ _ eq_refl oversized_batch_is_applied))).
Defined.

Lemma turn_on_the_mock_moves_last_applied_forward_witness :
  _oplogApplication_iteration 2 [] 3 twoThreads secondaryAtNull noMarkers
    (mkOpQueue [insert20] 217 false)
  = Ret (NextIteration, mkMock RS_SECONDARY t20 20000 1,
         mkMarkers t20 t20 (mkTimestamp 0 0),
         [OplogDiskLocRegistered (mkTimestamp 20 0) true;
          FinalizerRecorded t20 20000 Consistent])
  /\ OpTime_le (_myLastAppliedOpTime secondaryAtNull)
       (_myLastAppliedOpTime (mkMock RS_SECONDARY t20 20000 1)) = true
  /\ _term (mkMock RS_SECONDARY t20 20000 1) = _term secondaryAtNull.
Proof.
  split; [exact oversized_batch_is_applied |].
  pose proof (turn_on_the_mock_moves_last_applied_forward 2 [] 3 twoThreads secondaryAtNull _
                noMarkers _ (mkOpQueue [insert20] 217 false) _ _ oversized_batch_is_applied)
    as (Hle & Hterm & _).
  split; [exact Hle | exact Hterm].
Defined.

(** **** The oplog writers on the example *)

(** A batch of 33 operations on a pool of two threads: the first writer
    takes 16 of them, the second the 17 that are left. *)
Definition batch33 : list OplogEntry := replicate 33 insert19.

Example two_oplog_writers :
  scheduleWritesToOplog 2 batch33 = Ret [(0, 16); (16, 33)].
Proof. vm_compute. reflexivity. Qed.

(** A pool without threads, under document-level locking: the share of
    each thread is a division by zero. *)
Example no_oplog_writer :
  scheduleWritesToOplog 0 batch33 = Undefined "ops.size() / numOplogThreads".
Proof. vm_compute. reflexivity. Qed.

Lemma oplog_writers_cover_the_batch_once_witness :
  (0 < 2)%nat /\ Z.of_nat 2 < 2 ^ 60 /\ Z.of_nat (length batch33) < 2 ^ 64
  /\ exists (ranges : list (Z * Z)) (docs : list (list InsertStatement)),
       scheduleWritesToOplog 2 batch33 = Ret ranges
       /\ Forall2 (fun range d => makeOplogWriterForRange batch33 range = Ret d) ranges docs
       /\ concat docs = map insertStatementOf batch33
       /\ (length ranges = 1%nat
           \/ (length ranges = 2%nat /\ Forall (fun d => (16 <= length d)%nat) docs))
       /\ (supportsDocLocking = false -> ranges = [(0, Z.of_nat (length batch33))]).
Proof.
  assert (H1 : (0 < 2)%nat) by lia.
  assert (H2 : Z.of_nat 2 < 2 ^ 60) by (vm_compute; reflexivity).
  assert (H3 : Z.of_nat (length batch33) < 2 ^ 64) by (vm_compute; reflexivity).
  split; [exact H1 |]. split; [exact H2 |]. split; [exact H3 |].
  exact (oplog_writers_cover_the_batch_once 2 batch33 H1 H2 H3).
Defined.

(** **** The assembler and the fetch of a missing document on the example *)

Lemma assembler_returns_only_rebuilt_pending_operations_witness :
  readTransactionOperationsFromOplogChain 3 oplogOnDisk C13 [P3] = Ret [R1; R2; R3]
  /\ exists (start : OpTime) (walked : list OplogEntry),
       getPrevWriteOpTimeInTransaction (List.hd C13 [P3]) = Some start
       /\ OpTime_lt start (getOpTime C13) = true
       /\ walks oplogOnDisk start walked
       /\ Forall2 (rebuilt C13) (rev walked ++ [P3]) [R1; R2; R3]
       /\ Forall (fun O => isInPendingTransaction O = true) (rev walked ++ [P3])
       /\ (getCommandType C13 = kCommitTransaction -> [R1; R2; R3] <> []).
Proof.
  assert (H : readTransactionOperationsFromOplogChain 3 oplogOnDisk C13 [P3]
              = Ret [R1; R2; R3]) by (vm_compute; reflexivity).
  split; [exact H |].
  exact (assembler_returns_only_rebuilt_pending_operations 3 oplogOnDisk C13 [P3]
           [R1; R2; R3] H).
Defined.

(** The sync source cannot be reached at the first attempt and answers the
    second one. *)
Definition idOfObject (e : OplogEntry) : option BSONValue := getField (getObject e) "_id".

Definition reachedAtSecondAttempt (retryCount : Z) : ConnectOutcome :=
  if retryCount =? 1 then ConnectNetworkException else Connected.

Definition documentZero : BSONObj := [("_id", BNumber 0); ("a", BNumber 1)]%string.

Definition findsDocumentZero (retryCount : Z) (ns : string) (query : BSONObj) : FindOutcome :=
  Found documentZero.

Definition findsNothingByUUID (retryCount : Z) (dbname : string) (uuid : Z) (query : BSONObj)
  : FindOutcome :=
  Found [].

Definition unreachable (retryCount : Z) : ConnectOutcome := ConnectFailed.

(** Stands for the status of the assertion 15916. *)
Definition assertion15916 : Status :=
  mkStatus InternalError "Can no longer connect to initial sync source".

Lemma getMissingDoc_returns_the_first_document_fetched_witness :
  getMissingDoc idOfObject reachedAtSecondAttempt findsDocumentZero findsNothingByUUID
    assertion15916 false true insert19 = Ret (documentZero, [4])
  /\ getMissingDoc idOfObject unreachable findsDocumentZero findsNothingByUUID
       assertion15916 false true insert19 = Throw assertion15916
  /\ exists k : Z,
       1 <= k <= 3
       /\ getMissingDoc_attempt idOfObject reachedAtSecondAttempt findsDocumentZero
            findsNothingByUUID k insert19 = Ret (Some documentZero)
       /\ (forall j, 1 <= j < k ->
           networkProblem idOfObject reachedAtSecondAttempt findsDocumentZero
             findsNothingByUUID j insert19)
       /\ [4] = map (fun j => j * j) (seqZ 2 (k - 1))
       /\ (fold_right Z.add 0 [4] = 0 \/ fold_right Z.add 0 [4] = 4
           \/ fold_right Z.add 0 [4] = 13).
Proof.
  assert (H : getMissingDoc idOfObject reachedAtSecondAttempt findsDocumentZero
                findsNothingByUUID assertion15916 false true insert19 = Ret (documentZero, [4]))
    by (vm_compute; reflexivity).
  split; [exact H |]. split.
  - apply (proj2 (getMissingDoc_returns_the_first_document_fetched idOfObject unreachable
                    findsDocumentZero findsNothingByUUID assertion15916 false true insert19));
      [reflexivity | reflexivity |].
    intros j _. reflexivity.
  - exact (proj1 (getMissingDoc_returns_the_first_document_fetched idOfObject
                    reachedAtSecondAttempt findsDocumentZero findsNothingByUUID assertion15916
                    false true insert19) documentZero [4] H).
Defined.

End Example.

End Repl.
